(** * instagram-to-bluesky: the archive-to-post pipeline

    A shallow embedding of [src/image.ts] ([processImageBuffer]),
    [src/media.ts] ([getMimeType], [processMedia], [processPost]) and of the
    import driver ([processVideoPost], [main]), followed by the properties
    the specification states about them.

    The code is asynchronous but strictly sequential (every promise is
    awaited at once), so an [async] function is embedded as a function into
    [Eff]: the log lines and collaborator calls it makes, in order, and its
    outcome: a returned value or a thrown JavaScript exception. *)

From Stdlib Require Import ZArith List String Ascii Bool Lia QArith.
From Stdlib Require Import Permutation Sorted.
Import ListNotations.
Local Open Scope Z_scope.

(* ================================================================== *)
(** ** JavaScript values the code handles *)

(** The exceptions the embedded code can raise: the two built-in ones that
    property access on [undefined] and [Date.prototype.toISOString] raise,
    and [new Error(msg)] (also used for whatever a collaborator throws). *)
Inductive Exn : Type :=
| TypeError
| RangeError
| JsError (msg : string).

Inductive Outcome (A : Type) : Type :=
| Return (a : A)
| Throw (e : Exn).
Arguments Return {A} a.
Arguments Throw {A} e.

(** A [Buffer]: the bytes of a file. The code only ever asks for its
    [length]; the bytes are looked at by the collaborators alone. *)
Definition Buffer : Type := list Byte.byte.

Definition Buffer_length (b : Buffer) : Z := Z.of_nat (List.length b).

(** [Buffer.alloc(n)]: [n] zero bytes. *)
Definition Buffer_alloc (n : Z) : Buffer := List.repeat Byte.x00 (Z.to_nat n).

(** A [Date] object. [new Date(ms)] clips to the range of ECMAScript time
    values; outside it, and for [NaN], the object is an invalid date. Every
    [Date] object, valid or not, is truthy. *)
Inductive Date : Type :=
| ValidDate (ms : Z)
| InvalidDate.

Definition MAX_TIME_VALUE : Z := 8640000000000000.

(** [new Date(x)] for a number [x]; [None] stands for [NaN]. *)
Definition newDate (x : option Z) : Date :=
  match x with
  | Some ms => if Z.abs ms <=? MAX_TIME_VALUE then ValidDate ms else InvalidDate
  | None => InvalidDate
  end.

(** [ts * 1000] for a field that is absent ([undefined * 1000] is [NaN]) or
    holds a number of epoch seconds. *)
Definition timesThousand (ts : option Z) : option Z :=
  option_map (fun t => t * 1000) ts.

(** [new Date(ts * 1000)]. *)
Definition dateOfTimestamp (ts : option Z) : Date := newDate (timesThousand ts).

(** [d.getTime()]: [None] is [NaN]. *)
Definition getTime (d : Date) : option Z :=
  match d with
  | ValidDate ms => Some ms
  | InvalidDate => None
  end.

(** [d.toISOString()]: raises [RangeError] on an invalid date. The text
    itself only reaches the log, so the time value stands for it. *)
Definition toISOString (d : Date) : Outcome Z :=
  match d with
  | ValidDate ms => Return ms
  | InvalidDate => Throw RangeError
  end.

(** [a < b] and [a > b] on [Date] objects compare the time values; a
    comparison with [NaN] is false. *)
Definition Date_ltb (a b : Date) : bool :=
  match getTime a, getTime b with
  | Some x, Some y => x <? y
  | _, _ => false
  end.

Definition Date_gtb (a b : Date) : bool := Date_ltb b a.

(** Truthiness of an optional number: [undefined], [0] (and [NaN], which a
    parsed JSON document never holds) are falsy. *)
Definition truthyNumber (x : option Z) : bool :=
  match x with
  | Some v => negb (v =? 0)
  | None => false
  end.

(** Truthiness of an optional string: [undefined], [null] and [""] are
    falsy. *)
Definition truthyString (s : option string) : bool :=
  match s with
  | Some EmptyString => false
  | Some _ => true
  | None => false
  end.

(** ** Strings

    A [string] here is a JavaScript string, one character per UTF-16 code
    unit; only [length], [substring], [lastIndexOf], [startsWith],
    [toLowerCase] and concatenation are used. *)

Definition strlen (s : string) : Z := Z.of_nat (String.length s).

(** [s.substring(a, b)] for [0 <= a <= b]. *)
Definition jsSubstring (a b : Z) (s : string) : string :=
  String.substring (Z.to_nat a) (Z.to_nat (b - a)) s.

(** [s.substring(a)]. *)
Definition jsSubstringFrom (a : Z) (s : string) : string :=
  jsSubstring a (strlen s) s.

(** [s.lastIndexOf(c)] for a one-character [c]: [-1] when absent. *)
Fixpoint lastIndexOf (c : ascii) (s : string) : Z :=
  match s with
  | EmptyString => -1
  | String d rest =>
      let r := lastIndexOf c rest in
      if 0 <=? r then r + 1
      else if Ascii.eqb c d then 0 else -1
  end.

(** [s.startsWith(p)]. *)
Definition startsWith (p s : string) : bool := String.prefix p s.

Definition lowerAscii (c : ascii) : ascii :=
  let n := nat_of_ascii c in
  if (65 <=? n)%nat && (n <=? 90)%nat then ascii_of_nat (n + 32) else c.

(** [s.toLowerCase()], on the ASCII letters: the only ones an entry of the
    extension tables below can match. *)
Fixpoint toLowerCase (s : string) : string :=
  match s with
  | EmptyString => EmptyString
  | String c rest => String (lowerAscii c) (toLowerCase rest)
  end.

(* ================================================================== *)
(** ** The archive, as parsed from [posts_1.json] *)

(** One entry of [media_metadata.photo_metadata.exif_data]. *)
Record ExifData : Type := {
  latitude : option Q;
  longitude : option Q
}.

(** One attached file. [exif_data] is
    [media_metadata?.photo_metadata?.exif_data]; a missing link of that
    chain and an empty array both fail the one test made on it
    ([?.length > 0]), so both are the empty list. The last three fields are
    read only by [main]'s video branch. *)
Record Media : Type := {
  uri : string;
  m_creation_timestamp : option Z;
  m_title : option string;
  exif_data : list ExifData;
  m_type : option string;
  media_url : option string;
  m_buffer : option Buffer
}.

(** One exported post. A missing [media] array is the empty list:
    [processPost] tests [!post.media?.length], and [post.media[0].f] raises
    [TypeError] for a missing array as it does for an empty one. *)
Record Post : Type := {
  creation_timestamp : option Z;
  title : option string;
  media : list Media
}.

(* ================================================================== *)
(** ** Embeds ([VideoEmbedImpl], [ImageEmbedImpl] of [bluesky.ts]) *)

Record ImageEmbed : Type := {
  i_alt : string;
  i_buffer : Buffer;
  i_mimeType : string
}.

Record VideoEmbed : Type := {
  v_alt : string;
  v_buffer : Buffer;
  v_mimeType : string
}.

(** [VideoEmbed | ImageEmbed[]], the type of [ProcessedPost.embeddedMedia]. *)
Inductive EmbeddedMedia : Type :=
| Video (v : VideoEmbed)
| Images (l : list ImageEmbed).

Record MediaProcessResult : Type := {
  mediaText : string;
  mimeType : option string;
  mediaBuffer : option Buffer;
  isVideo : bool
}.

(** [postText] is declared [string], but [postText || post.media[0].title]
    leaves [undefined] in it when both are missing. *)
Record ProcessedPost : Type := {
  postDate : option Date;
  postText : option string;
  embeddedMedia : EmbeddedMedia;
  mediaCount : Z
}.

(** What [prepareVideoUpload] returns and [createVideoEmbed] wraps. *)
Record VideoData : Type := {
  vd_buffer : Buffer;
  vd_width : Z;
  vd_height : Z;
  vd_ref : option string
}.

(** [main]'s [embeddedMedia: any]: what [processPost] built, or the embed of
    the upload-aware video branch. *)
Inductive PostEmbed : Type :=
| Initial (e : EmbeddedMedia)
| Uploaded (v : VideoData).

(* ================================================================== *)
(** ** Effects: the log, the collaborator calls, exceptions *)

Inductive Level : Type := Debug | Info | Warn | Error.

(** The log lines of the code, by what they say (their wording and
    formatting is the logger's business). *)
Inductive Message : Type :=
| UnsupportedFileType (fileType : string)
| FailedToReadMediaFile (filename : string)
| ImageLargerThanLimit (size : Z) (filename : string)
| MetadataMissing
| BeforeAfter (w h : Z) (w' h' : option Z)
| ResizedStillTooLarge (size : Z)
| ResizedBelowLimit (size : Z)
| FailedToProcessImage (filename : string)
| InstagramSourceMedia (mime : string) (filename : string) (created : Z)
                       (text : string) (video : bool)
| TooManyImages
| SimulateDisabled
| SimulateEnabled
| SkipNoDate
| SkipBeforeMinDate (d : Date)
| SkipAfterMaxDate (d : Date)
| SkipInvalidDate
| ProcessingPostMedia (type : option string) (count : Z)
| ProcessingVideo (size : Z)
| VideoProcessingComplete
| FailedToProcessVideo
| UsingPhotoMedia (n : Z)
| PostCreated (url : string)
| FailedToCreatePost
| InstagramPost (created : Z) (text : string)
| ImportFinished (posts mediaItems : Z).

Inductive Event : Type :=
| Log (lvl : Level) (msg : Message)
| SharpMetadata (size : Z)
| SharpResize (size : Z) (w h : option Z)
| Sleep (ms : Z)
| Login
| UploadVideo (size : Z)
| CreatePost (d : Date) (text : option string) (e : PostEmbed).

Definition Eff (A : Type) : Type := list Event * Outcome A.

Definition ret {A} (a : A) : Eff A := ([], Return a).

Definition throw {A} (e : Exn) : Eff A := ([], Throw e).

Definition bind {A B} (m : Eff A) (k : A -> Eff B) : Eff B :=
  match m with
  | (l, Return a) => let (l', r) := k a in (l ++ l', r)
  | (l, Throw e) => (l, Throw e)
  end.

(** [try { m } catch (error) { h error }]. *)
Definition tryCatch {A} (m : Eff A) (h : Exn -> Eff A) : Eff A :=
  match m with
  | (l, Throw e) => let (l', r) := h e in (l ++ l', r)
  | (l, Return a) => (l, Return a)
  end.

Definition emit (ev : Event) : Eff unit := ([ev], Return tt).

Definition logger (lvl : Level) (msg : Message) : Eff unit := emit (Log lvl msg).

Definition lift {A} (o : Outcome A) : Eff A := ([], o).

Declare Scope eff_scope.
Delimit Scope eff_scope with eff.
Notation "x <- m ;; k" := (bind m (fun x => k))
  (at level 100, m at next level, right associativity) : eff_scope.
Notation "m ;; k" := (bind m (fun _ => k))
  (at level 100, right associativity) : eff_scope.
Local Open Scope eff_scope.

Definition events {A} (m : Eff A) : list Event := fst m.
Definition outcome {A} (m : Eff A) : Outcome A := snd m.

(** ** The collaborators

    The file system, the [sharp] image library, the runtime's number
    printing, [video.ts]'s upload helpers and the Bluesky client are outside
    the code under study; the embedding is parametric in them. The file
    system and [sharp] are functions of their arguments (the archive on disk
    does not change during a run); the client carries a state of its own, so
    that two equal submissions may fare differently. *)

Record ImageMeta : Type := {
  width : option Z;
  height : option Z
}.

Record World : Type := {
  readFileSync : string -> Outcome Buffer;
  sharp_metadata : Buffer -> Outcome ImageMeta;
  sharp_resize : Buffer -> option Z -> option Z -> Outcome Buffer;
  numberToString : Q -> string;
  prepareVideoUpload : option string -> Buffer -> Outcome VideoData;
  Client : Type;
  login : Client -> Outcome Client;
  uploadVideo : Client -> Buffer -> Client * Outcome (option string);
  createPost :
    Client -> Date -> option string -> PostEmbed -> Client * Outcome (option string)
}.

(* ================================================================== *)
(** ** [src/image.ts] *)

Definition API_LIMIT_IMAGE_UPLOAD_SIZE : Z := 976000.
Definition IMAGE_LENGTH_LIMIT : Z := 1920.

(** [await sharp(b).metadata()]. *)
Definition sharpMetadata (W : World) (b : Buffer) : Eff ImageMeta :=
  emit (SharpMetadata (Buffer_length b)) ;; lift (sharp_metadata W b).

(** [await sharp(b).resize({width, height, withoutEnlargement: true}).toBuffer()]. *)
Definition sharpResize (W : World) (b : Buffer) (w h : option Z) : Eff Buffer :=
  emit (SharpResize (Buffer_length b) w h) ;; lift (sharp_resize W b w h).

Definition processImageBuffer (W : World) (mediaBuffer : Buffer) (filename : string)
  : Eff (option Buffer) :=
  if Buffer_length mediaBuffer <=? API_LIMIT_IMAGE_UPLOAD_SIZE then
    ret (Some mediaBuffer)
  else
    logger Warn (ImageLargerThanLimit (Buffer_length mediaBuffer) filename) ;;
    tryCatch
      (imageMeta <- sharpMetadata W mediaBuffer ;;
       match width imageMeta, height imageMeta with
       | Some w, Some h =>
           if (w =? 0) || (h =? 0) then
             logger Error MetadataMissing ;; ret None
           else
             let width0 := if h <? w then Some IMAGE_LENGTH_LIMIT else None in
             let height' := if w <? h then Some IMAGE_LENGTH_LIMIT else None in
             let width' :=
               match width0, height' with
               | None, None => Some IMAGE_LENGTH_LIMIT
               | _, _ => width0
               end in
             bufferResized <- sharpResize W mediaBuffer width' height' ;;
             metaResized <- sharpMetadata W bufferResized ;;
             logger Info (BeforeAfter w h (width metaResized) (height metaResized)) ;;
             if API_LIMIT_IMAGE_UPLOAD_SIZE <? Buffer_length bufferResized then
               logger Error (ResizedStillTooLarge (Buffer_length bufferResized)) ;;
               ret None
             else
               logger Info (ResizedBelowLimit (Buffer_length bufferResized)) ;;
               ret (Some bufferResized)
       | _, _ => logger Error MetadataMissing ;; ret None
       end)
      (fun _ => logger Error (FailedToProcessImage filename) ;; ret None).

(** Modelled from the spec: [isImageTooLarge] of [src/image.ts], which the
    sources at hand leave out: a buffer is too large when it is over the
    976,000-byte upload ceiling (exactly 976,000 is not). *)
Definition isImageTooLarge (b : Buffer) : bool :=
  API_LIMIT_IMAGE_UPLOAD_SIZE <? Buffer_length b.

(** Modelled from the spec: [getImageMimeType] of [src/image.ts]: a
    case-insensitive lookup in the image table jpg/jpeg/png/webp/heic, the
    empty string for anything else. *)
Definition getImageMimeType (fileType : string) : string :=
  let t := toLowerCase fileType in
  if String.eqb t "jpg" then "image/jpeg"
  else if String.eqb t "jpeg" then "image/jpeg"
  else if String.eqb t "png" then "image/png"
  else if String.eqb t "webp" then "image/webp"
  else if String.eqb t "heic" then "image/heic"
  else "".

(* ================================================================== *)
(** ** [src/video.ts] *)

(** Modelled from the spec: [getVideoMimeType] of [src/video.ts]: a
    case-insensitive lookup in the video table mp4/mov. *)
Definition getVideoMimeType (fileType : string) : string :=
  let t := toLowerCase fileType in
  if String.eqb t "mp4" then "video/mp4"
  else if String.eqb t "mov" then "video/quicktime"
  else "".

(** Modelled from the spec: [isVideoMimeType] of [src/video.ts]: the MIME
    type is of the video kind (it starts with [video/]). *)
Definition isVideoMimeType (mime : string) : bool := startsWith "video/" mime.

Definition MAX_VIDEO_SIZE : Z := 100 * 1024 * 1024.

(** Modelled from the spec: [validateVideo] of [src/video.ts]: accepts when
    the byte length is at most 100 MiB, rejects otherwise. *)
Definition validateVideo (b : Buffer) : bool := Buffer_length b <=? MAX_VIDEO_SIZE.

(* ================================================================== *)
(** ** [src/media.ts] *)

Definition MAX_IMAGES_PER_POST : Z := 4.
Definition POST_TEXT_LIMIT : Z := 300.
Definition POST_TEXT_TRUNCATE_SUFFIX : string := "...".

Definition getMimeType (fileType : string) : Eff string :=
  let imageMimeType := getImageMimeType fileType in
  if truthyString (Some imageMimeType) then ret imageMimeType
  else
    let videoMimeType := getVideoMimeType fileType in
    if truthyString (Some videoMimeType) then ret videoMimeType
    else logger Warn (UnsupportedFileType fileType) ;; ret ""%string.

(** [`${x}`] for an optional number. *)
Definition showNumber (W : World) (x : option Q) : string :=
  match x with
  | Some q => numberToString W q
  | None => "undefined"
  end.

(** [x > 0] for an optional number. *)
Definition positive (x : option Q) : bool :=
  match x with
  | Some q => negb (Qle_bool q 0)
  | None => false
  end.

Definition newline : string := String (ascii_of_nat 10) EmptyString.

(** The caption before truncation: the title, and the coordinates of the
    first EXIF entry when its latitude is positive. *)
Definition captionText (W : World) (m : Media) : string :=
  let mediaText := match m_title m with Some t => t | None => ""%string end in
  match exif_data m with
  | location :: _ =>
      if positive (latitude location) then
        (mediaText ++ newline ++ "Photo taken at these geographical coordinates: geo:"
           ++ showNumber W (latitude location) ++ "," ++ showNumber W (longitude location))%string
      else mediaText
  | [] => mediaText
  end.

(** [text.length > 100 ? text.substring(0, 100) + "..." : text]. *)
Definition truncateCaption (text : string) : string :=
  if 100 <? strlen text then (jsSubstring 0 100 text ++ "...")%string else text.

Definition failedMedia : MediaProcessResult :=
  {| mediaText := ""; mimeType := None; mediaBuffer := None; isVideo := false |}.

Definition processMedia (W : World) (m : Media) (archiveFolder : string)
  : Eff MediaProcessResult :=
  let mediaDate := dateOfTimestamp (m_creation_timestamp m) in
  let fileType := jsSubstringFrom (lastIndexOf "."%char (uri m) + 1) (uri m) in
  mime <- getMimeType fileType ;;
  let mediaFilename := (archiveFolder ++ "/" ++ uri m)%string in
  match readFileSync W mediaFilename with
  | Throw _ =>
      logger Error (FailedToReadMediaFile mediaFilename) ;; ret failedMedia
  | Return buf =>
      resized <-
        (if isImageTooLarge buf && negb (String.eqb mime "") then
           processImageBuffer W buf mediaFilename
         else ret (Some buf)) ;;
      match resized with
      | None => ret failedMedia
      | Some buf' =>
          let truncatedText := truncateCaption (captionText W m) in
          let video := isVideoMimeType mime in
          created <- lift (toISOString mediaDate) ;;
          logger Debug (InstagramSourceMedia mime mediaFilename created truncatedText video) ;;
          ret {| mediaText := truncatedText; mimeType := Some mime;
                 mediaBuffer := Some buf'; isVideo := video |}
      end
  end.

(** [text.length > 300 ? text.substring(0, 300 - 3) + "..." : text]. *)
Definition truncatePostText (text : string) : string :=
  if POST_TEXT_LIMIT <? strlen text then
    (jsSubstring 0 (POST_TEXT_LIMIT - strlen POST_TEXT_TRUNCATE_SUFFIX) text
       ++ POST_TEXT_TRUNCATE_SUFFIX)%string
  else text.

(** The [for] loop over [post.media]: [ms] is what is left from index [j]
    on, [acc] the embeds pushed so far and [count] is [mediaCount]. *)
Fixpoint imageLoop (W : World) (archiveFolder : string) (ms : list Media) (j : Z)
    (acc : list ImageEmbed) (count : Z) : Eff (list ImageEmbed * Z) :=
  match ms with
  | [] => ret (acc, count)
  | m :: rest =>
      if MAX_IMAGES_PER_POST <=? j then
        logger Warn TooManyImages ;; ret (acc, count)
      else
        r <- processMedia W m archiveFolder ;;
        match mimeType r, mediaBuffer r with
        | Some mime, Some buf =>
            if negb (truthyString (Some mime)) || isVideo r then
              imageLoop W archiveFolder rest (j + 1) acc count
            else
              imageLoop W archiveFolder rest (j + 1)
                (acc ++ [{| i_alt := mediaText r; i_buffer := buf; i_mimeType := mime |}])
                (count + 1)
        | _, _ => imageLoop W archiveFolder rest (j + 1) acc count
        end
  end.

Definition processPost (W : World) (post : Post) (archiveFolder : string)
  : Eff ProcessedPost :=
  let postDate0 :=
    if truthyNumber (creation_timestamp post)
    then Some (dateOfTimestamp (creation_timestamp post)) else None in
  let postText0 :=
    truncatePostText (match title post with Some t => t | None => ""%string end) in
  match media post with
  | [] =>
      ret {| postDate := postDate0; postText := Some postText0;
             embeddedMedia := Images []; mediaCount := 0 |}
  | m0 :: _ =>
      let single := Z.of_nat (List.length (media post)) =? 1 in
      let postText1 :=
        if single && negb (truthyString (Some postText0)) then m_title m0
        else Some postText0 in
      let postDate1 :=
        match postDate0 with
        | Some d => Some d
        | None =>
            if single then Some (dateOfTimestamp (m_creation_timestamp m0)) else None
        end in
      firstMedia <- processMedia W m0 archiveFolder ;;
      if isVideo firstMedia then
        match mimeType firstMedia, mediaBuffer firstMedia with
        | Some mime, Some buf =>
            if truthyString (Some mime) && validateVideo buf then
              ret {| postDate := postDate1; postText := postText1;
                     embeddedMedia :=
                       Video {| v_alt := mediaText firstMedia; v_buffer := buf;
                                v_mimeType := mime |};
                     mediaCount := 1 |}
            else
              ret {| postDate := postDate1; postText := postText1;
                     embeddedMedia := Images []; mediaCount := 0 |}
        | _, _ =>
            ret {| postDate := postDate1; postText := postText1;
                   embeddedMedia := Images []; mediaCount := 0 |}
        end
      else
        r <- imageLoop W archiveFolder (media post) 0 [] 0 ;;
        ret {| postDate := postDate1; postText := postText1;
               embeddedMedia := Images (fst r); mediaCount := snd r |}
  end.

(* ================================================================== *)
(** ** The import driver ([main] and its helpers) *)

Definition API_RATE_LIMIT_DELAY : Z := 3000.

(** The environment [main] reads at its start. [ARCHIVE_FOLDER] is what
    [getArchiveFolder()] returns (the test modes only change this path);
    [MIN_DATE] and [MAX_DATE] are [undefined] or [new Date(text)], which is
    an invalid date for a text that is no date. *)
Record Config : Type := {
  SIMULATE : bool;
  MIN_DATE : option Date;
  MAX_DATE : option Date;
  ARCHIVE_FOLDER : string
}.

(** [main]'s mutable locals: the two counters, and [bluesky] (the client in
    its current state, [null] in simulate mode). *)
Record RunState (W : World) : Type := {
  importedPosts : Z;
  importedMedia : Z;
  bluesky : option (Client W)
}.
Arguments importedPosts {W} r.
Arguments importedMedia {W} r.
Arguments bluesky {W} r.

(** [processVideoPost]: its [try] block rethrows after logging, so the
    outcome is returned beside the client, whose state outlives a failure. *)
Definition processVideoPost (W : World) (filePath : option string)
    (buffer : option Buffer) (client : option (Client W)) (simulate : bool)
  : Eff (option (Client W) * Outcome VideoData) :=
  match buffer with
  | None =>
      logger Error FailedToProcessVideo ;;
      ret (client, Throw (JsError "Video buffer is undefined"))
  | Some buf =>
      logger Debug (ProcessingVideo (Buffer_length buf)) ;;
      match prepareVideoUpload W filePath buf with
      | Throw e => logger Error FailedToProcessVideo ;; ret (client, Throw e)
      | Return videoData =>
          match simulate, client with
          | false, Some c =>
              emit (UploadVideo (Buffer_length buf)) ;;
              match uploadVideo W c buf with
              | (c', Throw e) =>
                  logger Error FailedToProcessVideo ;; ret (Some c', Throw e)
              | (c', Return link) =>
                  if truthyString link then
                    ret (Some c',
                         Return {| vd_buffer := vd_buffer videoData;
                                   vd_width := vd_width videoData;
                                   vd_height := vd_height videoData;
                                   vd_ref := link |})
                  else
                    logger Error FailedToProcessVideo ;;
                    ret (Some c',
                         Throw (JsError "Failed to get video upload reference"))
              end
          | _, _ => ret (client, Return videoData)
          end
      end
  end.

(** [post.media[0]], about to be dereferenced. *)
Definition firstMediaOf (post : Post) : Outcome Media :=
  match media post with
  | m0 :: _ => Return m0
  | [] => Throw TypeError
  end.

(** The sort comparator's [new Date(p.media[0].creation_timestamp * 1000).getTime()]. *)
Definition sortKey (p : Post) : Outcome (option Z) :=
  match firstMediaOf p with
  | Return m0 => Return (getTime (dateOfTimestamp (m_creation_timestamp m0)))
  | Throw e => Throw e
  end.

(** The comparator [(a, b) => ad - bd], as the sort reads it: is the result
    positive ([NaN] is not). *)
Definition comparesAfter (a b : Post) : Outcome bool :=
  match sortKey a with
  | Throw e => Throw e
  | Return ad =>
      match sortKey b with
      | Throw e => Throw e
      | Return bd =>
          Return match ad, bd with
                 | Some x, Some y => 0 <? x - y
                 | _, _ => false
                 end
      end
  end.

(** [instaPosts.sort(...)]: a stable sort, here by insertion. When every
    key is a number the comparator is consistent and the order is the one
    any conforming engine yields; with a [NaN] key (a first media item
    without a timestamp) the language leaves the order to the engine, and
    this is one such order, which need not be the one Node yields: what is
    stated below about the order is stated for archives whose first media
    items are all dated. *)
Fixpoint insertPost (x : Post) (l : list Post) : Outcome (list Post) :=
  match l with
  | [] => Return [x]
  | y :: l' =>
      match comparesAfter x y with
      | Throw e => Throw e
      | Return true =>
          match insertPost x l' with
          | Return r => Return (y :: r)
          | Throw e => Throw e
          end
      | Return false => Return (x :: l)
      end
  end.

Fixpoint sortPosts (l : list Post) : Outcome (list Post) :=
  match l with
  | [] => Return []
  | x :: l' =>
      match sortPosts l' with
      | Return s => insertPost x s
      | Throw e => Throw e
      end
  end.

(** The [checkDate] of the loop body: [undefined] is [None]. *)
Definition checkDateOf (post : Post) : Outcome (option Date) :=
  if truthyNumber (creation_timestamp post) then
    Return (Some (dateOfTimestamp (creation_timestamp post)))
  else
    match firstMediaOf post with
    | Throw e => Throw e
    | Return m0 =>
        if truthyNumber (m_creation_timestamp m0) then
          Return (Some (dateOfTimestamp (m_creation_timestamp m0)))
        else Return None
    end.

Definition beforeMinDate (cfg : Config) (checkDate : Date) : bool :=
  match MIN_DATE cfg with
  | Some d => Date_ltb checkDate d
  | None => false
  end.

Definition afterMaxDate (cfg : Config) (checkDate : Date) : bool :=
  match MAX_DATE cfg with
  | Some d => Date_gtb checkDate d
  | None => false
  end.

(** How one pass through the loop body ends: it falls through or
    [continue]s, or it [break]s. *)
Inductive Ctl : Type := Continue | Break.

(** The text of the final debug line: [postText.length] raises [TypeError]
    on [undefined]. *)
Definition previewText (text : option string) : Outcome string :=
  match text with
  | Some t =>
      Return (if 50 <? strlen t then (jsSubstring 0 50 t ++ "...")%string else t)
  | None => Throw TypeError
  end.

(** Submission and counting, from [if (!SIMULATE && bluesky)] to the end of
    the loop body. *)
Definition submitPost (W : World) (cfg : Config) (st : RunState W)
    (date : Date) (text : option string) (embed : PostEmbed) (count : Z)
  : Eff (RunState W) :=
  st1 <-
    match SIMULATE cfg, bluesky st with
    | false, Some c =>
        emit (Sleep API_RATE_LIMIT_DELAY) ;;
        emit (CreatePost date text embed) ;;
        match createPost W c date text embed with
        | (c', Return postUrl) =>
            if truthyString postUrl then
              logger Info (PostCreated (match postUrl with Some u => u | None => ""%string end)) ;;
              ret {| importedPosts := importedPosts st + 1;
                     importedMedia := importedMedia st; bluesky := Some c' |}
            else
              ret {| importedPosts := importedPosts st;
                     importedMedia := importedMedia st; bluesky := Some c' |}
        | (c', Throw _) =>
            logger Error FailedToCreatePost ;;
            ret {| importedPosts := importedPosts st;
                   importedMedia := importedMedia st; bluesky := Some c' |}
        end
    | _, _ =>
        ret {| importedPosts := importedPosts st + 1;
               importedMedia := importedMedia st; bluesky := bluesky st |}
    end ;;
  created <- lift (toISOString date) ;;
  preview <- lift (previewText text) ;;
  logger Debug (InstagramPost created preview) ;;
  ret {| importedPosts := importedPosts st1;
         importedMedia := importedMedia st1 + count; bluesky := bluesky st1 |}.

(** From [processPost] to the end of the loop body, for a post that passed
    the date checks. *)
Definition importPost (W : World) (cfg : Config) (post : Post) (st : RunState W)
  : Eff (RunState W) :=
  processed <- processPost W post (ARCHIVE_FOLDER cfg) ;;
  m0 <- lift (firstMediaOf post) ;;
  logger Debug (ProcessingPostMedia (m_type m0) (mediaCount processed)) ;;
  r <-
    (if match m_type m0 with Some t => String.eqb t "Video" | None => false end then
       v <- processVideoPost W (media_url m0) (m_buffer m0) (bluesky st) (SIMULATE cfg) ;;
       match snd v with
       | Return videoEmbed =>
           logger Debug VideoProcessingComplete ;;
           ret (fst v, Some (Uploaded videoEmbed))
       | Throw _ =>
           logger Error FailedToProcessVideo ;; ret (fst v, None)
       end
     else
       logger Debug
         (UsingPhotoMedia
            match embeddedMedia processed with
            | Images l => Z.of_nat (List.length l)
            | Video _ => 0
            end) ;;
       ret (bluesky st, Some (Initial (embeddedMedia processed)))) ;;
  let st' := {| importedPosts := importedPosts st;
                importedMedia := importedMedia st; bluesky := fst r |} in
  match snd r with
  | None => ret st'
  | Some embed =>
      match postDate processed with
      | None => logger Warn SkipInvalidDate ;; ret st'
      | Some date =>
          submitPost W cfg st' date (postText processed) embed (mediaCount processed)
      end
  end.

(** One pass through the body of [for (const post of sortedPosts)]. *)
Definition iteration (W : World) (cfg : Config) (post : Post) (st : RunState W)
  : Eff (Ctl * RunState W) :=
  checkDate <- lift (checkDateOf post) ;;
  match checkDate with
  | None => logger Warn SkipNoDate ;; ret (Continue, st)
  | Some d =>
      if beforeMinDate cfg d then
        logger Warn (SkipBeforeMinDate d) ;; ret (Continue, st)
      else if afterMaxDate cfg d then
        logger Warn (SkipAfterMaxDate d) ;; ret (Break, st)
      else
        st' <- importPost W cfg post st ;; ret (Continue, st')
  end.

(** [for (const post of sortedPosts) { ... }]. *)
Fixpoint forEachPost (W : World) (cfg : Config) (sortedPosts : list Post)
    (st : RunState W) : Eff (RunState W) :=
  match sortedPosts with
  | [] => ret st
  | post :: rest =>
      r <- iteration W cfg post st ;;
      match fst r with
      | Continue => forEachPost W cfg rest (snd r)
      | Break => ret (snd r)
      end
  end.

(** [main], from the login on, for the posts parsed from the archive; it
    returns the two counters of its last log line. The duration estimate of
    simulate mode is a floating-point figure for the log and is left out. *)
Definition main (W : World) (cfg : Config) (client : Client W) (instaPosts : list Post)
  : Eff (Z * Z) :=
  b <-
    (if SIMULATE cfg then logger Warn SimulateEnabled ;; ret None
     else
       logger Info SimulateDisabled ;;
       emit Login ;;
       c <- lift (login W client) ;;
       ret (Some c)) ;;
  let st0 := {| importedPosts := 0; importedMedia := 0; bluesky := b |} in
  st <-
    match instaPosts with
    | [] => ret st0
    | _ :: _ =>
        sortedPosts <- lift (sortPosts instaPosts) ;;
        forEachPost W cfg sortedPosts st0
    end ;;
  logger Info (ImportFinished (importedPosts st) (importedMedia st)) ;;
  ret (importedPosts st, importedMedia st).

(* ================================================================== *)
(** ** Vocabulary of the properties *)

Definition isResize (e : Event) : bool :=
  match e with
  | SharpResize _ _ _ => true
  | _ => false
  end.

(** How many times a run asked [sharp] to resize. *)
Definition resizePasses (l : list Event) : nat := List.length (List.filter isResize l).

(** [sharp] reports a width and a height for the buffer, both non-zero. *)
Definition dimensionsReadable (W : World) (b : Buffer) : bool :=
  match sharp_metadata W b with
  | Return meta => truthyNumber (width meta) && truthyNumber (height meta)
  | Throw _ => false
  end.

(** The image embed a processed media item stands for, when the image loop
    keeps it: it has a MIME type and bytes and is no video. *)
Definition imageOf (r : MediaProcessResult) : option ImageEmbed :=
  match mimeType r, mediaBuffer r with
  | Some mime, Some buf =>
      if negb (truthyString (Some mime)) || isVideo r then None
      else Some {| i_alt := mediaText r; i_buffer := buf; i_mimeType := mime |}
  | _, _ => None
  end.

(** A media item qualifies as an image when [processMedia] returns such a
    result for it (its file is readable, image-classified and within the
    size limit, as is or after the resize). *)
Definition qualifying (W : World) (folder : string) (m : Media) : option ImageEmbed :=
  match outcome (processMedia W m folder) with
  | Return r => imageOf r
  | Throw _ => None
  end.

(** The embeds of the qualifying items of [ms], in order. *)
Fixpoint selectImages (W : World) (folder : string) (ms : list Media) : list ImageEmbed :=
  match ms with
  | [] => []
  | m :: rest =>
      match qualifying W folder m with
      | Some i => i :: selectImages W folder rest
      | None => selectImages W folder rest
      end
  end.

(** The captions an embed carries. *)
Definition captions (e : EmbeddedMedia) : list string :=
  match e with
  | Video v => [v_alt v]
  | Images l => List.map i_alt l
  end.

Definition isCreatePost (e : Event) : bool :=
  match e with
  | CreatePost _ _ _ => true
  | _ => false
  end.

(** The submissions a run made to the destination client. *)
Definition submissions (l : list Event) : list Event := List.filter isCreatePost l.

(* ================================================================== *)
(** ** [decodeUTF8] (the import driver) *)

(** A value as [JSON.parse] returns it. An object is the list of its own
    entries, in the order [Object.entries] yields them. *)
#[warnings="-register-all"]
Inductive Json : Type :=
| JNull
| JBool (b : bool)
| JNumber (q : Q)
| JString (s : string)
| JArray (items : list Json)
| JObject (entries : list (string * Json)).

(** [decodeUTF8]. [recode] is
    [s => new TextDecoder("utf-8").decode(new TextEncoder().encode(s))],
    the runtime's; it does not raise, so the [catch] branch is never taken.
    The copy of an object is filled by [obj[key] = ...] in the order of the
    entries, which gives the copy the same entries in the same order, but
    for a key [__proto__]: that assignment runs the prototype setter and
    adds no entry. The change of prototype itself is outside this model of
    own entries, so what is stated below of [decodeUTF8] is stated for
    values without such a key. *)
Fixpoint decodeUTF8 (recode : string -> string) (data : Json) : Json :=
  match data with
  | JString s => JString (recode s)
  | JArray items => JArray (List.map (decodeUTF8 recode) items)
  | JObject entries =>
      JObject
        ((fix forEach (es : list (string * Json)) : list (string * Json) :=
            match es with
            | [] => []
            | (key, value) :: rest =>
                if String.eqb key "__proto__" then forEach rest
                else (key, decodeUTF8 recode value) :: forEach rest
            end) entries)
  | _ => data
  end.

(** The string values of a JSON value (not the keys of its objects). *)
Fixpoint stringsOf (data : Json) : list string :=
  match data with
  | JString s => [s]
  | JArray items => List.flat_map stringsOf items
  | JObject entries => List.flat_map (fun '(_, value) => stringsOf value) entries
  | _ => []
  end.

(** The keys of all objects of a JSON value. *)
Fixpoint keysOf (data : Json) : list string :=
  match data with
  | JArray items => List.flat_map keysOf items
  | JObject entries => List.flat_map (fun '(key, value) => key :: keysOf value) entries
  | _ => []
  end.

(* ================================================================== *)
(** ** The earlier [getMimeType] of [src/media.ts] *)

Module Legacy.

(** [getMimeType] as [src/media.ts] had it before the lookups moved to
    [image.ts] and [video.ts]: one [switch] on the lower-cased file type. *)
Definition getMimeType (fileType : string) : Eff string :=
  let t := toLowerCase fileType in
  if String.eqb t "heic" then ret "image/heic"%string
  else if String.eqb t "webp" then ret "image/webp"%string
  else if String.eqb t "jpg" then ret "image/jpeg"%string
  else if String.eqb t "mp4" then ret "video/mp4"%string
  else if String.eqb t "mov" then ret "video/quicktime"%string
  else logger Warn (UnsupportedFileType fileType) ;; ret ""%string.

End Legacy.

(* ================================================================== *)
(** ** More vocabulary *)

(** Calls that leave the machine or wait: the login, the rate-limit delay,
    an upload, a submission. *)
Definition isNetwork (e : Event) : bool :=
  match e with
  | Login | Sleep _ | UploadVideo _ | CreatePost _ _ _ => true
  | _ => false
  end.

Definition isSharp (e : Event) : bool :=
  match e with
  | SharpMetadata _ | SharpResize _ _ _ => true
  | _ => false
  end.

Definition isPostCreated (e : Event) : bool :=
  match e with
  | Log Info (PostCreated _) => true
  | _ => false
  end.

(** How many submissions came back with the URL of the new post. *)
Definition postsCreated (l : list Event) : Z :=
  Z.of_nat (List.length (List.filter isPostCreated l)).

(** Every submission in [l] comes right after a wait of at least the
    rate-limit delay; [slept] tells whether such a wait came just before
    [l]. *)
Fixpoint pacedFrom (slept : bool) (l : list Event) : bool :=
  match l with
  | [] => true
  | Sleep ms :: rest => pacedFrom (API_RATE_LIMIT_DELAY <=? ms) rest
  | CreatePost _ _ _ :: rest => slept && pacedFrom false rest
  | _ :: rest => pacedFrom false rest
  end.

Definition paced (l : list Event) : bool := pacedFrom false l.

(** The byte length of every buffer of an embed. *)
Definition embeddedSizes (e : EmbeddedMedia) : list Z :=
  match e with
  | Video v => [Buffer_length (v_buffer v)]
  | Images l => List.map (fun i => Buffer_length (i_buffer i)) l
  end.

(** The file type [processMedia] reads off a URI. *)
Definition fileTypeOf (u : string) : string :=
  jsSubstringFrom (lastIndexOf "."%char u + 1) u.

(** The first media item's time value, the key of [main]'s sort. *)
Definition firstMediaTime (p : Post) : option Z :=
  match media p with
  | m0 :: _ => getTime (dateOfTimestamp (m_creation_timestamp m0))
  | [] => None
  end.

(** The posts of [l] whose key is [t], in the order of [l]. *)
Definition postsAt (t : Z) (l : list Post) : list Post :=
  List.filter
    (fun p => match firstMediaTime p with Some x => x =? t | None => false end) l.

(** The size [processImageBuffer] asks [sharp] for, for an image of [w] by
    [h] pixels: the width and the height of the request. *)
Definition resizeRequest (w h : Z) : option Z * option Z :=
  if h <? w then (Some IMAGE_LENGTH_LIMIT, None)
  else if w <? h then (None, Some IMAGE_LENGTH_LIMIT)
  else (Some IMAGE_LENGTH_LIMIT, None).

(** Post [a] is dated no later than post [b], by their first media items. *)
Definition notAfter (a b : Post) : Prop :=
  forall x y, firstMediaTime a = Some x -> firstMediaTime b = Some y -> x <= y.

(** One step of the counters: the posts by 0 or 1, the media by [count]. *)
Definition stepOf {W : World} (st st' : RunState W) (count : Z) : Prop :=
  importedPosts st <= importedPosts st' <= importedPosts st + 1 /\
  importedMedia st' = importedMedia st + count.

(** The sort key of a post, 0 where it has none. *)
Definition timeOf (p : Post) : Z :=
  match firstMediaTime p with
  | Some t => t
  | None => 0
  end.

(** Whether a string holds a dot. *)
Fixpoint hasDot (s : string) : bool :=
  match s with
  | EmptyString => false
  | String c rest => Ascii.eqb "."%char c || hasDot rest
  end.


(* ================================================================== *)
(** ** Scenarios: concrete archives and collaborators *)

Module Scenario.

(** A disk that holds the listed files and nothing else. *)
Fixpoint readFrom (files : list (string * Buffer)) (path : string) : Outcome Buffer :=
  match files with
  | [] => Throw (JsError "ENOENT: no such file or directory")
  | (p, b) :: rest => if String.eqb p path then Return b else readFrom rest path
  end.

Definition unsupported {A : Type} : Outcome A :=
  Throw (JsError "Input buffer contains unsupported image format").

(** A world whose disk holds [files], whose [sharp] finds no image in any
    buffer (as for the bytes of a video, or the zero bytes of the files
    below), and whose client answers every submission with [answer]. *)
Definition world (files : list (string * Buffer)) (answer : Outcome (option string))
  : World :=
  {| readFileSync := readFrom files;
     sharp_metadata := fun _ => unsupported;
     sharp_resize := fun _ _ _ => unsupported;
     numberToString := fun _ => "0"%string;
     prepareVideoUpload := fun _ _ => unsupported;
     Client := unit;
     login := fun c => Return c;
     uploadVideo := fun c _ => (c, Return (Some "ref"%string));
     createPost := fun c _ _ _ => (c, answer) |}.

Definition accepted : Outcome (option string) :=
  Return (Some "at://did:plc:user/app.bsky.feed.post/1"%string).

Definition refused : Outcome (option string) := Throw (JsError "Upstream failure").

(** A media item as the export lists it: a file, its timestamp, its title. *)
Definition file (name : string) (ts : Z) (caption : string) : Media :=
  {| uri := name; m_creation_timestamp := Some ts; m_title := Some caption;
     exif_data := []; m_type := None; media_url := None; m_buffer := None |}.

Definition photoA : Media := file "a.jpg" 1700000000 "a".
Definition photoB : Media := file "b.jpg" 1700000000 "b".
Definition photoC : Media := file "c.jpg" 1700000000 "c".
Definition photoD : Media := file "d.jpg" 1700000000 "d".
Definition photoE : Media := file "e.jpg" 1700000000 "e".
Definition clip : Media := file "clip.mp4" 1700000000 "clip".

(** The embed of a ten-byte JPEG file. *)
Definition jpeg (caption : string) : ImageEmbed :=
  {| i_alt := caption; i_buffer := Buffer_alloc 10; i_mimeType := "image/jpeg" |}.

Definition photo (name : string) : string * Buffer :=
  (("archive/" ++ name)%string, Buffer_alloc 10).

Definition simulate : Config :=
  {| SIMULATE := true; MIN_DATE := None; MAX_DATE := None; ARCHIVE_FOLDER := "archive" |}.

Definition live : Config :=
  {| SIMULATE := false; MIN_DATE := None; MAX_DATE := None; ARCHIVE_FOLDER := "archive" |}.

Definition fresh (W : World) : RunState W :=
  {| importedPosts := 0; importedMedia := 0; bluesky := None |}.

(** A post dated by itself, with one small photo. *)
Definition photoPost : Post :=
  {| creation_timestamp := Some 1700000000; title := Some "one photo"%string;
     media := [photoA] |}.

(** A video of 976,001 bytes: over the image ceiling, far below 100 MiB. *)
Definition clipDisk : list (string * Buffer) :=
  [(("archive/clip.mp4")%string, Buffer_alloc 976001)].

Definition clipPost : Post :=
  {| creation_timestamp := Some 1700000000; title := Some "clip"%string;
     media := [clip] |}.

(** A video whose file is missing from the disk, beside a photo. *)
Definition lostClipPost : Post :=
  {| creation_timestamp := Some 1700000000; title := Some "clip and photo"%string;
     media := [clip; photoA] |}.

(** A post with no timestamp of its own and two dated photos. *)
Definition twoPhotos : Post :=
  {| creation_timestamp := None; title := Some "two"%string;
     media := [photoA; file "b.jpg" 1700000001 "b"] |}.

(** A post with no timestamp of its own and one dated photo. *)
Definition onePhoto : Post :=
  {| creation_timestamp := None; title := None; media := [photoA] |}.

(** A dated post with no media at all. *)
Definition textPost : Post :=
  {| creation_timestamp := Some 1700000000; title := Some "just text"%string;
     media := [] |}.

Fixpoint replicate (n : nat) (c : ascii) : string :=
  match n with
  | O => EmptyString
  | S n' => String c (replicate n' c)
  end.

(** A photo whose title has 101 characters. *)
Definition longCaption : Media := file "a.jpg" 1700000000 (replicate 101 "a"%char).

(** A post with that photo alone. *)
Definition longCaptionPost : Post :=
  {| creation_timestamp := Some 1700000000; title := Some "long"%string;
     media := [longCaption] |}.

(** A photo whose title has exactly 100 characters. *)
Definition fullCaption : Media := file "a.jpg" 1700000000 (replicate 100 "a"%char).

(** Six media items: a photo, a small video, four more photos. *)
Definition carousel : Post :=
  {| creation_timestamp := Some 1700000000; title := Some "carousel"%string;
     media := [photoA; clip; photoB; photoC; photoD; photoE] |}.

(** Five photos. *)
Definition fivePhotos : Post :=
  {| creation_timestamp := Some 1700000000; title := Some "five"%string;
     media := [photoA; photoB; photoC; photoD; photoE] |}.

Definition photoDisk : list (string * Buffer) :=
  [photo "a.jpg"; photo "b.jpg"; photo "c.jpg"; photo "d.jpg"; photo "e.jpg";
   photo "clip.mp4"].

(** A post and its photo, dated 2000 seconds after the epoch. *)
Definition between : Post :=
  {| creation_timestamp := Some 2000; title := Some "between"%string;
     media := [file "a.jpg" 2000 "a"] |}.

(** A post and its photo, dated 500 seconds after the epoch. *)
Definition early : Post :=
  {| creation_timestamp := Some 500; title := Some "early"%string;
     media := [file "a.jpg" 500 "a"] |}.

(** An upper bound alone. *)
Definition until1000 : Config :=
  {| SIMULATE := true; MIN_DATE := None; MAX_DATE := Some (ValidDate 1000000);
     ARCHIVE_FOLDER := "archive" |}.

(** A lower bound alone. *)
Definition from3000 : Config :=
  {| SIMULATE := true; MIN_DATE := Some (ValidDate 3000000); MAX_DATE := None;
     ARCHIVE_FOLDER := "archive" |}.

(** A post whose own timestamp and whose media timestamp are both 0. *)
Definition epochPost : Post :=
  {| creation_timestamp := Some 0; title := Some "epoch"%string;
     media := [file "a.jpg" 0 "a"] |}.

(** What [processPost] returns for [photoPost] on a disk with its photo. *)
Definition processedPhotoPost : ProcessedPost :=
  {| postDate := Some (ValidDate 1700000000000); postText := Some "one photo"%string;
     embeddedMedia := Images [jpeg "a"]; mediaCount := 1 |}.

(** The result [processMedia] gives for the ten-byte [clip.mp4]. *)
Definition processedClip : MediaProcessResult :=
  {| mediaText := "clip"; mimeType := Some "video/mp4"%string;
     mediaBuffer := Some (Buffer_alloc 10); isVideo := true |}.

(** A post whose media item is typed as a video, as the export's JSON has
    it: with no buffer. *)
Definition reel : Post :=
  {| creation_timestamp := Some 1700000000; title := Some "reel"%string;
     media := [{| uri := "clip.mp4"; m_creation_timestamp := Some 1700000000;
                  m_title := Some "clip"%string; exif_data := [];
                  m_type := Some "Video"%string; media_url := Some "clip.mp4"%string;
                  m_buffer := None |}] |}.

(** A world whose [sharp] reads every buffer as a 4000 by 3000 image and
    resizes it to 1000 bytes. *)
Definition photoLab : World :=
  {| readFileSync := readFrom photoDisk;
     sharp_metadata := fun _ => Return {| width := Some 4000; height := Some 3000 |};
     sharp_resize := fun _ _ _ => Return (Buffer_alloc 1000);
     numberToString := fun _ => "0"%string;
     prepareVideoUpload := fun _ _ => unsupported;
     Client := unit;
     login := fun c => Return c;
     uploadVideo := fun c _ => (c, Return (Some "ref"%string));
     createPost := fun c _ _ _ => (c, accepted) |}.

(** Both bounds at the date of [between]. *)
Definition exactly2000 : Config :=
  {| SIMULATE := true; MIN_DATE := Some (ValidDate 2000000);
     MAX_DATE := Some (ValidDate 2000000); ARCHIVE_FOLDER := "archive" |}.

(** A parsed archive of one post with one photo. *)
Definition parsedArchive : Json :=
  JArray
    [JObject
       [("title"%string, JString "hello");
        ("media"%string,
         JArray
           [JObject
              [("uri"%string, JString "a.jpg");
               ("creation_timestamp"%string, JNumber (1700000000 # 1))]])]].

(** A post dated 2000 s whose photo is dated 1000 s: the sort places it by
    the photo, the date bounds test its own date. *)
Definition overdue : Post :=
  {| creation_timestamp := Some 2000; title := Some "overdue"%string;
     media := [file "a.jpg" 1000 "a"] |}.

(** A post dated 500 s whose photo is dated 1500 s: sorted after
    [overdue], and by its own date within [until1000]. *)
Definition straggler : Post :=
  {| creation_timestamp := Some 500; title := Some "straggler"%string;
     media := [file "b.jpg" 1500 "b"] |}.

(** [epochPost] with the photo's timestamp missing instead of 0. *)
Definition epochPostUndatedPhoto : Post :=
  {| creation_timestamp := Some 0; title := Some "epoch"%string;
     media := [{| uri := "a.jpg"; m_creation_timestamp := None; m_title := Some "a"%string;
                  exif_data := []; m_type := None; media_url := None;
                  m_buffer := None |}] |}.

(** What [processPost] returns for [onePhoto] on a disk with its photo. *)
Definition processedOnePhoto : ProcessedPost :=
  {| postDate := Some (ValidDate 1700000000000); postText := Some "a"%string;
     embeddedMedia := Images [jpeg "a"]; mediaCount := 1 |}.

(** The video data [videoLab] prepares for ten bytes. *)
Definition preparedClip : VideoData :=
  {| vd_buffer := Buffer_alloc 10; vd_width := 640; vd_height := 480; vd_ref := None |}.

(** A world that prepares every video as 640 by 480 and whose client
    answers every upload with the reference [ref]. *)
Definition videoLab : World :=
  {| readFileSync := readFrom photoDisk;
     sharp_metadata := fun _ => unsupported;
     sharp_resize := fun _ _ _ => unsupported;
     numberToString := fun _ => "0"%string;
     prepareVideoUpload := fun _ b =>
       Return {| vd_buffer := b; vd_width := 640; vd_height := 480; vd_ref := None |};
     Client := unit;
     login := fun c => Return c;
     uploadVideo := fun c _ => (c, Return (Some "ref"%string));
     createPost := fun c _ _ _ => (c, accepted) |}.

End Scenario.

(* ================================================================== *)
(** * Properties *)

(** ** Laws of [Eff] *)

Section EffLaws.
Context {A B : Type}.

Lemma outcome_bind (m : Eff A) (k : A -> Eff B) :
  outcome (bind m k) =
  match outcome m with
  | Return a => outcome (k a)
  | Throw e => Throw e
  end.
Proof.
  destruct m as [l [a|e]]; cbn; [destruct (k a)|]; reflexivity.
Qed.

Lemma events_bind (m : Eff A) (k : A -> Eff B) :
  events (bind m k) =
  events m ++ match outcome m with
              | Return a => events (k a)
              | Throw _ => []
              end.
Proof.
  destruct m as [l [a|e]]; cbn; [destruct (k a); reflexivity|].
  now rewrite app_nil_r.
Qed.

Lemma bind_Return (l : list Event) (a : A) (k : A -> Eff B) :
  bind (l, Return a) k = (l ++ events (k a), outcome (k a)).
Proof. unfold bind, events, outcome. destruct (k a); reflexivity. Qed.

Lemma bind_Return_inv (m : Eff A) (k : A -> Eff B) (b : B) :
  outcome (bind m k) = Return b ->
  exists a, outcome m = Return a /\ outcome (k a) = Return b.
Proof.
  rewrite outcome_bind. destruct (outcome m) as [a|e]; [eauto|discriminate].
Qed.
End EffLaws.

Lemma getMimeType_returns (fileType : string) :
  exists mime, outcome (getMimeType fileType) = Return mime.
Proof.
  unfold getMimeType.
  destruct (truthyString (Some (getImageMimeType fileType))); [cbn; eauto|].
  destruct (truthyString (Some (getVideoMimeType fileType))); cbn; eauto.
Qed.

(** ** [processMedia] *)

Lemma processImageBuffer_returns (W : World) (b : Buffer) (f : string) :
  exists res, outcome (processImageBuffer W b f) = Return res.
Proof.
  unfold processImageBuffer, sharpMetadata, sharpResize.
  destruct (Buffer_length b <=? API_LIMIT_IMAGE_UPLOAD_SIZE); [cbn; eauto|].
  destruct (sharp_metadata W b) as [[[w|] [h|]]|e]; cbn; eauto.
  destruct ((w =? 0) || (h =? 0)); cbn; eauto.
  match goal with
  | |- context [sharp_resize W b ?x ?y] =>
      destruct (sharp_resize W b x y) as [out|e]; cbn; eauto
  end.
  destruct (sharp_metadata W out); cbn; eauto.
  destruct (API_LIMIT_IMAGE_UPLOAD_SIZE <? Buffer_length out); cbn; eauto.
Qed.

(** What [processMedia] can return: the failure record, or the media item's
    truncated caption with its MIME type and bytes. *)
Lemma processMedia_Return_inv (W : World) (m : Media) (folder : string)
    (r : MediaProcessResult) :
  outcome (processMedia W m folder) = Return r ->
  r = failedMedia \/
  (mediaText r = truncateCaption (captionText W m) /\
   exists mime buf,
     mimeType r = Some mime /\ mediaBuffer r = Some buf /\
     isVideo r = isVideoMimeType mime).
Proof.
  unfold processMedia. intros H.
  apply bind_Return_inv in H. destruct H as [mime [_ H]].
  destruct (readFileSync W _) as [buf|e].
  - apply bind_Return_inv in H. destruct H as [[buf'|] [_ H]].
    + apply bind_Return_inv in H. destruct H as [created [_ H]].
      apply bind_Return_inv in H. destruct H as [[] [_ H]].
      cbn in H. injection H as <-. right. cbn. eauto 6.
    + cbn in H. injection H as <-. now left.
  - apply bind_Return_inv in H. destruct H as [[] [_ H]].
    cbn in H. injection H as <-. now left.
Qed.

Lemma processMedia_returns (W : World) (m : Media) (folder : string) (ms : Z) :
  dateOfTimestamp (m_creation_timestamp m) = ValidDate ms ->
  exists r, outcome (processMedia W m folder) = Return r.
Proof.
  intros Hd. unfold processMedia.
  destruct (getMimeType_returns (jsSubstringFrom (lastIndexOf "." (uri m) + 1) (uri m)))
    as [mime Hm].
  rewrite outcome_bind, Hm.
  destruct (readFileSync W _) as [buf|e]; [|cbn; eauto].
  rewrite outcome_bind.
  destruct (isImageTooLarge buf && negb (mime =? "")%string).
  - destruct (processImageBuffer_returns W buf (folder ++ "/" ++ uri m)) as [[b'|] ->];
      [|cbn; eauto].
    rewrite Hd. cbn. eauto.
  - rewrite Hd. cbn. eauto.
Qed.

Lemma firstn_slots (j : Z) (m : Media) (rest : list Media) :
  0 <= j -> j < MAX_IMAGES_PER_POST ->
  firstn (Z.to_nat (MAX_IMAGES_PER_POST - j)) (m :: rest) =
  m :: firstn (Z.to_nat (MAX_IMAGES_PER_POST - (j + 1))) rest.
Proof.
  intros H0 H4.
  replace (Z.to_nat (MAX_IMAGES_PER_POST - j))
    with (S (Z.to_nat (MAX_IMAGES_PER_POST - (j + 1)))) by lia.
  reflexivity.
Qed.

(** One turn of the image loop on a processed item. *)
Lemma imageLoop_step (W : World) (folder : string) (m : Media) (rest : list Media)
    (j : Z) (acc : list ImageEmbed) (count : Z) (r : MediaProcessResult) :
  j < MAX_IMAGES_PER_POST ->
  outcome (processMedia W m folder) = Return r ->
  outcome (imageLoop W folder (m :: rest) j acc count) =
  match imageOf r with
  | Some i => outcome (imageLoop W folder rest (j + 1) (acc ++ [i]) (count + 1))
  | None => outcome (imageLoop W folder rest (j + 1) acc count)
  end.
Proof.
  intros Hj Hr. cbn [imageLoop].
  apply Z.leb_gt in Hj. rewrite Hj.
  rewrite outcome_bind, Hr. unfold imageOf.
  destruct (mimeType r) as [mime|]; [|reflexivity].
  destruct (mediaBuffer r) as [buf|]; [|reflexivity].
  destruct (negb (truthyString (Some mime)) || isVideo r); reflexivity.
Qed.

(** The image loop, when it returns, has pushed the qualifying items among
    those at indices below the cap, in order, and counted them. *)
Lemma imageLoop_Return_inv (W : World) (folder : string) (ms : list Media) :
  forall (j : Z) (acc : list ImageEmbed) (count : Z) (res : list ImageEmbed * Z),
    0 <= j ->
    outcome (imageLoop W folder ms j acc count) = Return res ->
    let sel := selectImages W folder (firstn (Z.to_nat (MAX_IMAGES_PER_POST - j)) ms) in
    res = (acc ++ sel, count + Z.of_nat (List.length sel)).
Proof.
  induction ms as [|m rest IH]; intros j acc count res Hj H; cbv zeta.
  - cbn in H. injection H as <-. rewrite firstn_nil. cbn.
    now rewrite app_nil_r, Z.add_0_r.
  - destruct (Z.ltb_spec j MAX_IMAGES_PER_POST) as [Hlt|Hge].
    + rewrite firstn_slots by assumption. cbn [selectImages]. unfold qualifying.
      destruct (outcome (processMedia W m folder)) as [r|e] eqn:Hr.
      * rewrite (imageLoop_step W folder m rest j acc count r Hlt Hr) in H.
        destruct (imageOf r) as [i|].
        -- apply IH in H; [|lia]. cbv zeta in H. rewrite H. cbn [List.length].
           rewrite <- app_assoc. cbn [app]. f_equal. lia.
        -- apply IH in H; [|lia]. exact H.
      * cbn [imageLoop] in H. apply Z.leb_gt in Hlt. rewrite Hlt in H.
        rewrite outcome_bind, Hr in H. discriminate.
    + cbn [imageLoop] in H. apply Z.leb_le in Hge. rewrite Hge in H.
      cbn in H. injection H as <-.
      apply Z.leb_le in Hge.
      replace (Z.to_nat (MAX_IMAGES_PER_POST - j)) with 0%nat by lia.
      cbn. now rewrite app_nil_r, Z.add_0_r.
Qed.

Lemma selectImages_length (W : World) (folder : string) (ms : list Media) :
  (List.length (selectImages W folder ms) <= List.length ms)%nat.
Proof.
  induction ms as [|m rest IH]; cbn; [lia|].
  destruct (qualifying W folder m); cbn; lia.
Qed.

(** The loop returns, and warns about the cap, when it meets no exception
    below the cap and there is an item at the cap's index. *)
Lemma imageLoop_warns (W : World) (folder : string) (ms : list Media) :
  forall (j : Z) (acc : list ImageEmbed) (count : Z),
    0 <= j -> j <= MAX_IMAGES_PER_POST ->
    (forall m, In m (firstn (Z.to_nat (MAX_IMAGES_PER_POST - j)) ms) ->
               exists r, outcome (processMedia W m folder) = Return r) ->
    (exists res, outcome (imageLoop W folder ms j acc count) = Return res) /\
    ((Z.to_nat (MAX_IMAGES_PER_POST - j) < List.length ms)%nat ->
     In (Log Warn TooManyImages) (events (imageLoop W folder ms j acc count))).
Proof.
  induction ms as [|m rest IH]; intros j acc count Hj Hj4 Hall.
  - split; [cbn; eauto|]. cbn. lia.
  - destruct (Z.ltb_spec j MAX_IMAGES_PER_POST) as [Hlt|Hge].
    + rewrite firstn_slots in Hall by assumption.
      destruct (Hall m (or_introl eq_refl)) as [r Hr].
      assert (Hrest : forall m', In m' (firstn (Z.to_nat (MAX_IMAGES_PER_POST - (j + 1))) rest) ->
                                 exists r', outcome (processMedia W m' folder) = Return r').
      { intros m' Hin. apply Hall. now right. }
      split.
      * rewrite (imageLoop_step W folder m rest j acc count r Hlt Hr).
        destruct (imageOf r); apply IH; auto; lia.
      * intros Hlen. cbn [imageLoop].
        pose proof Hlt as Hlt'. apply Z.leb_gt in Hlt'. rewrite Hlt'.
        rewrite events_bind, Hr. apply in_or_app. right.
        cbn [List.length] in Hlen.
        destruct (mimeType r) as [mime|]; [destruct (mediaBuffer r) as [buf|]|];
          [destruct (negb (truthyString (Some mime)) || isVideo r)| |];
          apply IH; auto; lia.
    + split; cbn [imageLoop]; apply Z.leb_le in Hge; rewrite Hge; cbn; eauto.
Qed.

(** The date [processPost] resolves: the post's own timestamp when truthy,
    else the timestamp of the media item of a single-media post. *)
Lemma processPost_postDate (W : World) (post : Post) (folder : string)
    (pp : ProcessedPost) :
  outcome (processPost W post folder) = Return pp ->
  postDate pp =
  if truthyNumber (creation_timestamp post) then
    Some (dateOfTimestamp (creation_timestamp post))
  else
    match media post with
    | [m0] => Some (dateOfTimestamp (m_creation_timestamp m0))
    | _ => None
    end.
Proof.
  unfold processPost. intros H.
  destruct (media post) as [|m0 rest] eqn:Hmedia.
  - cbn in H. injection H as <-. cbn.
    destruct (truthyNumber (creation_timestamp post)); reflexivity.
  - apply bind_Return_inv in H. destruct H as [first [_ H]].
    assert (Hsingle : (Z.of_nat (List.length (m0 :: rest)) =? 1) =
                      match rest with [] => true | _ => false end).
    { destruct rest; cbn [List.length]; [reflexivity|]. apply Z.eqb_neq. lia. }
    rewrite Hsingle in H.
    assert (Hdate : forall d t e c,
               Return {| postDate := d; postText := t; embeddedMedia := e; mediaCount := c |}
               = Return pp -> postDate pp = d).
    { intros d t e c Heq. injection Heq as <-. reflexivity. }
    destruct (isVideo first).
    + destruct (mimeType first) as [mime|]; [destruct (mediaBuffer first) as [buf|]|];
        [destruct (truthyString (Some mime) && validateVideo buf)| |];
        cbn in H; apply Hdate in H; rewrite H;
        destruct (truthyNumber (creation_timestamp post)), rest; reflexivity.
    + apply bind_Return_inv in H. destruct H as [r [_ H]].
      cbn in H; apply Hdate in H; rewrite H;
        destruct (truthyNumber (creation_timestamp post)), rest; reflexivity.
Qed.

(** The embed [processPost] builds. *)
Lemma processPost_embed (W : World) (post : Post) (folder : string)
    (pp : ProcessedPost) :
  outcome (processPost W post folder) = Return pp ->
  match media post with
  | [] => embeddedMedia pp = Images [] /\ mediaCount pp = 0
  | m0 :: _ =>
      exists first,
        outcome (processMedia W m0 folder) = Return first /\
        if isVideo first then
          (embeddedMedia pp = Images [] /\ mediaCount pp = 0) \/
          (exists mime buf,
              mimeType first = Some mime /\ mediaBuffer first = Some buf /\
              validateVideo buf = true /\
              embeddedMedia pp =
                Video {| v_alt := mediaText first; v_buffer := buf; v_mimeType := mime |} /\
              mediaCount pp = 1)
        else
          let sel :=
            selectImages W folder (firstn (Z.to_nat MAX_IMAGES_PER_POST) (media post)) in
          embeddedMedia pp = Images sel /\ mediaCount pp = Z.of_nat (List.length sel)
  end.
Proof.
  unfold processPost. intros H.
  destruct (media post) as [|m0 rest] eqn:Hmedia.
  - cbn in H. injection H as <-. now cbn.
  - apply bind_Return_inv in H. destruct H as [first [Hfirst H]].
    exists first. split; [exact Hfirst|].
    destruct (isVideo first).
    + destruct (mimeType first) as [mime|]; [destruct (mediaBuffer first) as [buf|]|];
        [destruct (truthyString (Some mime) && validateVideo buf) eqn:Hv| |];
        cbn in H; injection H as <-; cbn; auto.
      apply andb_prop in Hv. right. exists mime, buf. intuition.
    + apply bind_Return_inv in H. destruct H as [r [Hloop H]].
      apply imageLoop_Return_inv in Hloop; [|lia]. cbv zeta in Hloop.
      rewrite Z.sub_0_r in Hloop. subst r.
      cbn in H. injection H as <-. cbn. split; reflexivity.
Qed.

Lemma processPost_returns (W : World) (post : Post) (folder : string) :
  (forall m, In m (firstn (Z.to_nat MAX_IMAGES_PER_POST) (media post)) ->
             exists r, outcome (processMedia W m folder) = Return r) ->
  exists pp, outcome (processPost W post folder) = Return pp.
Proof.
  intros Hall. unfold processPost.
  destruct (media post) as [|m0 rest] eqn:Hmedia; [cbn; eauto|].
  destruct (Hall m0 (or_introl eq_refl)) as [first Hfirst].
  rewrite outcome_bind, Hfirst.
  destruct (isVideo first).
  - destruct (mimeType first) as [mime|]; [destruct (mediaBuffer first) as [buf|]|];
      [destruct (truthyString (Some mime) && validateVideo buf)| |]; cbn; eauto.
  - rewrite outcome_bind.
    destruct (imageLoop_warns W folder (m0 :: rest) 0 [] 0) as [[res ->] _];
      [lia | unfold MAX_IMAGES_PER_POST; lia | now rewrite Z.sub_0_r |].
    cbn. eauto.
Qed.

(** ** Strings *)

Lemma length_append (s t : string) :
  String.length (s ++ t) = (String.length s + String.length t)%nat.
Proof. induction s as [|c s IH]; cbn; [reflexivity|now rewrite IH]. Qed.

Lemma length_substring_0 (n : nat) :
  forall s : string, (n <= String.length s)%nat ->
                     String.length (String.substring 0 n s) = n.
Proof.
  induction n as [|n IH]; intros s Hn.
  - destruct s; reflexivity.
  - destruct s as [|c s]; cbn in *; [lia|]. rewrite IH; [reflexivity|lia].
Qed.

Lemma strlen_append (s t : string) : strlen (s ++ t) = strlen s + strlen t.
Proof. unfold strlen. rewrite length_append. lia. Qed.

Lemma strlen_jsSubstring_0 (n : Z) (s : string) :
  0 <= n <= strlen s -> strlen (jsSubstring 0 n s) = n.
Proof.
  unfold strlen, jsSubstring. intros Hn. rewrite Z.sub_0_r.
  change (Z.to_nat 0) with 0%nat. rewrite length_substring_0; lia.
Qed.

(** An over-long caption keeps its first 100 characters and gains the
    three of the marker. *)
Lemma truncateCaption_long (text : string) :
  100 < strlen text ->
  truncateCaption text = (jsSubstring 0 100 text ++ "...")%string /\
  strlen (jsSubstring 0 100 text) = 100 /\
  strlen (truncateCaption text) = 103.
Proof.
  intros Hlen. unfold truncateCaption.
  pose proof Hlen as Hb. apply Z.ltb_lt in Hb. rewrite Hb.
  assert (H100 : strlen (jsSubstring 0 100 text) = 100)
    by (apply strlen_jsSubstring_0; lia).
  repeat split; [exact H100|].
  rewrite strlen_append, H100. reflexivity.
Qed.

Lemma truncateCaption_short (text : string) :
  strlen text <= 100 -> truncateCaption text = text.
Proof.
  intros Hlen. unfold truncateCaption.
  apply Z.ltb_ge in Hlen. now rewrite Hlen.
Qed.

(** ** Captions of the embed *)

Lemma qualifying_caption (W : World) (folder : string) (m : Media) (i : ImageEmbed) :
  qualifying W folder m = Some i -> i_alt i = truncateCaption (captionText W m).
Proof.
  unfold qualifying. destruct (outcome (processMedia W m folder)) as [r|e] eqn:Hr;
    [|discriminate].
  intros Hi. apply processMedia_Return_inv in Hr. destruct Hr as [-> | [Htext _]].
  - discriminate.
  - unfold imageOf in Hi.
    destruct (mimeType r); [|discriminate]. destruct (mediaBuffer r); [|discriminate].
    destruct (negb _ || _); [discriminate|]. injection Hi as <-. exact Htext.
Qed.

Lemma selectImages_captions (W : World) (folder : string) (ms : list Media)
    (i : ImageEmbed) :
  In i (selectImages W folder ms) ->
  exists m, In m ms /\ i_alt i = truncateCaption (captionText W m).
Proof.
  induction ms as [|m rest IH]; cbn; [tauto|].
  destruct (qualifying W folder m) as [i'|] eqn:Hq.
  - intros [<- | Hin].
    + exists m. split; [now left|]. now apply (qualifying_caption W folder).
    + destruct (IH Hin) as [m' [Hm' Hc]]. exists m'. auto.
  - intros Hin. destruct (IH Hin) as [m' [Hm' Hc]]. exists m'. auto.
Qed.

Lemma In_firstn {A : Type} (n : nat) (l : list A) (x : A) :
  In x (firstn n l) -> In x l.
Proof.
  intros H. rewrite <- (firstn_skipn n l). apply in_or_app. now left.
Qed.

Lemma processPost_captions (W : World) (post : Post) (folder : string)
    (pp : ProcessedPost) (c : string) :
  outcome (processPost W post folder) = Return pp ->
  In c (captions (embeddedMedia pp)) ->
  exists m, In m (media post) /\ c = truncateCaption (captionText W m).
Proof.
  intros H Hc. apply processPost_embed in H.
  destruct (media post) as [|m0 rest] eqn:Hmedia.
  - destruct H as [He _]. rewrite He in Hc. destruct Hc.
  - destruct H as [first [Hfirst H]].
    destruct (isVideo first) eqn:Hvideo.
    + destruct H as [[He _] | [mime [buf [_ [_ [_ [He _]]]]]]]; rewrite He in Hc.
      * destruct Hc.
      * destruct Hc as [<- | []]. cbn.
        apply processMedia_Return_inv in Hfirst. destruct Hfirst as [-> | [Htext _]].
        -- discriminate.
        -- exists m0. split; [now left | exact Htext].
    + cbv zeta in H. destruct H as [He _]. rewrite He in Hc. cbn in Hc.
      apply in_map_iff in Hc. destruct Hc as [i [<- Hin]].
      apply selectImages_captions in Hin. destruct Hin as [m [Hm Hcap]].
      exists m. split; [|exact Hcap]. eapply In_firstn; eauto.
Qed.

Lemma bind_lift_Return {A B : Type} (a : A) (k : A -> Eff B) :
  bind (lift (Return a)) k = k a.
Proof. unfold bind, lift. destruct (k a); reflexivity. Qed.

(** ** Runs that submit nothing *)

Lemma submissions_app (l1 l2 : list Event) :
  submissions (l1 ++ l2) = submissions l1 ++ submissions l2.
Proof. apply filter_app. Qed.

Lemma submissions_bind {A B : Type} (m : Eff A) (k : A -> Eff B) :
  submissions (events m) = [] ->
  (forall a, submissions (events (k a)) = []) ->
  submissions (events (bind m k)) = [].
Proof.
  intros Hm Hk. rewrite events_bind, submissions_app, Hm.
  destruct (outcome m); [apply Hk | reflexivity].
Qed.

Lemma submissions_tryCatch {A : Type} (m : Eff A) (h : Exn -> Eff A) :
  submissions (events m) = [] ->
  (forall e, submissions (events (h e)) = []) ->
  submissions (events (tryCatch m h)) = [].
Proof.
  intros Hm Hh. destruct m as [l [a|e]]; [exact Hm|].
  specialize (Hh e). unfold tryCatch. destruct (h e) as [l' r].
  unfold events in *. cbn [fst] in *. now rewrite submissions_app, Hm, Hh.
Qed.

Ltac quiet :=
  repeat first
    [ reflexivity
    | apply submissions_bind; [|intros]
    | apply submissions_tryCatch; [|intros]
    | match goal with
      | |- context [match ?x with _ => _ end] => destruct x
      end ].

Lemma processImageBuffer_quiet (W : World) (b : Buffer) (f : string) :
  submissions (events (processImageBuffer W b f)) = [].
Proof. unfold processImageBuffer, sharpMetadata, sharpResize. quiet. Qed.

Lemma processMedia_quiet (W : World) (m : Media) (folder : string) :
  submissions (events (processMedia W m folder)) = [].
Proof.
  unfold processMedia, getMimeType.
  apply submissions_bind; [quiet|]. intros mime.
  destruct (readFileSync W _); [|quiet].
  apply submissions_bind; [|intros; quiet].
  destruct (_ && _); [apply processImageBuffer_quiet | reflexivity].
Qed.

Lemma imageLoop_quiet (W : World) (folder : string) (ms : list Media) :
  forall j acc count, submissions (events (imageLoop W folder ms j acc count)) = [].
Proof.
  induction ms as [|m rest IH]; intros j acc count; cbn [imageLoop]; [reflexivity|].
  destruct (MAX_IMAGES_PER_POST <=? j); [reflexivity|].
  apply submissions_bind; [apply processMedia_quiet|]. intros r.
  destruct (mimeType r); [destruct (mediaBuffer r)|]; [destruct (_ || _)| |]; apply IH.
Qed.

Lemma processPost_quiet (W : World) (post : Post) (folder : string) :
  submissions (events (processPost W post folder)) = [].
Proof.
  unfold processPost. destruct (media post) as [|m0 rest]; [reflexivity|].
  apply submissions_bind; [apply processMedia_quiet|]. intros first.
  destruct (isVideo first); [quiet|].
  apply submissions_bind; [apply imageLoop_quiet | reflexivity].
Qed.

Lemma processVideoPost_quiet (W : World) (filePath : option string)
    (buffer : option Buffer) (client : option (Client W)) (simulate : bool) :
  submissions (events (processVideoPost W filePath buffer client simulate)) = [].
Proof. unfold processVideoPost. quiet. Qed.

Lemma processVideoPost_returns (W : World) (filePath : option string)
    (buffer : option Buffer) (client : option (Client W)) (simulate : bool) :
  exists v, outcome (processVideoPost W filePath buffer client simulate) = Return v.
Proof.
  unfold processVideoPost.
  destruct buffer as [buf|]; [|cbn; eauto].
  destruct (prepareVideoUpload W filePath buf); [|cbn; eauto].
  destruct simulate; [cbn; eauto|]. destruct client as [c|]; [|cbn; eauto].
  destruct (uploadVideo W c buf) as [c' [link|e]]; [|cbn; eauto].
  destruct (truthyString link); cbn; eauto.
Qed.

(** A post for which [processPost] resolves no date is skipped by the loop
    body: nothing is submitted and neither counter moves. *)
Lemma importPost_undated (W : World) (cfg : Config) (post : Post) (st : RunState W)
    (pp : ProcessedPost) :
  outcome (processPost W post (ARCHIVE_FOLDER cfg)) = Return pp ->
  postDate pp = None ->
  media post <> [] ->
  exists st',
    outcome (importPost W cfg post st) = Return st' /\
    importedPosts st' = importedPosts st /\
    importedMedia st' = importedMedia st /\
    submissions (events (importPost W cfg post st)) = [].
Proof.
  intros Hpp Hdate Hmedia.
  destruct (media post) as [|m0 rest] eqn:Hm; [contradiction|].
  assert (Hfirst : firstMediaOf post = Return m0)
    by (unfold firstMediaOf; now rewrite Hm).
  unfold importPost.
  rewrite outcome_bind, events_bind, submissions_app, Hpp, processPost_quiet.
  rewrite Hfirst, bind_lift_Return, Hdate.
  rewrite outcome_bind, events_bind. cbn [logger emit outcome events fst snd app].
  destruct (match m_type m0 with Some t => (t =? "Video")%string | None => false end).
  - destruct (processVideoPost_returns W (media_url m0) (m_buffer m0) (bluesky st)
                (SIMULATE cfg)) as [[b' o] Hv].
    pose proof (processVideoPost_quiet W (media_url m0) (m_buffer m0) (bluesky st)
                  (SIMULATE cfg)) as Hq.
    destruct (processVideoPost W (media_url m0) (m_buffer m0) (bluesky st) (SIMULATE cfg))
      as [lv [v|e]]; [|discriminate].
    cbn in Hv. injection Hv as ->. unfold events in Hq. cbn [fst] in Hq.
    rewrite bind_Return, outcome_bind, events_bind.
    destruct o as [videoEmbed|e];
      cbn [outcome events logger emit ret bind fst snd app];
      eexists; (split; [reflexivity|]); (split; [reflexivity|]); (split; [reflexivity|]);
      unfold submissions in *; cbn [filter isCreatePost];
      rewrite !filter_app, Hq; reflexivity.
  - cbn. eexists. repeat split.
Qed.

(* ================================================================== *)
(** * The claims *)

Ltac fin := intros; first [reflexivity | lia | discriminate | eauto].

(** C8. The Image Constraint Enforcer never raises and never returns a
    buffer over the limit: a buffer of at most 976,000 bytes comes back
    unchanged, with no effect; a larger one yields [null] or the outcome of
    [sharp]'s resize of it, of at most 976,000 bytes; unreadable dimensions
    (a failing metadata call, a missing or zero width or height) yield
    [null]; and [sharp] is asked to resize at most once. *)
Theorem image_enforcer_within_limit_or_rejected (W : World) (b : Buffer) (f : string) :
  let r := processImageBuffer W b f in
  (exists res, outcome r = Return res /\
     match res with
     | Some out =>
         Buffer_length out <= API_LIMIT_IMAGE_UPLOAD_SIZE /\
         (API_LIMIT_IMAGE_UPLOAD_SIZE < Buffer_length b ->
          exists w h, sharp_resize W b w h = Return out)
     | None => API_LIMIT_IMAGE_UPLOAD_SIZE < Buffer_length b
     end /\
     (Buffer_length b <= API_LIMIT_IMAGE_UPLOAD_SIZE -> res = Some b /\ events r = []) /\
     (API_LIMIT_IMAGE_UPLOAD_SIZE < Buffer_length b ->
      dimensionsReadable W b = false -> res = None)) /\
  (resizePasses (events r) <= 1)%nat.
Proof.
  cbv zeta. unfold processImageBuffer, dimensionsReadable, sharpMetadata, sharpResize.
  destruct (Buffer_length b <=? API_LIMIT_IMAGE_UPLOAD_SIZE) eqn:Hle.
  - apply Z.leb_le in Hle. split; [|cbn; lia].
    exists (Some b). cbn. repeat split; fin.
  - apply Z.leb_gt in Hle.
    destruct (sharp_metadata W b) as [[[w|] [h|]]|e] eqn:Hm; cbn;
      try (split; [exists None; repeat split; fin | lia]).
    destruct ((w =? 0) || (h =? 0)) eqn:Hz; cbn.
    + split; [|lia].
      exists None. repeat split; fin.
    + apply orb_false_iff in Hz. destruct Hz as [Hw Hh]. rewrite Hw, Hh. cbn [negb andb].
      match goal with
      | |- context [sharp_resize W b ?x ?y] =>
          destruct (sharp_resize W b x y) as [out|e] eqn:Hr; cbn
      end.
      * destruct (sharp_metadata W out) as [m2|e2]; cbn.
        -- destruct (API_LIMIT_IMAGE_UPLOAD_SIZE <? Buffer_length out) eqn:Hout; cbn.
           ++ split; [|lia].
              exists None. repeat split; fin.
           ++ apply Z.ltb_ge in Hout. split; [|lia].
              exists (Some out). repeat split; fin.
        -- split; [|lia].
           exists None. repeat split; fin.
      * split; [|lia].
        exists None. repeat split; fin.
Qed.

(** C6, as the code has it. A caption of at most 100 characters is kept; a
    longer one becomes its first 100 characters followed by the three-character
    marker, 103 characters in all. That text is what [processMedia] stores
    for a media item it does not fail on, and every caption of the embed
    [processPost] builds is such a text of one of the post's media items. *)
Theorem caption_is_first_100_plus_marker (W : World) :
  (forall text, strlen text <= 100 -> truncateCaption text = text) /\
  (forall text,
      100 < strlen text ->
      truncateCaption text = (jsSubstring 0 100 text ++ "...")%string /\
      strlen (jsSubstring 0 100 text) = 100 /\
      strlen (truncateCaption text) = 103) /\
  (forall m folder r,
      outcome (processMedia W m folder) = Return r ->
      r = failedMedia \/ mediaText r = truncateCaption (captionText W m)) /\
  (forall post folder pp c,
      outcome (processPost W post folder) = Return pp ->
      In c (captions (embeddedMedia pp)) ->
      exists m, In m (media post) /\ c = truncateCaption (captionText W m)).
Proof.
  split; [exact truncateCaption_short|].
  split; [exact truncateCaption_long|].
  split.
  - intros m folder r Hr.
    destruct (processMedia_Return_inv W m folder r Hr) as [Hfail | [Htext _]]; auto.
  - intros post folder pp c. apply processPost_captions.
Qed.

(** C6 fails as stated: a title of 101 characters is stored, in the
    processed media and in the embed, as a caption of 103 characters. *)
Lemma caption_of_101_is_stored_as_103 :
  let W := Scenario.world Scenario.photoDisk Scenario.accepted in
  strlen (captionText W Scenario.longCaption) = 101 /\
  (exists r,
      outcome (processMedia W Scenario.longCaption "archive") = Return r /\
      strlen (mediaText r) = 103 /\ ~ strlen (mediaText r) <= 100) /\
  (exists pp i,
      outcome (processPost W Scenario.longCaptionPost "archive") = Return pp /\
      embeddedMedia pp = Images [i] /\
      strlen (i_alt i) = 103 /\ ~ strlen (i_alt i) <= 100).
Proof.
  cbv zeta. split; [vm_compute; reflexivity|]. split.
  - eexists. split; [vm_compute; reflexivity|].
    split; [vm_compute; reflexivity|]. vm_compute. intros H. apply H. reflexivity.
  - eexists. eexists. split; [vm_compute; reflexivity|].
    split; [reflexivity|].
    split; [vm_compute; reflexivity|]. vm_compute. intros H. apply H. reflexivity.
Qed.

(** A caption of exactly 100 characters is kept, one of 101 grows to 103. *)
Lemma caption_is_first_100_plus_marker_witness :
  let W := Scenario.world Scenario.photoDisk Scenario.accepted in
  truncateCaption (captionText W Scenario.fullCaption) = captionText W Scenario.fullCaption /\
  strlen (truncateCaption (captionText W Scenario.longCaption)) = 103.
Proof.
  cbv zeta. split.
  - apply (proj1 (caption_is_first_100_plus_marker
                    (Scenario.world Scenario.photoDisk Scenario.accepted))).
    vm_compute. discriminate.
  - apply (proj1 (proj2 (caption_is_first_100_plus_marker
                           (Scenario.world Scenario.photoDisk Scenario.accepted)))).
    vm_compute. reflexivity.
Defined.

Lemma qualifying_returns (W : World) (folder : string) (m : Media) (i : ImageEmbed) :
  qualifying W folder m = Some i ->
  exists r, outcome (processMedia W m folder) = Return r /\ imageOf r = Some i.
Proof.
  unfold qualifying. destruct (outcome (processMedia W m folder)) as [r|e];
    [eauto | discriminate].
Qed.

Lemma imageOf_not_video (r : MediaProcessResult) (i : ImageEmbed) :
  imageOf r = Some i -> isVideo r = false.
Proof.
  unfold imageOf. destruct (mimeType r); [|discriminate].
  destruct (mediaBuffer r); [|discriminate].
  destruct (isVideo r); [|reflexivity]. rewrite orb_true_r. discriminate.
Qed.

(** ** What [processMedia] returns for a file it keeps *)

Lemma filter_bind {A B : Type} (P : Event -> bool) (m : Eff A) (k : A -> Eff B) :
  List.filter P (events m) = [] ->
  (forall a, List.filter P (events (k a)) = []) ->
  List.filter P (events (bind m k)) = [].
Proof.
  intros Hm Hk. rewrite events_bind, filter_app, Hm.
  destruct (outcome m); [apply Hk | reflexivity].
Qed.

Lemma filter_tryCatch {A : Type} (P : Event -> bool) (m : Eff A) (h : Exn -> Eff A) :
  List.filter P (events m) = [] ->
  (forall e, List.filter P (events (h e)) = []) ->
  List.filter P (events (tryCatch m h)) = [].
Proof.
  intros Hm Hh. destruct m as [l [a|e]]; [exact Hm|].
  specialize (Hh e). unfold tryCatch. destruct (h e) as [l' r].
  unfold events in *. cbn [fst] in *. now rewrite filter_app, Hm, Hh.
Qed.

Ltac silent :=
  repeat first
    [ reflexivity
    | apply filter_bind; [|intros]
    | apply filter_tryCatch; [|intros]
    | match goal with
      | |- context [match ?x with _ => _ end] => destruct x
      end ].

Lemma getMimeType_silent (P : Event -> bool) (fileType : string) :
  (forall l m, P (Log l m) = false) ->
  List.filter P (events (getMimeType fileType)) = [].
Proof.
  intros HP. unfold getMimeType.
  destruct (truthyString _); [reflexivity|]. destruct (truthyString _); [reflexivity|].
  cbn. now rewrite HP.
Qed.

(** A readable file that the image enforcer is not asked about (within the
    ceiling, or of no known type) comes back byte for byte, with the
    truncated caption, and [sharp] is not called. *)
Lemma processMedia_kept (W : World) (m : Media) (folder : string)
    (mime : string) (buf : Buffer) (ms : Z) :
  outcome (getMimeType (fileTypeOf (uri m))) = Return mime ->
  readFileSync W (folder ++ "/" ++ uri m) = Return buf ->
  isImageTooLarge buf && negb (String.eqb mime "") = false ->
  dateOfTimestamp (m_creation_timestamp m) = ValidDate ms ->
  outcome (processMedia W m folder) =
  Return {| mediaText := truncateCaption (captionText W m); mimeType := Some mime;
            mediaBuffer := Some buf; isVideo := isVideoMimeType mime |} /\
  List.filter isSharp (events (processMedia W m folder)) = [].
Proof.
  unfold fileTypeOf. intros Hmime Hread Hsmall Hdate. unfold processMedia. split.
  - rewrite outcome_bind, Hmime, Hread, Hsmall, outcome_bind. cbn [ret outcome snd].
    rewrite Hdate. reflexivity.
  - rewrite events_bind, Hmime, filter_app, getMimeType_silent by reflexivity.
    rewrite Hread, Hsmall. change (ret (Some buf)) with (lift (Return (Some buf))).
    rewrite bind_lift_Return, Hdate. reflexivity.
Qed.

Lemma video_mime_is_known (mime : string) :
  isVideoMimeType mime = true -> truthyString (Some mime) = true /\ mime <> ""%string.
Proof.
  destruct mime; [discriminate|]. intros _. split; [reflexivity | discriminate].
Qed.

Lemma processImageBuffer_Some (W : World) (b out : Buffer) (f : string) :
  outcome (processImageBuffer W b f) = Return (Some out) ->
  Buffer_length out <= API_LIMIT_IMAGE_UPLOAD_SIZE.
Proof.
  unfold processImageBuffer, sharpMetadata, sharpResize.
  destruct (Buffer_length b <=? API_LIMIT_IMAGE_UPLOAD_SIZE) eqn:Hle.
  - cbn. intros H. injection H as <-. now apply Z.leb_le.
  - destruct (sharp_metadata W b) as [[[w|] [h|]]|e]; cbn; try discriminate.
    destruct ((w =? 0) || (h =? 0)); cbn; [discriminate|].
    match goal with
    | |- context [sharp_resize W b ?x ?y] =>
        destruct (sharp_resize W b x y) as [res|e]; cbn; [|discriminate]
    end.
    destruct (sharp_metadata W res); cbn; [|discriminate].
    destruct (API_LIMIT_IMAGE_UPLOAD_SIZE <? Buffer_length res) eqn:Hres; cbn;
      [discriminate|].
    intros H. injection H as <-. now apply Z.ltb_ge.
Qed.

(** The bytes [processMedia] returns under a known MIME type are within
    the image ceiling, whatever the type. *)
Lemma processMedia_size (W : World) (m : Media) (folder : string)
    (r : MediaProcessResult) (mime : string) (buf : Buffer) :
  outcome (processMedia W m folder) = Return r ->
  mimeType r = Some mime -> mime <> ""%string ->
  mediaBuffer r = Some buf ->
  Buffer_length buf <= API_LIMIT_IMAGE_UPLOAD_SIZE.
Proof.
  unfold processMedia. intros H Hmime Hne Hbuf.
  apply bind_Return_inv in H. destruct H as [mime0 [_ H]].
  destruct (readFileSync W _) as [file|e].
  - apply bind_Return_inv in H. destruct H as [[buf'|] [Hresized H]].
    + apply bind_Return_inv in H. destruct H as [created [_ H]].
      apply bind_Return_inv in H. destruct H as [[] [_ H]].
      cbn in H. injection H as <-. cbn in Hmime, Hbuf.
      injection Hmime as ->. injection Hbuf as ->.
      apply String.eqb_neq in Hne. rewrite Hne in Hresized. cbn [negb] in Hresized.
      rewrite andb_true_r in Hresized. unfold isImageTooLarge in Hresized.
      destruct (API_LIMIT_IMAGE_UPLOAD_SIZE <? Buffer_length file) eqn:Hbig.
      * now apply processImageBuffer_Some in Hresized.
      * cbn in Hresized. injection Hresized as <-. now apply Z.ltb_ge.
    + cbn in H. injection H as <-. discriminate.
  - apply bind_Return_inv in H. destruct H as [[] [_ H]].
    cbn in H. injection H as <-. discriminate.
Qed.

Lemma selectImages_sizes (W : World) (folder : string) (ms : list Media)
    (i : ImageEmbed) :
  In i (selectImages W folder ms) ->
  Buffer_length (i_buffer i) <= API_LIMIT_IMAGE_UPLOAD_SIZE.
Proof.
  induction ms as [|m ms IH]; intros Hin; [destruct Hin|].
  cbn [selectImages] in Hin.
  destruct (qualifying W folder m) as [i'|] eqn:Hq; [|now apply IH].
  destruct Hin as [<- | Hin]; [|now apply IH].
  destruct (qualifying_returns W folder m i' Hq) as [r [Hr Hi]].
  unfold imageOf in Hi.
  destruct (mimeType r) as [mime|] eqn:Hmime; [|discriminate].
  destruct (mediaBuffer r) as [buf|] eqn:Hbuf; [|discriminate].
  destruct (negb (truthyString (Some mime)) || isVideo r) eqn:Hskip; [discriminate|].
  injection Hi as <-. cbn [i_buffer].
  apply (processMedia_size W m folder r mime buf Hr Hmime); [|exact Hbuf].
  intros ->. discriminate.
Qed.

(** The video branch of [processPost]. *)
Lemma processPost_video_branch (W : World) (post : Post) (folder : string)
    (m0 : Media) (rest : list Media) (first : MediaProcessResult)
    (mime : string) (buf : Buffer) :
  media post = m0 :: rest ->
  outcome (processMedia W m0 folder) = Return first ->
  isVideo first = true ->
  mimeType first = Some mime -> mediaBuffer first = Some buf ->
  Buffer_length buf <= API_LIMIT_IMAGE_UPLOAD_SIZE ->
  exists pp,
    processPost W post folder = (events (processMedia W m0 folder), Return pp) /\
    embeddedMedia pp =
      Video {| v_alt := mediaText first; v_buffer := buf; v_mimeType := mime |} /\
    mediaCount pp = 1.
Proof.
  intros Hmedia Hfirst Hvideo Hmime Hbuf Hsize.
  assert (Htruthy : truthyString (Some mime) = true).
  { destruct (processMedia_Return_inv W m0 folder first Hfirst)
      as [-> | [_ [mime' [buf' [Hmime' [_ Hv]]]]]]; [discriminate|].
    rewrite Hmime in Hmime'. injection Hmime' as <-.
    rewrite Hvideo in Hv. symmetry in Hv. now apply video_mime_is_known in Hv. }
  unfold processPost. rewrite Hmedia.
  destruct (processMedia W m0 folder) as [l o]. cbn in Hfirst. subst o.
  rewrite bind_Return, Hvideo, Hmime, Hbuf, Htruthy.
  assert (Hvalid : validateVideo buf = true).
  { unfold validateVideo, MAX_VIDEO_SIZE. apply Z.leb_le.
    unfold API_LIMIT_IMAGE_UPLOAD_SIZE in Hsize. lia. }
  rewrite Hvalid. cbn [andb ret events outcome fst snd]. rewrite app_nil_r.
  eexists. split; [reflexivity|]. split; reflexivity.
Qed.

(** With a video first, [processPost] returns the video embed: the
    validator has nothing over the image ceiling to refuse. *)
Lemma processPost_first_video (W : World) (post : Post) (folder : string)
    (m0 : Media) (rest : list Media) (first : MediaProcessResult) (pp : ProcessedPost) :
  media post = m0 :: rest ->
  outcome (processMedia W m0 folder) = Return first ->
  isVideo first = true ->
  outcome (processPost W post folder) = Return pp ->
  exists mime buf,
    embeddedMedia pp =
      Video {| v_alt := mediaText first; v_buffer := buf; v_mimeType := mime |} /\
    mediaCount pp = 1.
Proof.
  intros Hmedia Hfirst Hvideo Hpp.
  destruct (processMedia_Return_inv W m0 folder first Hfirst)
    as [-> | [_ [mime [buf [Hmime [Hbuf Hv]]]]]]; [discriminate|].
  rewrite Hvideo in Hv. symmetry in Hv. apply video_mime_is_known in Hv.
  destruct Hv as [_ Hne].
  pose proof (processMedia_size W m0 folder first mime buf Hfirst Hmime Hne Hbuf) as Hsize.
  destruct (processPost_video_branch W post folder m0 rest first mime buf
              Hmedia Hfirst Hvideo Hmime Hbuf Hsize) as [pp' [Hrun [He Hc]]].
  rewrite Hrun in Hpp. cbn in Hpp. injection Hpp as <-.
  exists mime, buf. split; assumption.
Qed.

(** C7, as the code has it. The cap is on the index, not on the number of
    images kept: the image list is the list of the qualifying items among
    the first four media items, in archive order, and [mediaCount] is its
    length, so a list never has more than 4 entries; a post whose first
    four media items all qualify and which has a fifth gets exactly those
    four, and the cap warning. *)
Theorem image_list_is_taken_from_first_four (W : World) (post : Post) (folder : string) :
  (forall pp l,
      outcome (processPost W post folder) = Return pp ->
      embeddedMedia pp = Images l ->
      l = selectImages W folder (firstn 4 (media post)) /\
      (List.length l <= 4)%nat /\
      mediaCount pp = Z.of_nat (List.length l)) /\
  (forall a b c d e rest ia ib ic id,
      media post = a :: b :: c :: d :: e :: rest ->
      qualifying W folder a = Some ia ->
      qualifying W folder b = Some ib ->
      qualifying W folder c = Some ic ->
      qualifying W folder d = Some id ->
      exists pp,
        outcome (processPost W post folder) = Return pp /\
        embeddedMedia pp = Images [ia; ib; ic; id] /\
        mediaCount pp = 4 /\
        In (Log Warn TooManyImages) (events (processPost W post folder))).
Proof.
  split.
  - intros pp l Hrun Hl. pose proof (processPost_embed W post folder pp Hrun) as Hpp.
    destruct (media post) as [|m0 rest] eqn:Hmedia.
    + destruct Hpp as [He Hc]. rewrite He in Hl. injection Hl as <-.
      rewrite Hc. cbn. split; [reflexivity|]. split; [lia | reflexivity].
    + destruct Hpp as [first [Hfirst Hpp]]. destruct (isVideo first) eqn:Hvideo.
      * destruct (processPost_first_video W post folder m0 rest first pp
                    Hmedia Hfirst Hvideo Hrun) as [mime [buf [He _]]].
        rewrite He in Hl. discriminate.
      * cbv zeta in Hpp. destruct Hpp as [He Hc].
        change (Z.to_nat MAX_IMAGES_PER_POST) with 4%nat in *.
        assert (Hsel : l = selectImages W folder (firstn 4 (m0 :: rest)))
          by congruence.
        rewrite Hsel.
        split; [reflexivity|]. split; [|exact Hc].
        apply Nat.le_trans with (List.length (firstn 4 (m0 :: rest)));
          [apply selectImages_length | apply firstn_le_length].
  - intros a b c d e rest ia ib ic id Hmedia Ha Hb Hc Hd.
    destruct (qualifying_returns W folder a ia Ha) as [ra [Hra Hia]].
    destruct (qualifying_returns W folder b ib Hb) as [rb [Hrb _]].
    destruct (qualifying_returns W folder c ic Hc) as [rc [Hrc _]].
    destruct (qualifying_returns W folder d id Hd) as [rd [Hrd _]].
    assert (Hall : forall m,
               In m (firstn (Z.to_nat MAX_IMAGES_PER_POST) (media post)) ->
               exists r, outcome (processMedia W m folder) = Return r).
    { rewrite Hmedia. cbn. intros m [<- | [<- | [<- | [<- | []]]]]; eauto. }
    destruct (processPost_returns W post folder Hall) as [pp Hpp].
    exists pp. split; [exact Hpp|].
    pose proof (processPost_embed W post folder pp Hpp) as Hembed.
    rewrite Hmedia in Hembed. destruct Hembed as [first [Hfirst Hembed]].
    rewrite Hra in Hfirst. injection Hfirst as <-.
    rewrite (imageOf_not_video ra ia Hia) in Hembed. cbv zeta in Hembed.
    change (Z.to_nat MAX_IMAGES_PER_POST) with 4%nat in Hembed.
    cbn [firstn selectImages] in Hembed. rewrite Ha, Hb, Hc, Hd in Hembed.
    destruct Hembed as [He Hcount]. split; [exact He|]. split; [exact Hcount|].
    unfold processPost. rewrite Hmedia. rewrite events_bind, Hra.
    apply in_or_app. right. rewrite (imageOf_not_video ra ia Hia).
    rewrite events_bind. apply in_or_app. left.
    apply imageLoop_warns; [lia | unfold MAX_IMAGES_PER_POST; lia | | cbn; lia].
    rewrite Z.sub_0_r, <- Hmedia. exact Hall.
Qed.

(** C7 fails as stated: a carousel of a photo, a video and four photos has
    five qualifying items, and its image list has three entries. *)
Lemma five_qualifying_items_three_embedded :
  let W := Scenario.world Scenario.photoDisk Scenario.accepted in
  List.length (selectImages W "archive" (media Scenario.carousel)) = 5%nat /\
  exists pp l,
    outcome (processPost W Scenario.carousel "archive") = Return pp /\
    embeddedMedia pp = Images l /\
    List.length l = 3%nat /\ mediaCount pp = 3.
Proof.
  cbv zeta. split; [vm_compute; reflexivity|].
  eexists. eexists. split; [vm_compute; reflexivity|].
  split; [reflexivity|]. split; reflexivity.
Qed.

(** Five photos: the first four are embedded and the warning is logged. *)
Lemma image_list_is_taken_from_first_four_witness :
  let W := Scenario.world Scenario.photoDisk Scenario.accepted in
  exists pp,
    outcome (processPost W Scenario.fivePhotos "archive") = Return pp /\
    embeddedMedia pp =
      Images [Scenario.jpeg "a"; Scenario.jpeg "b"; Scenario.jpeg "c"; Scenario.jpeg "d"] /\
    mediaCount pp = 4 /\
    In (Log Warn TooManyImages) (events (processPost W Scenario.fivePhotos "archive")).
Proof.
  cbv zeta.
  apply (proj2 (image_list_is_taken_from_first_four
                  (Scenario.world Scenario.photoDisk Scenario.accepted)
                  Scenario.fivePhotos "archive")
           Scenario.photoA Scenario.photoB Scenario.photoC Scenario.photoD
           Scenario.photoE []);
    vm_compute; reflexivity.
Defined.

(** ** The loop body *)

Lemma iteration_undated (W : World) (cfg : Config) (post : Post) (st : RunState W) :
  checkDateOf post = Return None ->
  iteration W cfg post st = ([Log Warn SkipNoDate], Return (Continue, st)).
Proof. intros H. unfold iteration. rewrite H. reflexivity. Qed.

Lemma forEachPost_cons (W : World) (cfg : Config) (post : Post) (rest : list Post)
    (st st' : RunState W) (l : list Event) :
  iteration W cfg post st = (l, Return (Continue, st')) ->
  forEachPost W cfg (post :: rest) st =
  (l ++ events (forEachPost W cfg rest st'), outcome (forEachPost W cfg rest st')).
Proof.
  intros H. cbn [forEachPost]. rewrite H, bind_Return. reflexivity.
Qed.

(** C3, as the code has it. For a post with no truthy timestamp of its own:
    with exactly one media item, dated within the range of time values,
    [processPost] resolves the date to that item's timestamp; with two or
    more media items it resolves no date, whatever their timestamps, and
    the loop body then skips the post (nothing submitted, no counter
    moved); and when the first media item has no truthy timestamp either,
    the loop body skips the post as undated before processing it. *)
Theorem publish_date_falls_back_for_single_media (W : World) (cfg : Config)
    (post : Post) (st : RunState W) :
  truthyNumber (creation_timestamp post) = false ->
  let folder := ARCHIVE_FOLDER cfg in
  (forall m0 t,
      media post = [m0] ->
      m_creation_timestamp m0 = Some t ->
      Z.abs (t * 1000) <= MAX_TIME_VALUE ->
      exists pp,
        outcome (processPost W post folder) = Return pp /\
        postDate pp = Some (ValidDate (t * 1000))) /\
  (forall pp,
      (2 <= List.length (media post))%nat ->
      outcome (processPost W post folder) = Return pp ->
      postDate pp = None /\
      exists st',
        outcome (importPost W cfg post st) = Return st' /\
        importedPosts st' = importedPosts st /\
        importedMedia st' = importedMedia st /\
        submissions (events (importPost W cfg post st)) = []) /\
  (forall m0 rest,
      media post = m0 :: rest ->
      truthyNumber (m_creation_timestamp m0) = false ->
      iteration W cfg post st = ([Log Warn SkipNoDate], Return (Continue, st))).
Proof.
  intros Hown folder. split; [|split].
  - intros m0 t Hmedia Hts Hrange.
    assert (Hdate : dateOfTimestamp (m_creation_timestamp m0) = ValidDate (t * 1000)).
    { rewrite Hts. unfold dateOfTimestamp, timesThousand, newDate. cbn [option_map].
      apply Z.leb_le in Hrange. now rewrite Hrange. }
    destruct (processPost_returns W post folder) as [pp Hpp].
    { rewrite Hmedia. intros m [<- | []].
      now apply (processMedia_returns W m0 folder (t * 1000)). }
    exists pp. split; [exact Hpp|].
    rewrite (processPost_postDate W post folder pp Hpp), Hown, Hmedia, Hdate.
    reflexivity.
  - intros pp Hlen Hpp.
    assert (Hnone : postDate pp = None).
    { rewrite (processPost_postDate W post folder pp Hpp), Hown.
      destruct (media post) as [|a [|b rest]]; cbn in Hlen; [lia | lia | reflexivity]. }
    split; [exact Hnone|].
    apply (importPost_undated W cfg post st pp Hpp Hnone).
    intros Hnil. rewrite Hnil in Hlen. cbn in Hlen. lia.
  - intros m0 rest Hmedia Hts. apply iteration_undated.
    unfold checkDateOf, firstMediaOf. now rewrite Hown, Hmedia, Hts.
Qed.

(** C3 fails as stated: a post with no timestamp of its own and two photos,
    the first dated 1,700,000,000, gets no date, and the run leaves it out
    though its first media item has a timestamp. *)
Lemma undated_with_two_dated_media :
  let W := Scenario.world Scenario.photoDisk Scenario.accepted in
  creation_timestamp Scenario.twoPhotos = None /\
  option_map m_creation_timestamp (List.hd_error (media Scenario.twoPhotos))
    = Some (Some 1700000000) /\
  (exists pp,
      outcome (processPost W Scenario.twoPhotos "archive") = Return pp /\
      postDate pp = None /\
      postDate pp <> Some (dateOfTimestamp (Some 1700000000))) /\
  outcome (main W Scenario.simulate tt [Scenario.twoPhotos]) = Return (0, 0) /\
  In (Log Warn SkipInvalidDate) (events (main W Scenario.simulate tt [Scenario.twoPhotos])).
Proof.
  cbv zeta. split; [reflexivity|]. split; [reflexivity|]. split.
  - eexists. split; [vm_compute; reflexivity|]. split; [reflexivity | discriminate].
  - split; [vm_compute; reflexivity|]. vm_compute. tauto.
Qed.

(** One dated photo gives the post its date; two do not. *)
Lemma publish_date_falls_back_for_single_media_witness :
  let W := Scenario.world Scenario.photoDisk Scenario.accepted in
  (exists pp,
      outcome (processPost W Scenario.onePhoto "archive") = Return pp /\
      postDate pp = Some (ValidDate (1700000000 * 1000))) /\
  (forall pp,
      outcome (processPost W Scenario.twoPhotos "archive") = Return pp ->
      postDate pp = None).
Proof.
  cbv zeta. split.
  - apply (proj1 (publish_date_falls_back_for_single_media
                    (Scenario.world Scenario.photoDisk Scenario.accepted)
                    Scenario.simulate Scenario.onePhoto (Scenario.fresh _) eq_refl)
             Scenario.photoA 1700000000 eq_refl eq_refl).
    vm_compute. discriminate.
  - intros pp Hpp.
    apply (proj1 (proj2 (publish_date_falls_back_for_single_media
                           (Scenario.world Scenario.photoDisk Scenario.accepted)
                           Scenario.simulate Scenario.twoPhotos (Scenario.fresh _) eq_refl))
             pp); [cbn; lia | exact Hpp].
Defined.

(** ** The date bounds *)

Lemma bind_ext {A B : Type} (m : Eff A) (k1 k2 : A -> Eff B) :
  (forall a, k1 a = k2 a) -> bind m k1 = bind m k2.
Proof.
  intros H. destruct m as [l [a|e]]; [|reflexivity]. unfold bind. now rewrite H.
Qed.

(** A post that is not before [MIN_DATE] and is after [MAX_DATE] ends the
    loop in the state it was entered with. *)
Lemma forEachPost_break (W : World) (cfg : Config) (post : Post) (d : Date)
    (rest : list Post) (st : RunState W) :
  checkDateOf post = Return (Some d) ->
  beforeMinDate cfg d = false ->
  afterMaxDate cfg d = true ->
  forEachPost W cfg (post :: rest) st = ([Log Warn (SkipAfterMaxDate d)], Return st).
Proof.
  intros Hcheck Hmin Hmax. cbn [forEachPost]. unfold iteration.
  rewrite Hcheck, bind_lift_Return, Hmin, Hmax. reflexivity.
Qed.

(** The loop does not depend on what follows such a post. *)
Lemma forEachPost_stops (W : World) (cfg : Config) (post : Post) (d : Date)
    (before rest rest' : list Post) :
  checkDateOf post = Return (Some d) ->
  beforeMinDate cfg d = false ->
  afterMaxDate cfg d = true ->
  forall st,
    forEachPost W cfg (before ++ post :: rest) st =
    forEachPost W cfg (before ++ post :: rest') st.
Proof.
  intros Hcheck Hmin Hmax.
  induction before as [|p before IH]; intros st.
  - cbn [app]. now rewrite !(forEachPost_break W cfg post d) by assumption.
  - cbn [app forEachPost]. apply bind_ext. intros [ctl st'].
    destruct ctl; cbn [fst snd]; [apply IH | reflexivity].
Qed.

(** With [MIN_DATE] unset, or not after [MAX_DATE], a date after [MAX_DATE]
    is not before [MIN_DATE]. *)
Lemma after_max_is_not_before_min (cfg : Config) (d mx : Date) :
  MAX_DATE cfg = Some mx ->
  Date_gtb d mx = true ->
  (forall mn, MIN_DATE cfg = Some mn -> Date_gtb mn mx = false) ->
  beforeMinDate cfg d = false.
Proof.
  intros _ Hgt Hbounds. unfold beforeMinDate.
  destruct (MIN_DATE cfg) as [mn|]; [|reflexivity].
  specialize (Hbounds mn eq_refl). unfold Date_gtb, Date_ltb in *.
  destruct d as [t|], mx as [x|], mn as [n|]; try reflexivity; try discriminate.
  apply Z.ltb_lt in Hgt. apply Z.ltb_ge in Hbounds. apply Z.ltb_ge. lia.
Qed.

(** C9. The loop body tests [MIN_DATE], then [MAX_DATE], as the
    specification lists them. A post whose check-date is after a set
    [MAX_DATE] (and not before [MIN_DATE], which cannot be when [MIN_DATE]
    is unset or not after [MAX_DATE]) ends the loop: the run logs the one
    warning and goes on in the state it was in, whatever the posts that
    follow in sorted order, so that two archives (of posts whose first
    media items are dated, where the sort has one possible result) whose
    sorted sequences agree up to that post give the same run. A post whose check-date is
    before a set [MIN_DATE] is skipped and the loop goes on with the next
    post, from the same state. *)
Theorem max_date_ends_the_loop (W : World) (cfg : Config) (post : Post) (d : Date) :
  checkDateOf post = Return (Some d) ->
  (forall mx,
      MAX_DATE cfg = Some mx ->
      Date_gtb d mx = true ->
      ((forall mn, MIN_DATE cfg = Some mn -> Date_gtb mn mx = false) ->
       beforeMinDate cfg d = false) /\
      (beforeMinDate cfg d = false ->
       (forall rest st,
           forEachPost W cfg (post :: rest) st =
           ([Log Warn (SkipAfterMaxDate d)], Return st)) /\
       (forall client instaPosts instaPosts' before rest rest',
           (forall p, In p instaPosts -> exists t, firstMediaTime p = Some t) ->
           (forall p, In p instaPosts' -> exists t, firstMediaTime p = Some t) ->
           sortPosts instaPosts = Return (before ++ post :: rest) ->
           sortPosts instaPosts' = Return (before ++ post :: rest') ->
           main W cfg client instaPosts = main W cfg client instaPosts'))) /\
  (beforeMinDate cfg d = true ->
   forall rest st,
     forEachPost W cfg (post :: rest) st =
     (Log Warn (SkipBeforeMinDate d) :: events (forEachPost W cfg rest st),
      outcome (forEachPost W cfg rest st))).
Proof.
  intros Hcheck. split.
  - intros mx Hmax Hgt.
    assert (Hafter : afterMaxDate cfg d = true)
      by (unfold afterMaxDate; now rewrite Hmax).
    split; [now apply after_max_is_not_before_min|].
    intros Hmin. split.
    + intros rest st. now apply (forEachPost_break W cfg post d).
    + intros client instaPosts instaPosts' before rest rest' _ _ Hsort Hsort'.
      unfold main. apply bind_ext. intros b. cbv zeta. f_equal.
      destruct instaPosts as [|p ps];
        [cbn in Hsort; injection Hsort as Hnil; now apply app_cons_not_nil in Hnil|].
      destruct instaPosts' as [|p' ps'];
        [cbn in Hsort'; injection Hsort' as Hnil; now apply app_cons_not_nil in Hnil|].
      rewrite Hsort, Hsort', !bind_lift_Return.
      now apply (forEachPost_stops W cfg post d).
  - intros Hmin rest st.
    apply (forEachPost_cons W cfg post rest st st [Log Warn (SkipBeforeMinDate d)]).
    unfold iteration. rewrite Hcheck, bind_lift_Return, Hmin. reflexivity.
Qed.

(** With [MAX_DATE] at 1000 s, the post dated 2000 s, sorted first by its
    photo, ends the run before the post sorted after it, whose own date is
    within the bound: the run is the run of the first post alone. With
    [MIN_DATE] at 3000 s, the post dated 2000 s is skipped and the next one
    is imported. *)
Lemma max_date_ends_the_loop_witness :
  let W := Scenario.world Scenario.photoDisk Scenario.accepted in
  sortPosts [Scenario.straggler; Scenario.overdue] =
    Return [Scenario.overdue; Scenario.straggler] /\
  checkDateOf Scenario.straggler = Return (Some (ValidDate 500000)) /\
  afterMaxDate Scenario.until1000 (ValidDate 500000) = false /\
  main W Scenario.until1000 tt [Scenario.straggler; Scenario.overdue] =
    main W Scenario.until1000 tt [Scenario.overdue] /\
  main W Scenario.until1000 tt [Scenario.overdue] =
    ([Log Warn SimulateEnabled; Log Warn (SkipAfterMaxDate (ValidDate 2000000));
      Log Info (ImportFinished 0 0)], Return (0, 0)) /\
  outcome (forEachPost W Scenario.from3000 [Scenario.between; Scenario.photoPost]
             (Scenario.fresh W)) =
  Return {| importedPosts := 1; importedMedia := 1; bluesky := None |}.
Proof.
  cbv zeta.
  split; [vm_compute; reflexivity|]. split; [vm_compute; reflexivity|].
  split; [vm_compute; reflexivity|]. split; [|split].
  - apply (proj2 (proj2 (proj1 (max_date_ends_the_loop
                                  (Scenario.world Scenario.photoDisk Scenario.accepted)
                                  Scenario.until1000 Scenario.overdue
                                  (ValidDate 2000000) eq_refl)
                           (ValidDate 1000000) eq_refl eq_refl) eq_refl)
             tt [Scenario.straggler; Scenario.overdue] [Scenario.overdue]
             [] [Scenario.straggler] []);
      [ intros p [<- | [<- | []]]; eexists; reflexivity
      | intros p [<- | []]; eexists; reflexivity
      | vm_compute; reflexivity
      | vm_compute; reflexivity ].
  - vm_compute. reflexivity.
  - rewrite (proj2 (max_date_ends_the_loop
                      (Scenario.world Scenario.photoDisk Scenario.accepted)
                      Scenario.from3000 Scenario.between (ValidDate 2000000) eq_refl)
               eq_refl [Scenario.photoPost] (Scenario.fresh _)).
    vm_compute. reflexivity.
Defined.

(** ** Timestamps of 0 *)

(** C10, as the code has it. A post timestamp of 0 is read as a missing
    one: [processPost] and the check-date computation do for such a post
    exactly what they do for the same post without the field. The date
    [processPost] resolves is then the fallback and nothing else: that of
    the media item when the post has exactly one, none otherwise. The
    check-date is that of the first media item, a timestamp of 0 there
    being read as missing too: the post then has no check-date and the loop
    body skips it as undated, in the state it was in. *)
Theorem zero_timestamp_is_read_as_absent (W : World) (cfg : Config) (post : Post)
    (st : RunState W) (folder : string) :
  creation_timestamp post = Some 0 ->
  let absent := {| creation_timestamp := None; title := title post; media := media post |} in
  processPost W post folder = processPost W absent folder /\
  (forall pp,
      outcome (processPost W post folder) = Return pp ->
      postDate pp =
      match media post with
      | [m0] => Some (dateOfTimestamp (m_creation_timestamp m0))
      | _ => None
      end) /\
  (media post = [] ->
   exists pp, processPost W post folder = ([], Return pp) /\ postDate pp = None) /\
  (forall m0 t,
      media post = [m0] ->
      m_creation_timestamp m0 = Some t ->
      Z.abs (t * 1000) <= MAX_TIME_VALUE ->
      exists pp,
        outcome (processPost W post folder) = Return pp /\
        postDate pp = Some (ValidDate (t * 1000))) /\
  checkDateOf post = checkDateOf absent /\
  (forall m0 rest,
      media post = m0 :: rest ->
      checkDateOf post =
      Return (if truthyNumber (m_creation_timestamp m0)
              then Some (dateOfTimestamp (m_creation_timestamp m0))
              else None)) /\
  (forall m0 rest,
      media post = m0 :: rest ->
      m_creation_timestamp m0 = Some 0 ->
      checkDateOf post = Return None /\
      iteration W cfg post st = ([Log Warn SkipNoDate], Return (Continue, st))).
Proof.
  intros Hzero absent.
  assert (Hown : truthyNumber (creation_timestamp post) = false)
    by (rewrite Hzero; reflexivity).
  split; [|split; [|split; [|split; [|split; [|split]]]]].
  - unfold processPost, absent. rewrite Hzero. reflexivity.
  - intros pp Hpp.
    rewrite (processPost_postDate W post folder pp Hpp), Hown. reflexivity.
  - intros Hmedia. unfold processPost. rewrite Hmedia, Hzero. cbn.
    eexists. split; reflexivity.
  - intros m0 t Hmedia Hts Hrange.
    assert (Hdate : dateOfTimestamp (m_creation_timestamp m0) = ValidDate (t * 1000)).
    { rewrite Hts. unfold dateOfTimestamp, timesThousand, newDate. cbn [option_map].
      apply Z.leb_le in Hrange. now rewrite Hrange. }
    destruct (processPost_returns W post folder) as [pp Hpp].
    { rewrite Hmedia. intros m [<- | []].
      now apply (processMedia_returns W m0 folder (t * 1000)). }
    exists pp. split; [exact Hpp|].
    rewrite (processPost_postDate W post folder pp Hpp), Hown, Hmedia, Hdate.
    reflexivity.
  - unfold checkDateOf, firstMediaOf, absent. rewrite Hzero. reflexivity.
  - intros m0 rest Hmedia. unfold checkDateOf, firstMediaOf.
    rewrite Hown, Hmedia. destruct (truthyNumber (m_creation_timestamp m0)); reflexivity.
  - intros m0 rest Hmedia Hts.
    assert (Hcheck : checkDateOf post = Return None).
    { unfold checkDateOf, firstMediaOf. rewrite Hzero, Hmedia, Hts. reflexivity. }
    split; [exact Hcheck | now apply iteration_undated].
Qed.

(** C10 fails as stated: a timestamp of 0 is not read as a missing one
    throughout. [processPost]'s fallback takes the media item's timestamp
    without a test: called on the post whose own and media timestamps are
    both 0 it dates the post at the epoch, where the same post with the
    media timestamp missing raises [RangeError]; and the sort of [main]
    places that post by the time value 0, where a missing media timestamp
    gives no number. *)
Lemma zero_media_timestamp_is_read_as_epoch :
  let W := Scenario.world Scenario.photoDisk Scenario.accepted in
  (exists pp,
      outcome (processPost W Scenario.epochPost "archive") = Return pp /\
      postDate pp = Some (ValidDate 0)) /\
  outcome (processPost W Scenario.epochPostUndatedPhoto "archive") = Throw RangeError /\
  sortKey Scenario.epochPost = Return (Some 0) /\
  sortKey Scenario.epochPostUndatedPhoto = Return None.
Proof.
  cbv zeta. split.
  - eexists. split; [vm_compute; reflexivity | reflexivity].
  - split; [vm_compute; reflexivity|]. split; vm_compute; reflexivity.
Qed.

(** The post dated 0 with a photo dated 0 is skipped as undated. *)
Lemma zero_timestamp_is_read_as_absent_witness :
  let W := Scenario.world Scenario.photoDisk Scenario.accepted in
  checkDateOf Scenario.epochPost = Return None /\
  iteration W Scenario.simulate Scenario.epochPost (Scenario.fresh W) =
  ([Log Warn SkipNoDate], Return (Continue, Scenario.fresh W)).
Proof.
  cbv zeta.
  apply (proj2 (proj2 (proj2 (proj2 (proj2 (proj2
           (zero_timestamp_is_read_as_absent
              (Scenario.world Scenario.photoDisk Scenario.accepted)
              Scenario.simulate Scenario.epochPost (Scenario.fresh _)
              "archive" eq_refl))))))
           (Scenario.file "a.jpg" 0 "a") [] eq_refl eq_refl).
Defined.

(** ** Where the code departs from the specification *)

(** An over-ceiling buffer whose dimensions [sharp] cannot read is rejected. *)
Lemma processImageBuffer_rejects (W : World) (b : Buffer) (f : string) :
  API_LIMIT_IMAGE_UPLOAD_SIZE < Buffer_length b ->
  dimensionsReadable W b = false ->
  outcome (processImageBuffer W b f) = Return None.
Proof.
  intros Hbig Hdims. unfold processImageBuffer, sharpMetadata, dimensionsReadable in *.
  apply Z.leb_gt in Hbig. rewrite Hbig.
  destruct (sharp_metadata W b) as [[[w|] [h|]]|e]; try reflexivity.
  cbn in Hdims. cbn.
  destruct (w =? 0), (h =? 0); cbn in Hdims; try discriminate; reflexivity.
Qed.

(** Any file over the image ceiling with a known MIME type, a video's
    included, is failed by [processMedia] when [sharp] reads no dimensions
    from it: the record it returns is no video. *)
Lemma processMedia_over_ceiling (W : World) (m : Media) (folder : string)
    (buf : Buffer) (mime : string) :
  outcome (getMimeType (jsSubstringFrom (lastIndexOf "." (uri m) + 1) (uri m)))
    = Return mime ->
  mime <> ""%string ->
  readFileSync W (folder ++ "/" ++ uri m) = Return buf ->
  API_LIMIT_IMAGE_UPLOAD_SIZE < Buffer_length buf ->
  dimensionsReadable W buf = false ->
  outcome (processMedia W m folder) = Return failedMedia.
Proof.
  intros Hmime Hne Hread Hbig Hdims. unfold processMedia.
  rewrite outcome_bind, Hmime, Hread, outcome_bind.
  unfold isImageTooLarge. apply Z.ltb_lt in Hbig. rewrite Hbig.
  apply String.eqb_neq in Hne. rewrite Hne. cbn [andb negb].
  rewrite processImageBuffer_rejects; [reflexivity | now apply Z.ltb_lt | exact Hdims].
Qed.

(** A file that cannot be read is failed by [processMedia], whatever its
    extension. *)
Lemma processMedia_unreadable (W : World) (m : Media) (folder : string) (e : Exn) :
  readFileSync W (folder ++ "/" ++ uri m) = Throw e ->
  outcome (processMedia W m folder) = Return failedMedia.
Proof.
  intros Hread. unfold processMedia.
  destruct (getMimeType_returns (jsSubstringFrom (lastIndexOf "." (uri m) + 1) (uri m)))
    as [mime Hmime].
  rewrite outcome_bind, Hmime, Hread. reflexivity.
Qed.

(** When the first media item comes back failed, [processPost] runs the
    image loop over the post's media. *)
Lemma processPost_after_failed_first (W : World) (post : Post) (folder : string)
    (m0 : Media) (rest : list Media) (pp : ProcessedPost) :
  media post = m0 :: rest ->
  outcome (processMedia W m0 folder) = Return failedMedia ->
  outcome (processPost W post folder) = Return pp ->
  embeddedMedia pp = Images (selectImages W folder (firstn 3 rest)).
Proof.
  intros Hmedia Hfirst Hpp. apply processPost_embed in Hpp.
  rewrite Hmedia in Hpp. destruct Hpp as [first [Hfirst' Hpp]].
  rewrite Hfirst in Hfirst'. injection Hfirst' as <-.
  cbn [isVideo failedMedia] in Hpp. cbv zeta in Hpp. destruct Hpp as [He _].
  rewrite He. change (Z.to_nat MAX_IMAGES_PER_POST) with 4%nat.
  cbn [firstn selectImages]. unfold qualifying at 1. rewrite Hfirst.
  reflexivity.
Qed.

(** ** A post without media in [main] *)

Lemma comparesAfter_media_less (a b : Post) :
  media a = [] \/ media b = [] -> comparesAfter a b = Throw TypeError.
Proof.
  unfold comparesAfter, sortKey, firstMediaOf.
  intros [H | H]; rewrite H; [reflexivity|].
  destruct (media a); reflexivity.
Qed.

Lemma comparesAfter_Throw (a b : Post) (e : Exn) :
  comparesAfter a b = Throw e -> e = TypeError.
Proof.
  unfold comparesAfter, sortKey, firstMediaOf.
  destruct (media a); [intros H; now injection H|].
  destruct (media b); [intros H; now injection H | discriminate].
Qed.

Lemma insertPost_Throw (x : Post) (l : list Post) (e : Exn) :
  insertPost x l = Throw e -> e = TypeError.
Proof.
  induction l as [|y l IH]; cbn [insertPost]; [discriminate|].
  destruct (comparesAfter x y) as [[|]|e'] eqn:Hcmp.
  - destruct (insertPost x l); [discriminate|].
    intros H. injection H as <-. now apply IH.
  - discriminate.
  - intros H. injection H as <-. now apply comparesAfter_Throw in Hcmp.
Qed.

Lemma sortPosts_Throw (l : list Post) (e : Exn) :
  sortPosts l = Throw e -> e = TypeError.
Proof.
  induction l as [|x l IH]; cbn [sortPosts]; [discriminate|].
  destruct (sortPosts l) as [s|e'].
  - apply insertPost_Throw.
  - intros H. injection H as <-. now apply IH.
Qed.

Lemma insertPost_Return (x : Post) (l r : list Post) :
  insertPost x l = Return r -> r <> [].
Proof.
  destruct l as [|y l]; cbn [insertPost].
  - intros H. injection H as <-. discriminate.
  - destruct (comparesAfter x y) as [[|]|e]; [|intros H; injection H as <- |]; try discriminate.
    destruct (insertPost x l); [|discriminate]. intros H. injection H as <-. discriminate.
Qed.

(** The sort of two or more posts, one of which has no media, raises
    [TypeError]: the comparator dereferences [media[0]] of every post. *)
Lemma sortPosts_media_less (l : list Post) :
  (2 <= List.length l)%nat ->
  (exists p, In p l /\ media p = []) ->
  sortPosts l = Throw TypeError.
Proof.
  induction l as [|x l IH]; intros Hlen [p [Hin Hp]]; [destruct Hin|].
  cbn [sortPosts].
  destruct (sortPosts l) as [s|e] eqn:Hsort.
  - destruct l as [|y l]; [cbn in Hlen; lia|].
    destruct s as [|z s].
    { cbn [sortPosts] in Hsort. destruct (sortPosts l); [|discriminate].
      now apply insertPost_Return in Hsort. }
    destruct Hin as [<- | Hin].
    + cbn [insertPost]. rewrite comparesAfter_media_less; auto.
    + destruct l as [|y' l].
      * destruct Hin as [<- | []]. cbn in Hsort. injection Hsort as <- <-.
        cbn [insertPost]. rewrite comparesAfter_media_less; auto.
      * assert (H : Return (z :: s) = @Throw (list Post) TypeError)
          by (apply IH; [cbn; lia | eauto]).
        discriminate H.
  - f_equal. now apply sortPosts_Throw in Hsort.
Qed.

(** [main] on an archive of two or more posts, one of which has no media:
    the run ends in the sort, before any post is looked at. *)
Lemma main_media_less_among_others (W : World) (posts : list Post) :
  (2 <= List.length posts)%nat ->
  (exists p, In p posts /\ media p = []) ->
  forall (cfg : Config) (client : Client W),
    SIMULATE cfg = true ->
    main W cfg client posts = ([Log Warn SimulateEnabled], Throw TypeError).
Proof.
  intros Hlen Hbad cfg client Hsim. unfold main. rewrite Hsim.
  rewrite (sortPosts_media_less posts Hlen Hbad).
  destruct posts; [cbn in Hlen; lia | reflexivity].
Qed.

(** [main]'s loop body on a dated post with no media, within the date
    bounds: [processPost] returns its empty embed, and the debug line that
    follows raises [TypeError]. *)
Lemma importPost_media_less (W : World) (cfg : Config) (post : Post) (st : RunState W) :
  media post = [] ->
  outcome (importPost W cfg post st) = Throw TypeError.
Proof.
  intros Hmedia. unfold importPost, processPost, firstMediaOf. rewrite Hmedia.
  reflexivity.
Qed.

(** ** A failed submission *)

(** In live mode, a submission that raises leaves the post counter as it
    was and still adds the post's media count. *)
Lemma submitPost_refused (W : World) (cfg : Config) (st : RunState W)
    (c c' : Client W) (ms : Z) (text : string) (embed : PostEmbed) (count : Z)
    (e : Exn) :
  SIMULATE cfg = false ->
  bluesky st = Some c ->
  createPost W c (ValidDate ms) (Some text) embed = (c', Throw e) ->
  exists st',
    outcome (submitPost W cfg st (ValidDate ms) (Some text) embed count) = Return st' /\
    importedPosts st' = importedPosts st /\
    importedMedia st' = importedMedia st + count.
Proof.
  intros Hlive Hclient Hrefused. unfold submitPost.
  rewrite Hlive, Hclient, Hrefused. cbn. eexists. split; [reflexivity|]. split; reflexivity.
Qed.

(** ** The code at the failing inputs *)

(** C1: the code at the failing input. A video of 976,001 bytes passes the
    video validator, but [processMedia] sends every over-ceiling file with a
    known MIME type through the image enforcer; [sharp] finds no image in
    it, the item is marked failed and no longer a video, and the post comes
    out with an empty image list and a media count of 0. The same post with
    a ten-byte file gets its video embed. *)
Theorem video_over_image_ceiling_is_dropped :
  let W := Scenario.world Scenario.clipDisk Scenario.accepted in
  readFileSync W "archive/clip.mp4" = Return (Buffer_alloc 976001) /\
  Buffer_length (Buffer_alloc 976001) = 976001 /\
  validateVideo (Buffer_alloc 976001) = true /\
  outcome (processPost W Scenario.clipPost "archive") =
  Return {| postDate := Some (ValidDate 1700000000000); postText := Some "clip"%string;
            embeddedMedia := Images []; mediaCount := 0 |} /\
  outcome (processPost (Scenario.world Scenario.photoDisk Scenario.accepted)
             Scenario.clipPost "archive") =
  Return {| postDate := Some (ValidDate 1700000000000); postText := Some "clip"%string;
            embeddedMedia :=
              Video {| v_alt := "clip"; v_buffer := Buffer_alloc 10;
                       v_mimeType := "video/mp4" |};
            mediaCount := 1 |}.
Proof.
  cbv zeta. split; [reflexivity|].
  split; [vm_compute; reflexivity|]. split; [vm_compute; reflexivity|].
  split; vm_compute; reflexivity.
Qed.

(** C2: the code at the failing input. The first media item is a video
    whose file cannot be read; [processMedia] reports the failure with
    [isVideo: false], so [processPost] takes the image path and embeds the
    photo that follows. *)
Theorem unreadable_video_falls_back_to_images :
  let W := Scenario.world [Scenario.photo "a.jpg"] Scenario.accepted in
  outcome (getMimeType "mp4") = Return "video/mp4"%string /\
  outcome (processMedia W Scenario.clip "archive") = Return failedMedia /\
  outcome (processPost W Scenario.lostClipPost "archive") =
  Return {| postDate := Some (ValidDate 1700000000000);
            postText := Some "clip and photo"%string;
            embeddedMedia := Images [Scenario.jpeg "a"]; mediaCount := 1 |}.
Proof.
  cbv zeta. split; [vm_compute; reflexivity|]. split; vm_compute; reflexivity.
Qed.

(** C4: the code at the failing input. [processPost] handles a post with no
    media, but [main] dereferences [post.media[0]]: in the sort comparator
    as soon as the archive has two posts, and in the debug line after
    [processPost] otherwise. The [TypeError] is caught nowhere: the run
    ends there, with no post imported and no final count. *)
Theorem media_less_post_aborts_the_run :
  let W := Scenario.world Scenario.photoDisk Scenario.accepted in
  outcome (processPost W Scenario.textPost "archive") =
  Return {| postDate := Some (ValidDate 1700000000000);
            postText := Some "just text"%string;
            embeddedMedia := Images []; mediaCount := 0 |} /\
  main W Scenario.simulate tt [Scenario.textPost] =
  ([Log Warn SimulateEnabled], Throw TypeError) /\
  main W Scenario.simulate tt [Scenario.photoPost; Scenario.textPost] =
  ([Log Warn SimulateEnabled], Throw TypeError) /\
  main W Scenario.live tt [Scenario.photoPost; Scenario.textPost] =
  ([Log Info SimulateDisabled; Login], Throw TypeError).
Proof.
  cbv zeta. split; [vm_compute; reflexivity|]. split; [vm_compute; reflexivity|].
  split; vm_compute; reflexivity.
Qed.

(** C5: the code at the failing input. In live mode a submission that
    raises leaves the post counter alone, but the media count is added
    after the [try] block, on every path: the run of one post with one
    photo ends with 0 posts and 1 media item imported. A submission that
    returns no URL fares the same. *)
Theorem failed_submission_still_counts_media :
  outcome (main (Scenario.world Scenario.photoDisk Scenario.refused) Scenario.live tt
             [Scenario.photoPost]) = Return (0, 1) /\
  In (Log Error FailedToCreatePost)
     (events (main (Scenario.world Scenario.photoDisk Scenario.refused) Scenario.live tt
                [Scenario.photoPost])) /\
  outcome (main (Scenario.world Scenario.photoDisk (Return None)) Scenario.live tt
             [Scenario.photoPost]) = Return (0, 1) /\
  outcome (main (Scenario.world Scenario.photoDisk Scenario.accepted) Scenario.live tt
             [Scenario.photoPost]) = Return (1, 1).
Proof.
  split; [vm_compute; reflexivity|]. split; [vm_compute; tauto|].
  split; vm_compute; reflexivity.
Qed.

(* ================================================================== *)
(** * Further properties of the code *)

(** X1. every buffer of an embed is within the image ceiling. *)
Theorem embedded_buffers_within_image_ceiling (W : World) (post : Post)
    (folder : string) (pp : ProcessedPost) (n : Z) :
  outcome (processPost W post folder) = Return pp ->
  In n (embeddedSizes (embeddedMedia pp)) ->
  n <= API_LIMIT_IMAGE_UPLOAD_SIZE.
Proof.
  intros Hpp Hn. apply processPost_embed in Hpp.
  destruct (media post) as [|m0 rest] eqn:Hmedia.
  - destruct Hpp as [He _]. rewrite He in Hn. destruct Hn.
  - destruct Hpp as [first [Hfirst Hpp]]. destruct (isVideo first) eqn:Hvideo.
    + destruct Hpp as [[He _] | [mime [buf [Hmime [Hbuf [_ [He _]]]]]]]; rewrite He in Hn.
      * destruct Hn.
      * destruct Hn as [<- | []]. cbn.
        apply (processMedia_size W m0 folder first mime buf Hfirst Hmime); [|exact Hbuf].
        destruct (processMedia_Return_inv W m0 folder first Hfirst)
          as [-> | [_ [mime' [buf' [Hmime' [_ Hv]]]]]]; [discriminate|].
        rewrite Hmime in Hmime'. injection Hmime' as <-. rewrite Hvideo in Hv.
        symmetry in Hv. now apply video_mime_is_known in Hv.
    + cbv zeta in Hpp. destruct Hpp as [He _]. rewrite He in Hn.
      cbn [embeddedSizes] in Hn.
      apply in_map_iff in Hn. destruct Hn as [i [<- Hin]].
      now apply selectImages_sizes in Hin.
Qed.

(** X2. [mediaCount] is the number of embedded items, between 0 and 4. *)
Theorem mediaCount_is_number_embedded (W : World) (post : Post) (folder : string)
    (pp : ProcessedPost) :
  outcome (processPost W post folder) = Return pp ->
  mediaCount pp = Z.of_nat (List.length (embeddedSizes (embeddedMedia pp))) /\
  0 <= mediaCount pp <= MAX_IMAGES_PER_POST.
Proof.
  intros Hpp. apply processPost_embed in Hpp. unfold MAX_IMAGES_PER_POST.
  destruct (media post) as [|m0 rest].
  - destruct Hpp as [-> ->]. cbn. split; [reflexivity | lia].
  - destruct Hpp as [first [_ Hpp]]. destruct (isVideo first).
    + destruct Hpp as [[-> ->] | [mime [buf [_ [_ [_ [-> ->]]]]]]]; cbn;
        (split; [reflexivity | lia]).
    + cbv zeta in Hpp. destruct Hpp as [-> ->]. cbn [embeddedSizes].
      rewrite length_map. split; [reflexivity|].
      pose proof (selectImages_length W folder
                    (firstn (Z.to_nat MAX_IMAGES_PER_POST) (m0 :: rest))) as Hsel.
      pose proof (firstn_le_length (Z.to_nat MAX_IMAGES_PER_POST) (m0 :: rest)) as Hfour.
      unfold MAX_IMAGES_PER_POST in *. lia.
Qed.

(** X3. when [processMedia] reports the first media item as a video,
    [processPost] does nothing beyond processing that item (no other file
    of the post is read), and the post gets the video embed with a media
    count of 1: the bytes are within the image ceiling, so the video
    validator never refuses them. *)
Theorem video_first_post_is_that_video (W : World) (post : Post) (folder : string)
    (m0 : Media) (rest : list Media) (first : MediaProcessResult) :
  media post = m0 :: rest ->
  outcome (processMedia W m0 folder) = Return first ->
  isVideo first = true ->
  exists mime buf pp,
    mimeType first = Some mime /\ mediaBuffer first = Some buf /\
    Buffer_length buf <= API_LIMIT_IMAGE_UPLOAD_SIZE /\
    processPost W post folder = (events (processMedia W m0 folder), Return pp) /\
    embeddedMedia pp =
      Video {| v_alt := mediaText first; v_buffer := buf; v_mimeType := mime |} /\
    mediaCount pp = 1.
Proof.
  intros Hmedia Hfirst Hvideo.
  destruct (processMedia_Return_inv W m0 folder first Hfirst)
    as [-> | [_ [mime [buf [Hmime [Hbuf Hv]]]]]]; [discriminate|].
  rewrite Hvideo in Hv. symmetry in Hv. apply video_mime_is_known in Hv.
  destruct Hv as [_ Hne].
  pose proof (processMedia_size W m0 folder first mime buf Hfirst Hmime Hne Hbuf) as Hsize.
  destruct (processPost_video_branch W post folder m0 rest first mime buf
              Hmedia Hfirst Hvideo Hmime Hbuf Hsize) as [pp [Hpp [He Hc]]].
  exists mime, buf, pp. auto 7.
Qed.

(** X4. a readable video file within the image ceiling, with a valid
    timestamp, is embedded byte for byte under its MIME type, with the
    truncated caption. *)
Theorem small_video_is_embedded (W : World) (post : Post) (folder : string)
    (m0 : Media) (rest : list Media) (mime : string) (buf : Buffer) (ms : Z) :
  media post = m0 :: rest ->
  outcome (getMimeType (fileTypeOf (uri m0))) = Return mime ->
  isVideoMimeType mime = true ->
  readFileSync W (folder ++ "/" ++ uri m0) = Return buf ->
  Buffer_length buf <= API_LIMIT_IMAGE_UPLOAD_SIZE ->
  dateOfTimestamp (m_creation_timestamp m0) = ValidDate ms ->
  exists pp,
    outcome (processPost W post folder) = Return pp /\
    embeddedMedia pp =
      Video {| v_alt := truncateCaption (captionText W m0); v_buffer := buf;
               v_mimeType := mime |} /\
    mediaCount pp = 1.
Proof.
  intros Hmedia Hmime Hvideo Hread Hsize Hdate.
  assert (Hsmall : isImageTooLarge buf && negb (String.eqb mime "") = false).
  { unfold isImageTooLarge. apply Z.ltb_ge in Hsize. now rewrite Hsize. }
  destruct (processMedia_kept W m0 folder mime buf ms Hmime Hread Hsmall Hdate)
    as [Hfirst _].
  destruct (processPost_video_branch W post folder m0 rest _ mime buf
              Hmedia Hfirst Hvideo eq_refl eq_refl Hsize) as [pp [Hpp [He Hc]]].
  exists pp. rewrite Hpp. auto.
Qed.

(** X5. a media item whose file type is in neither table is never embedded
    and never sent to [sharp], whatever its size: [processMedia] warns
    about the type and keeps an empty MIME type, which the image loop
    skips. *)
Theorem unsupported_type_is_never_embedded (W : World) (m : Media) (folder : string) :
  getImageMimeType (fileTypeOf (uri m)) = ""%string ->
  getVideoMimeType (fileTypeOf (uri m)) = ""%string ->
  qualifying W folder m = None /\
  List.filter isSharp (events (processMedia W m folder)) = [] /\
  In (Log Warn (UnsupportedFileType (fileTypeOf (uri m))))
     (events (processMedia W m folder)).
Proof.
  unfold fileTypeOf. intros Himage Hvideo.
  assert (Hmime : getMimeType (jsSubstringFrom (lastIndexOf "." (uri m) + 1) (uri m)) =
                  ([Log Warn (UnsupportedFileType
                                (jsSubstringFrom (lastIndexOf "." (uri m) + 1) (uri m)))],
                   Return ""%string)).
  { unfold getMimeType. rewrite Himage, Hvideo. reflexivity. }
  unfold qualifying, processMedia. rewrite Hmime, bind_Return.
  cbn [outcome events fst snd].
  destruct (readFileSync W _) as [buf|e]; [|cbn; auto].
  rewrite andb_false_r.
  change (ret (Some buf)) with (lift (Return (Some buf))). rewrite bind_lift_Return.
  destruct (dateOfTimestamp (m_creation_timestamp m)); cbn; auto.
Qed.

(** A file named [notes.txt] is not embedded. *)
Lemma unsupported_type_is_never_embedded_witness :
  qualifying (Scenario.world Scenario.photoDisk Scenario.accepted) "archive"
    (Scenario.file "notes.txt" 1700000000 "notes") = None.
Proof.
  exact (proj1 (unsupported_type_is_never_embedded
                  (Scenario.world Scenario.photoDisk Scenario.accepted)
                  (Scenario.file "notes.txt" 1700000000 "notes") "archive"
                  eq_refl eq_refl)).
Defined.

(** X6. a readable image file within the ceiling, with a valid timestamp,
    qualifies with its bytes unchanged, its MIME type and its truncated
    caption, and [sharp] is not called for it. *)
Theorem image_within_ceiling_is_kept_as_is (W : World) (m : Media) (folder : string)
    (mime : string) (buf : Buffer) (ms : Z) :
  outcome (getMimeType (fileTypeOf (uri m))) = Return mime ->
  mime <> ""%string ->
  isVideoMimeType mime = false ->
  readFileSync W (folder ++ "/" ++ uri m) = Return buf ->
  Buffer_length buf <= API_LIMIT_IMAGE_UPLOAD_SIZE ->
  dateOfTimestamp (m_creation_timestamp m) = ValidDate ms ->
  qualifying W folder m =
  Some {| i_alt := truncateCaption (captionText W m); i_buffer := buf;
          i_mimeType := mime |} /\
  List.filter isSharp (events (processMedia W m folder)) = [].
Proof.
  intros Hmime Hne Himage Hread Hsize Hdate.
  assert (Hsmall : isImageTooLarge buf && negb (String.eqb mime "") = false).
  { unfold isImageTooLarge. apply Z.ltb_ge in Hsize. now rewrite Hsize. }
  destruct (processMedia_kept W m folder mime buf ms Hmime Hread Hsmall Hdate)
    as [Hr Hsilent].
  split; [|exact Hsilent].
  unfold qualifying. rewrite Hr. unfold imageOf. cbn [mimeType mediaBuffer isVideo mediaText].
  rewrite Himage. destruct mime; [contradiction|]. reflexivity.
Qed.

(** The ten-byte photo [a.jpg] qualifies as it is. *)
Lemma image_within_ceiling_is_kept_as_is_witness :
  qualifying (Scenario.world Scenario.photoDisk Scenario.accepted) "archive"
    Scenario.photoA = Some (Scenario.jpeg "a") /\
  List.filter isSharp
    (events (processMedia (Scenario.world Scenario.photoDisk Scenario.accepted)
               Scenario.photoA "archive")) = [].
Proof.
  assert (Hne : "image/jpeg"%string <> ""%string) by discriminate.
  assert (Hsize : Buffer_length (Buffer_alloc 10) <= API_LIMIT_IMAGE_UPLOAD_SIZE)
    by (vm_compute; discriminate).
  exact (image_within_ceiling_is_kept_as_is
           (Scenario.world Scenario.photoDisk Scenario.accepted)
           Scenario.photoA "archive" "image/jpeg" (Buffer_alloc 10) 1700000000000
           eq_refl Hne eq_refl eq_refl Hsize eq_refl).
Defined.

(** ** The text of the post *)

Lemma strlen_nonneg (s : string) : 0 <= strlen s.
Proof. unfold strlen. lia. Qed.

Lemma truncatePostText_spec (text : string) :
  strlen (truncatePostText text) <= POST_TEXT_LIMIT /\
  (strlen text <= POST_TEXT_LIMIT -> truncatePostText text = text) /\
  (POST_TEXT_LIMIT < strlen text ->
   truncatePostText text = (jsSubstring 0 297 text ++ "...")%string /\
   strlen (truncatePostText text) = POST_TEXT_LIMIT).
Proof.
  unfold truncatePostText, POST_TEXT_LIMIT, POST_TEXT_TRUNCATE_SUFFIX.
  change (300 - strlen "...") with 297.
  destruct (300 <? strlen text) eqn:Hlong.
  - apply Z.ltb_lt in Hlong.
    assert (H297 : strlen (jsSubstring 0 297 text) = 297)
      by (apply strlen_jsSubstring_0; lia).
    rewrite strlen_append, H297. change (strlen "...") with 3.
    split; [lia|]. split; [lia|]. intros _. split; reflexivity.
  - apply Z.ltb_ge in Hlong. split; [exact Hlong|]. split; [reflexivity | lia].
Qed.

Lemma truncatePostText_empty (text : string) :
  truthyString (Some (truncatePostText text)) = false -> text = ""%string.
Proof.
  intros H. destruct (Z.ltb_spec POST_TEXT_LIMIT (strlen text)) as [Hlong | Hshort].
  - destruct (truncatePostText_spec text) as [_ [_ Hcut]].
    destruct (Hcut Hlong) as [_ Hlen].
    destruct (truncatePostText text); [discriminate Hlen | discriminate H].
  - destruct (truncatePostText_spec text) as [_ [Hsame _]].
    rewrite (Hsame Hshort) in H. destruct text; [reflexivity | discriminate].
Qed.

(** The text [processPost] resolves. *)
Lemma processPost_postText (W : World) (post : Post) (folder : string)
    (pp : ProcessedPost) (own : string) :
  own = truncatePostText (match title post with Some t => t | None => ""%string end) ->
  outcome (processPost W post folder) = Return pp ->
  postText pp =
  match media post with
  | [m0] => if truthyString (Some own) then Some own else m_title m0
  | _ => Some own
  end.
Proof.
  intros Hown H. unfold processPost in H. rewrite <- Hown in H. clear Hown.
  destruct (media post) as [|m0 rest] eqn:Hmedia.
  - cbn in H. injection H as <-. reflexivity.
  - apply bind_Return_inv in H. destruct H as [first [_ H]].
    assert (Hsingle : (Z.of_nat (List.length (m0 :: rest)) =? 1) =
                      match rest with [] => true | _ => false end).
    { destruct rest; cbn [List.length]; [reflexivity|]. apply Z.eqb_neq. lia. }
    rewrite Hsingle in H.
    assert (Htext : forall d t e c,
               Return {| postDate := d; postText := t; embeddedMedia := e; mediaCount := c |}
               = Return pp -> postText pp = t).
    { intros d t e c Heq. injection Heq as <-. reflexivity. }
    destruct (isVideo first).
    + destruct (mimeType first) as [mime|]; [destruct (mediaBuffer first) as [buf|]|];
        [destruct (truthyString (Some mime) && validateVideo buf)| |];
        cbn [ret outcome snd] in H; apply Htext in H; rewrite H;
        destruct rest, (truthyString (Some own)); reflexivity.
    + apply bind_Return_inv in H. destruct H as [r [_ H]].
      cbn [ret outcome snd] in H; apply Htext in H; rewrite H;
        destruct rest, (truthyString (Some own)); reflexivity.
Qed.

(** X7. the post text is the post's own title cut to 300 characters (its
    first 297 and the marker when longer), except for a post with exactly
    one media item and an empty or missing title, whose text is that media
    item's title as it is, uncut and possibly missing. *)
Theorem post_text_is_cut_title_or_media_title (W : World) (post : Post)
    (folder : string) (pp : ProcessedPost) :
  outcome (processPost W post folder) = Return pp ->
  let own := match title post with Some t => t | None => ""%string end in
  postText pp =
    match media post with
    | [m0] => if String.eqb own "" then m_title m0 else Some (truncatePostText own)
    | _ => Some (truncatePostText own)
    end /\
  strlen (truncatePostText own) <= 300 /\
  (strlen own <= 300 -> truncatePostText own = own) /\
  (300 < strlen own ->
   truncatePostText own = (jsSubstring 0 297 own ++ "...")%string /\
   strlen (truncatePostText own) = 300).
Proof.
  intros Hpp own. split; [|exact (truncatePostText_spec own)].
  rewrite (processPost_postText W post folder pp (truncatePostText own) eq_refl Hpp).
  destruct (media post) as [|m0 [|m1 rest]]; try reflexivity.
  destruct (String.eqb own "") eqn:Hempty.
  - apply String.eqb_eq in Hempty. rewrite Hempty. reflexivity.
  - destruct (truthyString (Some (truncatePostText own))) eqn:Htruthy; [reflexivity|].
    apply truncatePostText_empty in Htruthy. rewrite Htruthy in Hempty. discriminate.
Qed.

(** ** Media items past the fourth *)

Lemma imageLoop_firstn (W : World) (folder : string) (ms : list Media) :
  forall (j : Z) (acc : list ImageEmbed) (count : Z),
    0 <= j ->
    outcome (imageLoop W folder ms j acc count) =
    outcome (imageLoop W folder (firstn (Z.to_nat (MAX_IMAGES_PER_POST - j)) ms)
               j acc count).
Proof.
  induction ms as [|m rest IH]; intros j acc count Hj.
  - now rewrite firstn_nil.
  - destruct (Z.ltb_spec j MAX_IMAGES_PER_POST) as [Hlt|Hge].
    + rewrite firstn_slots by assumption. cbn [imageLoop].
      pose proof Hlt as Hlt'. apply Z.leb_gt in Hlt'. rewrite Hlt'.
      rewrite !outcome_bind. destruct (outcome (processMedia W m folder)) as [r|e];
        [|reflexivity].
      destruct (mimeType r); [destruct (mediaBuffer r)|];
        [destruct (negb _ || _)| |]; apply IH; lia.
    + replace (Z.to_nat (MAX_IMAGES_PER_POST - j)) with 0%nat by lia.
      cbn [firstn imageLoop]. apply Z.leb_le in Hge. now rewrite Hge.
Qed.

(** X8. [processPost] returns for a post what it returns for the same post
    cut to its first four media items: no media item past the fourth has a
    part in the result (nor is its file read). *)
Theorem media_past_the_fourth_play_no_part (W : World) (post : Post) (folder : string) :
  outcome (processPost W post folder) =
  outcome (processPost W
             {| creation_timestamp := creation_timestamp post; title := title post;
                media := firstn 4 (media post) |} folder).
Proof.
  unfold processPost. cbn [creation_timestamp title media].
  destruct (media post) as [|m0 rest]; [reflexivity|].
  change (firstn 4 (m0 :: rest)) with (m0 :: firstn 3 rest).
  assert (Hsingle : (Z.of_nat (List.length (m0 :: rest)) =? 1) =
                    (Z.of_nat (List.length (m0 :: firstn 3 rest)) =? 1)).
  { destruct rest as [|m1 rest]; [reflexivity|]. cbn [firstn List.length].
    transitivity false; [|symmetry]; apply Z.eqb_neq; lia. }
  assert (Hloop : outcome (imageLoop W folder (m0 :: rest) 0 [] 0) =
                  outcome (imageLoop W folder (m0 :: firstn 3 rest) 0 [] 0)).
  { rewrite (imageLoop_firstn W folder (m0 :: rest) 0 [] 0) by lia.
    rewrite (imageLoop_firstn W folder (m0 :: firstn 3 rest) 0 [] 0) by lia.
    change (Z.to_nat (MAX_IMAGES_PER_POST - 0)) with 4%nat.
    change (firstn 4 (m0 :: rest)) with (m0 :: firstn 3 rest).
    change (firstn 4 (m0 :: firstn 3 rest)) with (m0 :: firstn 3 (firstn 3 rest)).
    now rewrite firstn_firstn. }
  remember (firstn 3 rest) as rest3 eqn:Hrest3. clear Hrest3.
  rewrite <- Hsingle. rewrite !outcome_bind.
  destruct (outcome (processMedia W m0 folder)) as [first|e]; [|reflexivity].
  destruct (isVideo first); [reflexivity|].
  rewrite !outcome_bind, Hloop. reflexivity.
Qed.

(** ** Events a part of the code never emits *)

Section Unseen.
Variable P : Event -> bool.
Hypothesis HLog :
  forall lvl msg,
    match msg with PostCreated _ => False | _ => True end -> P (Log lvl msg) = false.
Hypothesis HMetadata : forall n, P (SharpMetadata n) = false.
Hypothesis HResize : forall n w h, P (SharpResize n w h) = false.

Ltac unseen :=
  repeat first
    [ reflexivity
    | apply filter_bind; [|intros]
    | apply filter_tryCatch; [|intros]
    | progress (cbn [events logger emit lift ret fst List.filter];
                rewrite ?HMetadata, ?HResize, ?HLog by exact I)
    | match goal with
      | |- context [match ?x with _ => _ end] => destruct x
      end ].

Lemma processImageBuffer_unseen (W : World) (b : Buffer) (f : string) :
  List.filter P (events (processImageBuffer W b f)) = [].
Proof. unfold processImageBuffer, sharpMetadata, sharpResize. unseen. Qed.

Lemma processMedia_unseen (W : World) (m : Media) (folder : string) :
  List.filter P (events (processMedia W m folder)) = [].
Proof.
  unfold processMedia, getMimeType.
  apply filter_bind; [unseen|]. intros mime.
  destruct (readFileSync W _); [|unseen].
  apply filter_bind; [|intros; unseen].
  destruct (_ && _); [apply processImageBuffer_unseen | reflexivity].
Qed.

Lemma imageLoop_unseen (W : World) (folder : string) (ms : list Media) :
  forall j acc count, List.filter P (events (imageLoop W folder ms j acc count)) = [].
Proof.
  induction ms as [|m rest IH]; intros j acc count; cbn [imageLoop]; [reflexivity|].
  destruct (MAX_IMAGES_PER_POST <=? j); [unseen|].
  apply filter_bind; [apply processMedia_unseen|]. intros r.
  destruct (mimeType r); [destruct (mediaBuffer r)|]; [destruct (_ || _)| |]; apply IH.
Qed.

Lemma processPost_unseen (W : World) (post : Post) (folder : string) :
  List.filter P (events (processPost W post folder)) = [].
Proof.
  unfold processPost. destruct (media post) as [|m0 rest]; [reflexivity|].
  apply filter_bind; [apply processMedia_unseen|]. intros first.
  destruct (isVideo first); [unseen|].
  apply filter_bind; [apply imageLoop_unseen | reflexivity].
Qed.

End Unseen.

(** ** Simulate mode *)

Lemma isNetwork_Log (lvl : Level) (msg : Message) :
  match msg with PostCreated _ => False | _ => True end -> isNetwork (Log lvl msg) = false.
Proof. reflexivity. Qed.

Lemma processPost_offline (W : World) (post : Post) (folder : string) :
  List.filter isNetwork (events (processPost W post folder)) = [].
Proof. apply processPost_unseen; [exact isNetwork_Log | reflexivity | reflexivity]. Qed.

Lemma processVideoPost_offline (W : World) (filePath : option string)
    (buffer : option Buffer) (client : option (Client W)) :
  List.filter isNetwork (events (processVideoPost W filePath buffer client true)) = [].
Proof. unfold processVideoPost. silent. Qed.

Lemma submitPost_offline (W : World) (cfg : Config) (st : RunState W) (date : Date)
    (text : option string) (embed : PostEmbed) (count : Z) :
  SIMULATE cfg = true ->
  List.filter isNetwork (events (submitPost W cfg st date text embed count)) = [].
Proof. intros Hsim. unfold submitPost. rewrite Hsim. silent. Qed.

Lemma importPost_offline (W : World) (cfg : Config) (post : Post) (st : RunState W) :
  SIMULATE cfg = true ->
  List.filter isNetwork (events (importPost W cfg post st)) = [].
Proof.
  intros Hsim. unfold importPost.
  apply filter_bind; [apply processPost_offline|]. intros processed.
  apply filter_bind; [silent|]. intros m0.
  apply filter_bind; [reflexivity|]. intros _.
  apply filter_bind.
  - destruct (match m_type m0 with Some t => _ | None => false end); [|reflexivity].
    rewrite Hsim. apply filter_bind; [apply processVideoPost_offline|].
    intros v. destruct (snd v); reflexivity.
  - intros r. destruct (snd r); [|reflexivity].
    destruct (postDate processed); [|reflexivity].
    now apply submitPost_offline.
Qed.

Lemma forEachPost_offline (W : World) (cfg : Config) (posts : list Post) :
  SIMULATE cfg = true ->
  forall st, List.filter isNetwork (events (forEachPost W cfg posts st)) = [].
Proof.
  intros Hsim. induction posts as [|post rest IH]; intros st; [reflexivity|].
  cbn [forEachPost]. apply filter_bind.
  - unfold iteration. apply filter_bind; [silent|]. intros [d|]; [|reflexivity].
    destruct (beforeMinDate cfg d); [reflexivity|].
    destruct (afterMaxDate cfg d); [reflexivity|].
    apply filter_bind; [now apply importPost_offline | reflexivity].
  - intros r. destruct (fst r); [apply IH | reflexivity].
Qed.

(** X9. in simulate mode a run makes no call that leaves the machine and
    never waits: no login, no rate-limit delay, no upload, no submission,
    for any archive and any behaviour of the collaborators. *)
Theorem simulate_mode_is_offline (W : World) (cfg : Config) (client : Client W)
    (instaPosts : list Post) :
  SIMULATE cfg = true ->
  List.filter isNetwork (events (main W cfg client instaPosts)) = [].
Proof.
  intros Hsim. unfold main. rewrite Hsim.
  apply filter_bind; [reflexivity|]. intros b.
  apply filter_bind; [|reflexivity].
  destruct instaPosts as [|p ps]; [reflexivity|].
  apply filter_bind; [silent|]. intros sorted. now apply forEachPost_offline.
Qed.

(** The simulated run of two photo posts and a video post stays offline. *)
Lemma simulate_mode_is_offline_witness :
  List.filter isNetwork
    (events (main (Scenario.world Scenario.photoDisk Scenario.accepted)
               Scenario.simulate tt
               [Scenario.photoPost; Scenario.clipPost; Scenario.fivePhotos])) = [].
Proof.
  exact (simulate_mode_is_offline
           (Scenario.world Scenario.photoDisk Scenario.accepted)
           Scenario.simulate tt
           [Scenario.photoPost; Scenario.clipPost; Scenario.fivePhotos] eq_refl).
Defined.

(** ** The rate limit *)

Lemma pacedFrom_weaken (l : list Event) (b : bool) :
  pacedFrom false l = true -> pacedFrom b l = true.
Proof.
  destruct l as [|e l]; [reflexivity|]. destruct e; cbn; auto. discriminate.
Qed.

Lemma pacedFrom_app (l1 l2 : list Event) :
  forall b, pacedFrom b l1 = true -> paced l2 = true -> pacedFrom b (l1 ++ l2) = true.
Proof.
  induction l1 as [|e l1 IH]; intros b H1 H2.
  - now apply pacedFrom_weaken.
  - destruct e; cbn in *; auto.
    apply andb_prop in H1. destruct H1 as [-> H1]. cbn. auto.
Qed.

Lemma paced_without_submissions (l : list Event) :
  submissions l = [] -> forall b, pacedFrom b l = true.
Proof.
  unfold submissions. induction l as [|e l IH]; intros Hl b; [reflexivity|].
  destruct e; cbn in *; auto. discriminate.
Qed.

Lemma paced_bind {A B : Type} (m : Eff A) (k : A -> Eff B) :
  paced (events m) = true ->
  (forall a, paced (events (k a)) = true) ->
  paced (events (bind m k)) = true.
Proof.
  intros Hm Hk. rewrite events_bind. apply pacedFrom_app; [exact Hm|].
  destruct (outcome m); [apply Hk | reflexivity].
Qed.

Lemma submitPost_paced (W : World) (cfg : Config) (st : RunState W) (date : Date)
    (text : option string) (embed : PostEmbed) (count : Z) :
  paced (events (submitPost W cfg st date text embed count)) = true.
Proof.
  unfold submitPost.
  destruct (SIMULATE cfg), (bluesky st) as [c|];
    try (destruct (createPost W c date text embed) as [c' [url|e]];
         [destruct (truthyString url)|]);
    destruct date, text; reflexivity.
Qed.

Lemma importPost_paced (W : World) (cfg : Config) (post : Post) (st : RunState W) :
  paced (events (importPost W cfg post st)) = true.
Proof.
  unfold importPost.
  apply paced_bind; [apply paced_without_submissions, processPost_quiet|].
  intros processed. apply paced_bind; [destruct (firstMediaOf post); reflexivity|].
  intros m0. apply paced_bind; [reflexivity|]. intros _. apply paced_bind.
  - destruct (match m_type m0 with Some t => _ | None => false end); [|reflexivity].
    apply paced_bind;
      [apply paced_without_submissions, processVideoPost_quiet|].
    intros v. destruct (snd v); reflexivity.
  - intros r. destruct (snd r); [|reflexivity].
    destruct (postDate processed); [|reflexivity]. apply submitPost_paced.
Qed.

Lemma forEachPost_paced (W : World) (cfg : Config) (posts : list Post) :
  forall st, paced (events (forEachPost W cfg posts st)) = true.
Proof.
  induction posts as [|post rest IH]; intros st; [reflexivity|].
  cbn [forEachPost]. apply paced_bind.
  - unfold iteration. apply paced_bind; [destruct (checkDateOf post); reflexivity|].
    intros [d|]; [|reflexivity].
    destruct (beforeMinDate cfg d); [reflexivity|].
    destruct (afterMaxDate cfg d); [reflexivity|].
    apply paced_bind; [apply importPost_paced | reflexivity].
  - intros r. destruct (fst r); [apply IH | reflexivity].
Qed.

(** X10. in every run, every submission to the client comes right after a
    wait of the rate-limit delay (3000 ms): nothing happens between the
    wait and the submission, and no submission goes without one. *)
Theorem every_submission_follows_the_delay (W : World) (cfg : Config)
    (client : Client W) (instaPosts : list Post) :
  paced (events (main W cfg client instaPosts)) = true.
Proof.
  unfold main. apply paced_bind.
  - destruct (SIMULATE cfg); [reflexivity|].
    destruct (login W client); reflexivity.
  - intros b. apply paced_bind; [|reflexivity].
    destruct instaPosts as [|p ps]; [reflexivity|].
    apply paced_bind; [destruct (sortPosts (p :: ps)); reflexivity|].
    intros sorted. apply forEachPost_paced.
Qed.

(** ** The counters *)

Lemma processPost_mediaCount (W : World) (post : Post) (folder : string)
    (pp : ProcessedPost) :
  outcome (processPost W post folder) = Return pp -> 0 <= mediaCount pp <= 4.
Proof.
  intros Hpp. apply processPost_embed in Hpp.
  destruct (media post) as [|m0 rest].
  - destruct Hpp as [_ ->]. lia.
  - destruct Hpp as [first [_ Hpp]]. destruct (isVideo first).
    + destruct Hpp as [[_ ->] | [mime [buf [_ [_ [_ [_ ->]]]]]]]; lia.
    + cbv zeta in Hpp. destruct Hpp as [_ ->].
      pose proof (selectImages_length W folder
                    (firstn (Z.to_nat MAX_IMAGES_PER_POST) (m0 :: rest))) as Hsel.
      pose proof (firstn_le_length (Z.to_nat MAX_IMAGES_PER_POST) (m0 :: rest)) as Hfour.
      unfold MAX_IMAGES_PER_POST in *. lia.
Qed.

Lemma submitPost_step (W : World) (cfg : Config) (st st' : RunState W) (date : Date)
    (text : option string) (embed : PostEmbed) (count : Z) :
  outcome (submitPost W cfg st date text embed count) = Return st' ->
  stepOf st st' count.
Proof.
  unfold submitPost, stepOf. intros H.
  apply bind_Return_inv in H. destruct H as [st1 [H1 H]].
  apply bind_Return_inv in H. destruct H as [created [_ H]].
  apply bind_Return_inv in H. destruct H as [preview [_ H]].
  apply bind_Return_inv in H. destruct H as [[] [_ H]].
  cbn in H. injection H as <-. cbn [importedPosts importedMedia].
  assert (Hposts : importedPosts st <= importedPosts st1 <= importedPosts st + 1 /\
                   importedMedia st1 = importedMedia st).
  { destruct (SIMULATE cfg), (bluesky st) as [c|];
      try (cbn in H1; injection H1 as <-; cbn; lia).
    apply bind_Return_inv in H1. destruct H1 as [[] [_ H1]].
    apply bind_Return_inv in H1. destruct H1 as [[] [_ H1]].
    destruct (createPost W c date text embed) as [c' [url|e]];
      [destruct (truthyString url)|]; cbn in H1; injection H1 as <-; cbn; lia. }
  lia.
Qed.

Lemma importPost_counters (W : World) (cfg : Config) (post : Post) (st st' : RunState W) :
  outcome (importPost W cfg post st) = Return st' ->
  importedPosts st <= importedPosts st' <= importedPosts st + 1 /\
  importedMedia st <= importedMedia st' <= importedMedia st + 4.
Proof.
  unfold importPost. intros H.
  apply bind_Return_inv in H. destruct H as [processed [Hpp H]].
  apply processPost_mediaCount in Hpp.
  apply bind_Return_inv in H. destruct H as [m0 [_ H]].
  apply bind_Return_inv in H. destruct H as [[] [_ H]].
  apply bind_Return_inv in H. destruct H as [r [_ H]].
  destruct (snd r); [|cbn in H; injection H as <-; cbn; lia].
  destruct (postDate processed).
  - apply submitPost_step in H. unfold stepOf in H. cbn in H. lia.
  - apply bind_Return_inv in H. destruct H as [[] [_ H]].
    cbn in H. injection H as <-. cbn. lia.
Qed.

Lemma iteration_counters (W : World) (cfg : Config) (post : Post) (st : RunState W)
    (r : Ctl * RunState W) :
  outcome (iteration W cfg post st) = Return r ->
  importedPosts st <= importedPosts (snd r) <= importedPosts st + 1 /\
  importedMedia st <= importedMedia (snd r) <= importedMedia st + 4.
Proof.
  unfold iteration. intros H.
  apply bind_Return_inv in H. destruct H as [[d|] [_ H]].
  - destruct (beforeMinDate cfg d); [cbn in H; injection H as <-; cbn; lia|].
    destruct (afterMaxDate cfg d); [cbn in H; injection H as <-; cbn; lia|].
    apply bind_Return_inv in H. destruct H as [st' [Hst' H]].
    cbn in H. injection H as <-. cbn. now apply importPost_counters in Hst'.
  - cbn in H. injection H as <-. cbn. lia.
Qed.

Lemma forEachPost_counters (W : World) (cfg : Config) (posts : list Post) :
  forall st st',
    outcome (forEachPost W cfg posts st) = Return st' ->
    importedPosts st <= importedPosts st' <=
      importedPosts st + Z.of_nat (List.length posts) /\
    importedMedia st <= importedMedia st' <=
      importedMedia st + 4 * Z.of_nat (List.length posts).
Proof.
  induction posts as [|post rest IH]; intros st st' H.
  - cbn in H. injection H as <-. cbn. lia.
  - cbn [forEachPost] in H. apply bind_Return_inv in H. destruct H as [r [Hr H]].
    apply iteration_counters in Hr. cbn [List.length]. destruct (fst r).
    + apply IH in H. lia.
    + cbn in H. injection H as <-. lia.
Qed.

Lemma insertPost_length (x : Post) (l s : list Post) :
  insertPost x l = Return s -> List.length s = S (List.length l).
Proof.
  revert s. induction l as [|y l IH]; intros s; cbn [insertPost].
  - intros H. injection H as <-. reflexivity.
  - destruct (comparesAfter x y) as [[|]|e]; [| |discriminate].
    + destruct (insertPost x l) as [r|e]; [|discriminate].
      intros H. injection H as <-. cbn. now rewrite (IH r eq_refl).
    + intros H. injection H as <-. reflexivity.
Qed.

Lemma sortPosts_length (l s : list Post) :
  sortPosts l = Return s -> List.length s = List.length l.
Proof.
  revert s. induction l as [|x l IH]; intros s; cbn [sortPosts].
  - intros H. injection H as <-. reflexivity.
  - destruct (sortPosts l) as [r|e]; [|discriminate].
    intros H. apply insertPost_length in H. cbn. now rewrite H, (IH r eq_refl).
Qed.

(** X11. the counts a run ends with are bounded by the archive: at most one
    post imported per post of the archive, at most four media items per
    post, and neither count is negative. *)
Theorem final_counts_are_bounded_by_archive (W : World) (cfg : Config)
    (client : Client W) (instaPosts : list Post) (posts mediaItems : Z) :
  outcome (main W cfg client instaPosts) = Return (posts, mediaItems) ->
  0 <= posts <= Z.of_nat (List.length instaPosts) /\
  0 <= mediaItems <= 4 * Z.of_nat (List.length instaPosts).
Proof.
  unfold main. intros H.
  apply bind_Return_inv in H. destruct H as [b [_ H]].
  apply bind_Return_inv in H. destruct H as [st [Hst H]].
  apply bind_Return_inv in H. destruct H as [[] [_ H]].
  cbn in H. injection H as <- <-.
  destruct instaPosts as [|p ps].
  - cbn in Hst. injection Hst as <-. cbn. lia.
  - apply bind_Return_inv in Hst. destruct Hst as [sorted [Hsort Hst]].
    change (sortPosts (p :: ps) = Return sorted) in Hsort.
    apply sortPosts_length in Hsort.
    apply forEachPost_counters in Hst. rewrite Hsort in Hst. cbn in Hst |- *. lia.
Qed.

(** The simulated run of a photo post and a five-photo post ends with 2
    posts and 5 media items. *)
Lemma final_counts_are_bounded_by_archive_witness :
  0 <= 2 <= Z.of_nat (List.length [Scenario.photoPost; Scenario.fivePhotos]) /\
  0 <= 5 <= 4 * Z.of_nat (List.length [Scenario.photoPost; Scenario.fivePhotos]).
Proof.
  assert (H : outcome (main (Scenario.world Scenario.photoDisk Scenario.accepted)
                         Scenario.simulate tt
                         [Scenario.photoPost; Scenario.fivePhotos]) = Return (2, 5))
    by (vm_compute; reflexivity).
  exact (final_counts_are_bounded_by_archive
           (Scenario.world Scenario.photoDisk Scenario.accepted) Scenario.simulate tt
           [Scenario.photoPost; Scenario.fivePhotos] 2 5 H).
Defined.

(** ** Posts counted in live mode *)

Lemma isPostCreated_Log (lvl : Level) (msg : Message) :
  match msg with PostCreated _ => False | _ => True end ->
  isPostCreated (Log lvl msg) = false.
Proof. destruct lvl, msg; intros H; try reflexivity; destruct H. Qed.

Lemma postsCreated_app (l1 l2 : list Event) :
  postsCreated (l1 ++ l2) = postsCreated l1 + postsCreated l2.
Proof. unfold postsCreated. rewrite filter_app, length_app. lia. Qed.

Lemma postsCreated_none (l : list Event) :
  List.filter isPostCreated l = [] -> postsCreated l = 0.
Proof. unfold postsCreated. now intros ->. Qed.

Lemma postsCreated_bind {A B : Type} (m : Eff A) (k : A -> Eff B) (b : B) :
  outcome (bind m k) = Return b ->
  exists a,
    outcome m = Return a /\ outcome (k a) = Return b /\
    postsCreated (events (bind m k)) =
    postsCreated (events m) + postsCreated (events (k a)).
Proof.
  intros H. destruct (bind_Return_inv m k b H) as [a [Hm Hk]].
  exists a. rewrite events_bind, postsCreated_app, Hm. auto.
Qed.

Lemma processVideoPost_uncounted (W : World) (filePath : option string)
    (buffer : option Buffer) (client : option (Client W)) (simulate : bool) :
  List.filter isPostCreated
    (events (processVideoPost W filePath buffer client simulate)) = [].
Proof. unfold processVideoPost. silent. Qed.

Lemma processVideoPost_client (W : World) (filePath : option string)
    (buffer : option Buffer) (c : Client W) (simulate : bool)
    (v : option (Client W) * Outcome VideoData) :
  outcome (processVideoPost W filePath buffer (Some c) simulate) = Return v ->
  fst v <> None.
Proof.
  unfold processVideoPost. destruct buffer as [buf|].
  - destruct (prepareVideoUpload W filePath buf); cbn.
    + destruct simulate; cbn.
      * intros H. injection H as <-. discriminate.
      * destruct (uploadVideo W c buf) as [c' [link|e]]; cbn.
        -- destruct (truthyString link); cbn; intros H; injection H as <-; discriminate.
        -- intros H; injection H as <-; discriminate.
    + intros H; injection H as <-; discriminate.
  - cbn. intros H; injection H as <-; discriminate.
Qed.

Lemma submitPost_counted (W : World) (cfg : Config) (st st' : RunState W) (date : Date)
    (text : option string) (embed : PostEmbed) (count : Z) :
  SIMULATE cfg = false -> bluesky st <> None ->
  outcome (submitPost W cfg st date text embed count) = Return st' ->
  importedPosts st' =
    importedPosts st + postsCreated (events (submitPost W cfg st date text embed count)) /\
  bluesky st' <> None.
Proof.
  unfold submitPost. intros Hlive Hclient. rewrite Hlive.
  destruct (bluesky st) as [c|]; [|contradiction].
  destruct (createPost W c date text embed) as [c' [url|e]];
    [destruct url as [[|a u]|]|]; destruct date, text; cbn; try discriminate;
    intros H; injection H as <-; cbn; (split; [lia | discriminate]).
Qed.

Lemma importPost_counted (W : World) (cfg : Config) (post : Post) (st st' : RunState W) :
  SIMULATE cfg = false -> bluesky st <> None ->
  outcome (importPost W cfg post st) = Return st' ->
  importedPosts st' = importedPosts st + postsCreated (events (importPost W cfg post st)) /\
  bluesky st' <> None.
Proof.
  intros Hlive Hclient H. unfold importPost in *.
  apply postsCreated_bind in H. destruct H as [processed [_ [H ->]]].
  rewrite (postsCreated_none (events (processPost W post (ARCHIVE_FOLDER cfg))))
    by (apply processPost_unseen; [exact isPostCreated_Log | reflexivity | reflexivity]).
  apply postsCreated_bind in H. destruct H as [m0 [Hm0 [H ->]]].
  assert (Hlift : postsCreated (events (lift (firstMediaOf post))) = 0) by reflexivity.
  rewrite Hlift. clear Hlift.
  apply postsCreated_bind in H. destruct H as [[] [_ [H ->]]].
  apply postsCreated_bind in H. destruct H as [r [Hr [H ->]]].
  assert (Hbranch : postsCreated
                      (events
                         (if match m_type m0 with
                             | Some t => (t =? "Video")%string
                             | None => false
                             end
                          then
                            v <- processVideoPost W (media_url m0) (m_buffer m0)
                                   (bluesky st) (SIMULATE cfg) ;;
                            match snd v with
                            | Return videoEmbed =>
                                logger Debug VideoProcessingComplete ;;
                                ret (fst v, Some (Uploaded videoEmbed))
                            | Throw _ =>
                                logger Error FailedToProcessVideo ;; ret (fst v, None)
                            end
                          else
                            logger Debug
                              (UsingPhotoMedia
                                 match embeddedMedia processed with
                                 | Images l => Z.of_nat (List.length l)
                                 | Video _ => 0
                                 end) ;;
                            ret (bluesky st, Some (Initial (embeddedMedia processed)))))
                    = 0 /\ fst r <> None).
  { destruct (match m_type m0 with Some t => _ | None => false end).
    - apply postsCreated_bind in Hr. destruct Hr as [v [Hv [Hr ->]]].
      rewrite (postsCreated_none _ (processVideoPost_uncounted W _ _ _ _)).
      destruct (bluesky st) as [c|]; [|contradiction].
      apply processVideoPost_client in Hv.
      destruct (snd v); cbn in Hr; injection Hr as <-; cbn; auto.
    - cbn in Hr. injection Hr as <-. cbn. auto. }
  destruct Hbranch as [-> Hr'].
  destruct (snd r).
  - destruct (postDate processed).
    + apply submitPost_counted in H; [|exact Hlive | exact Hr'].
      cbn [importedPosts] in H. destruct H as [H Hb]. split; [|exact Hb].
      rewrite H. cbn. lia.
    + cbn in H. injection H as <-. cbn. split; [lia | exact Hr'].
  - cbn in H. injection H as <-. cbn. split; [lia | exact Hr'].
Qed.

Lemma forEachPost_counted (W : World) (cfg : Config) (posts : list Post) :
  SIMULATE cfg = false ->
  forall st st',
    bluesky st <> None ->
    outcome (forEachPost W cfg posts st) = Return st' ->
    importedPosts st' =
    importedPosts st + postsCreated (events (forEachPost W cfg posts st)).
Proof.
  intros Hlive. induction posts as [|post rest IH]; intros st st' Hclient H.
  - cbn in H. injection H as <-. cbn. lia.
  - cbn [forEachPost] in *.
    apply postsCreated_bind in H. destruct H as [r [Hr [H ->]]].
    assert (Hiter : importedPosts (snd r) =
                    importedPosts st + postsCreated (events (iteration W cfg post st)) /\
                    bluesky (snd r) <> None).
    { unfold iteration in *.
      apply postsCreated_bind in Hr. destruct Hr as [[d|] [_ [Hr ->]]].
      - assert (Hlift : postsCreated (events (lift (checkDateOf post))) = 0) by reflexivity.
        rewrite Hlift.
        destruct (beforeMinDate cfg d); [cbn in Hr; injection Hr as <-; cbn; auto with zarith|].
        destruct (afterMaxDate cfg d); [cbn in Hr; injection Hr as <-; cbn; auto with zarith|].
        apply postsCreated_bind in Hr. destruct Hr as [st1 [Hst1 [Hr ->]]].
        cbn in Hr. injection Hr as <-. cbn [snd].
        apply importPost_counted in Hst1; [|exact Hlive | exact Hclient].
        destruct Hst1 as [-> Hb]. split; [cbn; lia | exact Hb].
      - cbn in Hr. injection Hr as <-. cbn. auto with zarith. }
    destruct Hiter as [Hposts Hb]. destruct (fst r).
    + apply IH in H; [|exact Hb]. rewrite H, Hposts. ring.
    + cbn in H. injection H as <-. cbn [events ret fst]. rewrite Hposts.
      change (postsCreated []) with 0. ring.
Qed.

(** X12. in live mode the number of imported posts a run ends with is the
    number of submissions that came back with the URL of the new post. *)
Theorem live_posts_count_is_number_of_created_posts (W : World) (cfg : Config)
    (client : Client W) (instaPosts : list Post) (posts mediaItems : Z) :
  SIMULATE cfg = false ->
  outcome (main W cfg client instaPosts) = Return (posts, mediaItems) ->
  posts = postsCreated (events (main W cfg client instaPosts)).
Proof.
  intros Hlive H. unfold main in *. rewrite Hlive in *.
  apply postsCreated_bind in H. destruct H as [b [Hb [H ->]]].
  assert (Hlogin : postsCreated
                     (events (logger Info SimulateDisabled ;; emit Login ;;
                              c <- lift (login W client) ;; ret (Some c))) = 0 /\
                   b <> None).
  { destruct (login W client) as [c|e]; cbn in Hb; [|discriminate].
    injection Hb as <-. split; [reflexivity | discriminate]. }
  destruct Hlogin as [-> Hclient].
  apply postsCreated_bind in H. destruct H as [st [Hst [H ->]]].
  cbn in H. injection H as <- _.
  destruct instaPosts as [|p ps].
  - cbn in Hst. injection Hst as <-. reflexivity.
  - apply postsCreated_bind in Hst. destruct Hst as [sorted [_ [Hst ->]]].
    apply forEachPost_counted in Hst; [|exact Hlive | exact Hclient].
    cbn [importedPosts] in Hst. rewrite Hst.
    assert (Hsort : postsCreated (events (lift (sortPosts (p :: ps)))) = 0) by reflexivity.
    rewrite Hsort. cbn. lia.
Qed.

(** Two photo posts, both accepted: 2 posts imported, 2 URLs logged. *)
Lemma live_posts_count_is_number_of_created_posts_witness :
  2 = postsCreated
        (events (main (Scenario.world Scenario.photoDisk Scenario.accepted)
                   Scenario.live tt [Scenario.photoPost; Scenario.photoPost])).
Proof.
  assert (H : outcome (main (Scenario.world Scenario.photoDisk Scenario.accepted)
                         Scenario.live tt
                         [Scenario.photoPost; Scenario.photoPost]) = Return (2, 2))
    by (vm_compute; reflexivity).
  exact (live_posts_count_is_number_of_created_posts
           (Scenario.world Scenario.photoDisk Scenario.accepted) Scenario.live tt
           [Scenario.photoPost; Scenario.photoPost] 2 2 eq_refl H).
Defined.

(** ** The sort *)

Lemma comparesAfter_dated (a b : Post) (x y : Z) :
  firstMediaTime a = Some x -> firstMediaTime b = Some y ->
  comparesAfter a b = Return (y <? x).
Proof.
  unfold firstMediaTime, comparesAfter, sortKey, firstMediaOf.
  destruct (media a) as [|ma ?]; [discriminate|]. intros ->.
  destruct (media b) as [|mb ?]; [discriminate|]. intros ->.
  f_equal. destruct (Z.ltb_spec y x), (Z.ltb_spec 0 (x - y)); auto; lia.
Qed.

Lemma postsAt_cons (t : Z) (p : Post) (l : list Post) :
  postsAt t (p :: l) = postsAt t [p] ++ postsAt t l.
Proof. unfold postsAt. cbn [List.filter]. destruct (match _ with Some _ => _ | None => _ end); reflexivity. Qed.

Lemma postsAt_other (t x : Z) (p : Post) :
  firstMediaTime p = Some x -> x <> t -> postsAt t [p] = [].
Proof.
  intros Hp Hx. unfold postsAt. cbn [List.filter]. rewrite Hp.
  apply Z.eqb_neq in Hx. now rewrite Hx.
Qed.

(** Insertion into a sorted list of dated posts: the new post goes after
    the posts dated no later than it. *)
Lemma insertPost_sorted (x : Post) (l : list Post) :
  (forall p, In p (x :: l) -> exists t, firstMediaTime p = Some t) ->
  StronglySorted (fun a b => timeOf a <= timeOf b) l ->
  exists r,
    insertPost x l = Return r /\
    Permutation (x :: l) r /\
    StronglySorted (fun a b => timeOf a <= timeOf b) r /\
    forall t, postsAt t r = postsAt t (x :: l).
Proof.
  induction l as [|y l IH]; intros Hdated Hsorted.
  - exists [x]. repeat split; auto. repeat constructor.
  - destruct (Hdated x (or_introl eq_refl)) as [tx Hx].
    destruct (Hdated y (or_intror (or_introl eq_refl))) as [ty Hy].
    cbn [insertPost]. rewrite (comparesAfter_dated x y tx ty Hx Hy).
    inversion Hsorted as [|? ? Hsorted' Hall]; subst.
    destruct (Z.ltb_spec ty tx) as [Hlt | Hge].
    + destruct IH as [r [-> [Hperm [Hr Hstable]]]]; [|exact Hsorted'|].
      { intros p [<- | Hin]; apply Hdated; [now left | now right; right]. }
      exists (y :: r). split; [reflexivity|]. split; [|split].
      * rewrite perm_swap. now constructor.
      * constructor; [exact Hr|].
        apply (Permutation_Forall Hperm). constructor; [|exact Hall].
        unfold timeOf. rewrite Hx, Hy. lia.
      * intros t. rewrite (postsAt_cons t y r), Hstable.
        rewrite (postsAt_cons t x (y :: l)), (postsAt_cons t y l), (postsAt_cons t x l).
        destruct (Z.eq_dec tx t) as [-> | Hne].
        -- rewrite (postsAt_other t ty y Hy) by lia. reflexivity.
        -- rewrite (postsAt_other t tx x Hx) by exact Hne. reflexivity.
    + exists (x :: y :: l). split; [reflexivity|]. split; [reflexivity|].
      split; [|reflexivity].
      constructor; [exact Hsorted|]. constructor.
      * unfold timeOf. rewrite Hx, Hy. exact Hge.
      * eapply Forall_impl; [|exact Hall]. intros p Hp. cbn in Hp.
        unfold timeOf in *. rewrite Hx. rewrite Hy in Hp. lia.
Qed.

Lemma sortPosts_sorted (posts : list Post) :
  (forall p, In p posts -> exists t, firstMediaTime p = Some t) ->
  exists sorted,
    sortPosts posts = Return sorted /\
    Permutation posts sorted /\
    StronglySorted (fun a b => timeOf a <= timeOf b) sorted /\
    forall t, postsAt t sorted = postsAt t posts.
Proof.
  induction posts as [|x l IH]; intros Hdated.
  - exists []. repeat split; auto. constructor.
  - destruct IH as [s [Hs [Hperm [Hsorted Hstable]]]].
    { intros p Hin. apply Hdated. now right. }
    destruct (insertPost_sorted x s) as [r [Hr [Hperm' [Hsorted' Hstable']]]];
      [|exact Hsorted|].
    { intros p [<- | Hin]; apply Hdated; [now left|].
      right. apply (Permutation_in p (Permutation_sym Hperm) Hin). }
    exists r. cbn [sortPosts]. rewrite Hs. split; [exact Hr|]. split; [|split].
    + etransitivity; [|exact Hperm']. now constructor.
    + exact Hsorted'.
    + intros t. rewrite Hstable', (postsAt_cons t x s), (postsAt_cons t x l), Hstable.
      reflexivity.
Qed.

(** X13. when every post has a first media item with a valid timestamp, the
    sort of [main] returns the posts of the archive, each once, in
    ascending order of that timestamp, posts of equal timestamp in archive
    order. *)
Theorem sort_is_by_first_media_time_and_stable (posts : list Post) :
  (forall p, In p posts -> exists t, firstMediaTime p = Some t) ->
  exists sorted,
    sortPosts posts = Return sorted /\
    Permutation posts sorted /\
    StronglySorted notAfter sorted /\
    forall t, postsAt t sorted = postsAt t posts.
Proof.
  intros Hdated.
  destruct (sortPosts_sorted posts Hdated) as [sorted [Hs [Hperm [Hsorted Hstable]]]].
  exists sorted. split; [exact Hs|]. split; [exact Hperm|]. split; [|exact Hstable].
  clear -Hsorted. induction Hsorted as [|a l Hl IH Hall]; constructor; [exact IH|].
  eapply Forall_impl; [|exact Hall]. intros b Hb x y Hx Hy.
  unfold timeOf in Hb. now rewrite Hx, Hy in Hb.
Qed.

(** Three posts dated 1,700,000,000, 500 and 2000 come out as 500, 2000,
    1,700,000,000. *)
Lemma sort_is_by_first_media_time_and_stable_witness :
  exists sorted,
    sortPosts [Scenario.photoPost; Scenario.early; Scenario.between] = Return sorted /\
    Permutation [Scenario.photoPost; Scenario.early; Scenario.between] sorted /\
    StronglySorted notAfter sorted /\
    forall t, postsAt t sorted =
              postsAt t [Scenario.photoPost; Scenario.early; Scenario.between].
Proof.
  apply (sort_is_by_first_media_time_and_stable
           [Scenario.photoPost; Scenario.early; Scenario.between]).
  intros p [<- | [<- | [<- | []]]]; eexists; vm_compute; reflexivity.
Defined.

(** X14. on an archive of two or more posts, one of which has no media, a
    run ends with [TypeError] in the sort, right after the start-up: no
    post is looked at, in simulate mode as in live mode. *)
Theorem post_without_media_aborts_the_sort (W : World) (cfg : Config)
    (client : Client W) (posts : list Post) (p : Post) :
  (2 <= List.length posts)%nat ->
  In p posts -> media p = [] ->
  (SIMULATE cfg = true ->
   main W cfg client posts = ([Log Warn SimulateEnabled], Throw TypeError)) /\
  (SIMULATE cfg = false ->
   forall c, login W client = Return c ->
   main W cfg client posts = ([Log Info SimulateDisabled; Login], Throw TypeError)).
Proof.
  intros Hlen Hin Hmedia.
  assert (Hsort : sortPosts posts = Throw TypeError)
    by (apply sortPosts_media_less; eauto).
  split.
  - intros Hsim. unfold main. rewrite Hsim, Hsort.
    destruct posts; [cbn in Hlen; lia | reflexivity].
  - intros Hlive c Hlogin. unfold main. rewrite Hlive, Hlogin, Hsort.
    destruct posts; [cbn in Hlen; lia | reflexivity].
Qed.

(** The archive of a photo post and a text post. *)
Lemma post_without_media_aborts_the_sort_witness :
  main (Scenario.world Scenario.photoDisk Scenario.accepted) Scenario.live tt
    [Scenario.photoPost; Scenario.textPost] =
  ([Log Info SimulateDisabled; Login], Throw TypeError).
Proof.
  assert (Hlen : (2 <= List.length [Scenario.photoPost; Scenario.textPost])%nat)
    by (cbn; lia).
  exact (proj2 (post_without_media_aborts_the_sort
                  (Scenario.world Scenario.photoDisk Scenario.accepted) Scenario.live tt
                  [Scenario.photoPost; Scenario.textPost] Scenario.textPost
                  Hlen (or_intror (or_introl eq_refl)) eq_refl)
           eq_refl tt eq_refl).
Defined.

(** ** The video branch of [main] *)

(** X15. a post whose first media item is typed ["Video"] and carries no
    [buffer] is skipped by the loop body, whatever embed [processPost]
    built for it: the video pipeline fails on the missing buffer before any
    upload, nothing is submitted and the run state is left as it was. *)
Theorem typed_video_without_buffer_is_skipped (W : World) (cfg : Config) (post : Post)
    (st : RunState W) (m0 : Media) (rest : list Media) (pp : ProcessedPost) :
  media post = m0 :: rest ->
  m_type m0 = Some "Video"%string ->
  m_buffer m0 = None ->
  outcome (processPost W post (ARCHIVE_FOLDER cfg)) = Return pp ->
  outcome (importPost W cfg post st) = Return st /\
  List.filter isNetwork (events (importPost W cfg post st)) = [] /\
  In (Log Error FailedToProcessVideo) (events (importPost W cfg post st)).
Proof.
  intros Hmedia Htype Hbuffer Hpp.
  assert (Hfirst : firstMediaOf post = Return m0)
    by (unfold firstMediaOf; now rewrite Hmedia).
  unfold importPost.
  rewrite outcome_bind, events_bind, Hpp, Hfirst, bind_lift_Return, Htype, Hbuffer.
  rewrite filter_app, processPost_offline.
  destruct st as [posts mediaItems b]. cbn. split; [reflexivity|]. split; [reflexivity|].
  apply in_or_app. right. cbn. auto.
Qed.

(** ** [processVideoPost] *)

(** X16. once the preparation of the video has returned,
    [processVideoPost] returns an embed with an upload reference exactly
    when the upload returned a non-empty one: in live mode with a client
    the run is the debug line and the one upload, and its result is the
    prepared data with that reference, beside the client as the upload
    left it; any other answer of the upload is an error, logged and
    rethrown. In simulate mode, or without a client, the run is the debug
    line alone and the prepared data is returned as it is. *)
Theorem video_embed_carries_the_upload_reference (W : World)
    (filePath : option string) (buf : Buffer) (client : option (Client W))
    (simulate : bool) (prepared : VideoData) :
  prepareVideoUpload W filePath buf = Return prepared ->
  let run := processVideoPost W filePath (Some buf) client simulate in
  (simulate = true \/ client = None ->
   run = ([Log Debug (ProcessingVideo (Buffer_length buf))],
          Return (client, Return prepared))) /\
  (forall c c' link,
      simulate = false -> client = Some c ->
      uploadVideo W c buf = (c', Return (Some link)) -> link <> ""%string ->
      run = ([Log Debug (ProcessingVideo (Buffer_length buf));
              UploadVideo (Buffer_length buf)],
             Return (Some c',
                     Return {| vd_buffer := vd_buffer prepared;
                               vd_width := vd_width prepared;
                               vd_height := vd_height prepared;
                               vd_ref := Some link |}))) /\
  (forall c client' v,
      simulate = false -> client = Some c ->
      outcome run = Return (client', Return v) ->
      exists c' link,
        uploadVideo W c buf = (c', Return (Some link)) /\
        link <> ""%string /\
        client' = Some c' /\
        v = {| vd_buffer := vd_buffer prepared; vd_width := vd_width prepared;
               vd_height := vd_height prepared; vd_ref := Some link |}) /\
  (forall c client' e,
      simulate = false -> client = Some c ->
      outcome run = Return (client', Throw e) ->
      exists c' answer,
        uploadVideo W c buf = (c', answer) /\
        (forall link, answer = Return (Some link) -> link = ""%string) /\
        client' = Some c' /\
        events run = [Log Debug (ProcessingVideo (Buffer_length buf));
                      UploadVideo (Buffer_length buf);
                      Log Error FailedToProcessVideo]).
Proof.
  intros Hprepared. cbv zeta. unfold processVideoPost. rewrite Hprepared.
  split; [|split; [|split]].
  - intros [-> | ->]; [|destruct simulate]; reflexivity.
  - intros c c' link -> -> Hup Hne. rewrite Hup.
    destruct link as [|a link]; [contradiction|]. reflexivity.
  - intros c client' v -> ->.
    destruct (uploadVideo W c buf) as [c' [[[|a link]|]|e]]; cbn;
      intros H; inversion H; subst.
    exists c', (String a link). repeat split. discriminate.
  - intros c client' e -> ->.
    destruct (uploadVideo W c buf) as [c' [[[|a link]|]|e']]; cbn;
      intros H; inversion H; subst; eexists; eexists;
      (split; [reflexivity|]); (split; [|split; reflexivity]);
      intros link Hlink; inversion Hlink; reflexivity.
Qed.

(** ** The date bounds *)

(** X17. the date bounds are inclusive, and only valid dates bound anything:
    a post whose check-date is not before a valid [MIN_DATE] and not after
    a valid [MAX_DATE] is imported; a bound that is an invalid date (a text
    that is no date) filters nothing, and neither bound applies to a
    check-date that is itself invalid. *)
Theorem date_bounds_are_inclusive (W : World) (cfg : Config) (post : Post)
    (st : RunState W) (d : Date) :
  checkDateOf post = Return (Some d) ->
  (forall t mn, d = ValidDate t -> MIN_DATE cfg = Some (ValidDate mn) -> mn <= t) ->
  (forall t mx, d = ValidDate t -> MAX_DATE cfg = Some (ValidDate mx) -> t <= mx) ->
  iteration W cfg post st =
  bind (importPost W cfg post st) (fun st' => ret (Continue, st')).
Proof.
  intros Hcheck Hmin Hmax. unfold iteration. rewrite Hcheck, bind_lift_Return.
  assert (Hbefore : beforeMinDate cfg d = false).
  { unfold beforeMinDate, Date_ltb.
    destruct (MIN_DATE cfg) as [[mn|]|]; destruct d as [t|]; cbn; try reflexivity.
    apply Z.ltb_ge. now apply (Hmin t mn). }
  assert (Hafter : afterMaxDate cfg d = false).
  { unfold afterMaxDate, Date_gtb, Date_ltb.
    destruct (MAX_DATE cfg) as [[mx|]|]; destruct d as [t|]; cbn; try reflexivity.
    apply Z.ltb_ge. now apply (Hmax t mx). }
  rewrite Hbefore, Hafter. reflexivity.
Qed.

(** ** The resize request *)

(** X18. for an over-ceiling buffer whose dimensions [sharp] reads, the
    enforcer asks for one resize, of one axis at 1920: the width for a
    landscape or square image, the height for a portrait one; what it
    returns, if anything, is the outcome of that request. *)
Theorem resize_request_is_long_edge_1920 (W : World) (b : Buffer) (f : string)
    (w h : Z) :
  API_LIMIT_IMAGE_UPLOAD_SIZE < Buffer_length b ->
  sharp_metadata W b = Return {| width := Some w; height := Some h |} ->
  w <> 0 -> h <> 0 ->
  resizeRequest w h =
    (if h <=? w then (Some 1920, None) else (None, Some 1920)) /\
  In (SharpResize (Buffer_length b) (fst (resizeRequest w h)) (snd (resizeRequest w h)))
     (events (processImageBuffer W b f)) /\
  forall out,
    outcome (processImageBuffer W b f) = Return (Some out) ->
    sharp_resize W b (fst (resizeRequest w h)) (snd (resizeRequest w h)) = Return out.
Proof.
  intros Hbig Hmeta Hw Hh. split.
  - unfold resizeRequest, IMAGE_LENGTH_LIMIT.
    destruct (Z.ltb_spec h w), (Z.ltb_spec w h), (Z.leb_spec h w); auto; lia.
  - unfold processImageBuffer, sharpMetadata, sharpResize.
    apply Z.leb_gt in Hbig. rewrite Hbig, Hmeta. cbn.
    apply Z.eqb_neq in Hw, Hh. rewrite Hw, Hh. cbn [orb].
    assert (Hwidth :
              match (if h <? w then Some IMAGE_LENGTH_LIMIT else None) with
              | Some _ => if h <? w then Some IMAGE_LENGTH_LIMIT else None
              | None =>
                  match (if w <? h then Some IMAGE_LENGTH_LIMIT else None) with
                  | Some _ => if h <? w then Some IMAGE_LENGTH_LIMIT else None
                  | None => Some IMAGE_LENGTH_LIMIT
                  end
              end = fst (resizeRequest w h)).
    { unfold resizeRequest. destruct (h <? w), (w <? h); reflexivity. }
    assert (Hheight : (if w <? h then Some IMAGE_LENGTH_LIMIT else None) =
                      snd (resizeRequest w h)).
    { unfold resizeRequest.
      destruct (Z.ltb_spec h w), (Z.ltb_spec w h); try reflexivity; lia. }
    rewrite Hwidth, Hheight.
    destruct (sharp_resize W b (fst (resizeRequest w h)) (snd (resizeRequest w h)))
      as [res|e]; cbn.
    + destruct (sharp_metadata W res); cbn.
      * destruct (API_LIMIT_IMAGE_UPLOAD_SIZE <? Buffer_length res); cbn;
          (split; [auto|]); intros out H; [discriminate | now injection H as ->].
      * split; [auto|]. discriminate.
    + split; [auto|]. discriminate.
Qed.

(** ** The file type of a URI *)

Lemma lastIndexOf_no_dot (s : string) : hasDot s = false -> lastIndexOf "." s = -1.
Proof.
  induction s as [|c s IH]; cbn [hasDot lastIndexOf]; [reflexivity|].
  intros H. apply orb_false_iff in H. destruct H as [Hc Hs].
  rewrite (IH Hs), Hc. reflexivity.
Qed.

Lemma lastIndexOf_dot (pre ext : string) :
  hasDot ext = false ->
  lastIndexOf "." (pre ++ String "." ext) = strlen pre.
Proof.
  intros Hext. unfold strlen.
  induction pre as [|c pre IH]; cbn [String.append lastIndexOf String.length].
  - rewrite (lastIndexOf_no_dot ext Hext). reflexivity.
  - rewrite IH.
    destruct (Z.leb_spec 0 (Z.of_nat (String.length pre))); lia.
Qed.

Lemma substring_all (s : string) : String.substring 0 (String.length s) s = s.
Proof. induction s as [|c s IH]; cbn; [reflexivity | now rewrite IH]. Qed.

Lemma substring_after_dot (pre ext : string) :
  String.substring (S (String.length pre)) (String.length ext) (pre ++ String "." ext)
  = ext.
Proof.
  induction pre as [|c pre IH]; cbn [String.append String.length String.substring].
  - apply substring_all.
  - exact IH.
Qed.

(** X19. the file type [processMedia] reads off a URI is what follows its
    last dot, and the whole URI when it has no dot (so a file named [mp4],
    with no extension, is taken for a video). *)
Theorem file_type_is_text_after_last_dot (pre ext : string) :
  hasDot ext = false ->
  fileTypeOf (pre ++ String "." ext) = ext /\ fileTypeOf ext = ext.
Proof.
  intros Hext. unfold fileTypeOf, jsSubstringFrom, jsSubstring. split.
  - rewrite (lastIndexOf_dot pre ext Hext). unfold strlen.
    assert (Hlen : String.length (pre ++ String "." ext) =
                   S (String.length pre + String.length ext))
      by (rewrite length_append; cbn [String.length]; lia).
    rewrite Hlen.
    replace (Z.to_nat (Z.of_nat (String.length pre) + 1)) with (S (String.length pre))
      by lia.
    replace (Z.to_nat (Z.of_nat (S (String.length pre + String.length ext)) -
                       (Z.of_nat (String.length pre) + 1)))
      with (String.length ext) by lia.
    apply substring_after_dot.
  - rewrite (lastIndexOf_no_dot ext Hext). unfold strlen.
    replace (Z.to_nat (-1 + 1)) with 0%nat by reflexivity.
    replace (Z.to_nat (Z.of_nat (String.length ext) - (-1 + 1)))
      with (String.length ext) by lia.
    apply substring_all.
Qed.

(** [media/posts/a.b.JPG] has file type [JPG]; [mp4] has file type [mp4]. *)
Lemma file_type_is_text_after_last_dot_witness :
  fileTypeOf "media/posts/a.b.JPG" = "JPG"%string /\ fileTypeOf "JPG" = "JPG"%string.
Proof.
  exact (file_type_is_text_after_last_dot "media/posts/a.b" "JPG" eq_refl).
Defined.

(** ** The two versions of [getMimeType] *)

(** X20. the earlier, one-switch [getMimeType] and the layered one return the
    same MIME type and log the same warning for every file type but [jpeg]
    and [png] (in any letter case), which only the layered one knows. *)
Theorem legacy_getMimeType_agrees_but_for_jpeg_png (fileType : string) :
  toLowerCase fileType <> "jpeg"%string ->
  toLowerCase fileType <> "png"%string ->
  Legacy.getMimeType fileType = getMimeType fileType.
Proof.
  unfold Legacy.getMimeType, getMimeType, getImageMimeType, getVideoMimeType.
  cbv zeta. remember (toLowerCase fileType) as t eqn:Ht. clear Ht.
  intros Hjpeg Hpng.
  apply String.eqb_neq in Hjpeg, Hpng. rewrite Hjpeg, Hpng.
  destruct (String.eqb_spec t "heic") as [-> | _]; [reflexivity|].
  destruct (String.eqb_spec t "webp") as [-> | _]; [reflexivity|].
  destruct (String.eqb_spec t "jpg") as [-> | _]; [reflexivity|].
  destruct (String.eqb_spec t "mp4") as [-> | _]; [reflexivity|].
  destruct (String.eqb_spec t "mov") as [-> | _]; reflexivity.
Qed.

(** [MOV] is a QuickTime video for both. *)
Lemma legacy_getMimeType_agrees_but_for_jpeg_png_witness :
  Legacy.getMimeType "MOV" = getMimeType "MOV".
Proof.
  assert (Hjpeg : toLowerCase "MOV" <> "jpeg"%string) by (vm_compute; discriminate).
  assert (Hpng : toLowerCase "MOV" <> "png"%string) by (vm_compute; discriminate).
  exact (legacy_getMimeType_agrees_but_for_jpeg_png "MOV" Hjpeg Hpng).
Defined.

(** ** [decodeUTF8] *)

Section JsonInduction.
Variable P : Json -> Prop.
Hypothesis HNull : P JNull.
Hypothesis HBool : forall b, P (JBool b).
Hypothesis HNumber : forall q, P (JNumber q).
Hypothesis HString : forall s, P (JString s).
Hypothesis HArray : forall items, Forall P items -> P (JArray items).
Hypothesis HObject :
  forall entries, Forall (fun kv => P (snd kv)) entries -> P (JObject entries).

Fixpoint Json_induction (data : Json) : P data :=
  match data with
  | JNull => HNull
  | JBool b => HBool b
  | JNumber q => HNumber q
  | JString s => HString s
  | JArray items =>
      HArray items
        ((fix all (l : list Json) : Forall P l :=
            match l with
            | [] => Forall_nil P
            | x :: rest => Forall_cons x (Json_induction x) (all rest)
            end) items)
  | JObject entries =>
      HObject entries
        ((fix all (l : list (string * Json)) : Forall (fun kv => P (snd kv)) l :=
            match l with
            | [] => Forall_nil _
            | (k, v) :: rest =>
                Forall_cons (P := fun kv => P (snd kv)) (k, v) (Json_induction v) (all rest)
            end) entries)
  end.
End JsonInduction.

(** X21. [decodeUTF8] changes nothing but string values: when re-encoding
    leaves every string value of the parsed archive as it is (as it does
    for well-formed text) and no object has a [__proto__] key, the decoded
    archive is the parsed one. Keys are never re-encoded. *)
Theorem decodeUTF8_changes_only_string_values (recode : string -> string) (data : Json) :
  (forall s, In s (stringsOf data) -> recode s = s) ->
  ~ In "__proto__"%string (keysOf data) ->
  decodeUTF8 recode data = data.
Proof.
  induction data as [ | b | q | s | items IH | entries IH] using Json_induction;
    intros Hstrings Hkeys; try reflexivity.
  - cbn. f_equal. apply Hstrings. now left.
  - cbn [decodeUTF8]. f_equal. cbn [stringsOf keysOf] in *.
    induction IH as [|x rest Hx _ IHrest]; [reflexivity|].
    cbn [List.map flat_map] in *. f_equal.
    + apply Hx.
      * intros s Hs. apply Hstrings. apply in_or_app. now left.
      * intros Hk. apply Hkeys. apply in_or_app. now left.
    + apply IHrest.
      * intros s Hs. apply Hstrings. apply in_or_app. now right.
      * intros Hk. apply Hkeys. apply in_or_app. now right.
  - cbn [decodeUTF8]. f_equal. cbn [stringsOf keysOf] in *.
    induction IH as [|[k v] rest Hv _ IHrest]; [reflexivity|].
    cbn [flat_map snd] in *.
    destruct (String.eqb_spec k "__proto__") as [-> | Hk].
    + exfalso. apply Hkeys. now left.
    + f_equal.
      * f_equal. apply Hv.
        -- intros s Hs. apply Hstrings. apply in_or_app. now left.
        -- intros Hin. apply Hkeys. right. apply in_or_app. now left.
      * apply IHrest.
        -- intros s Hs. apply Hstrings. apply in_or_app. now right.
        -- intros Hin. apply Hkeys. right. apply in_or_app. now right.
Qed.

(** X22. on a parsed archive with no [__proto__] key (the one key whose
    assignment changes the prototype of the copy instead of adding an
    entry), decoding twice is decoding once, when re-encoding a re-encoded
    string changes nothing. *)
Theorem decodeUTF8_is_idempotent (recode : string -> string) (data : Json) :
  (forall s, recode (recode s) = recode s) ->
  ~ In "__proto__"%string (keysOf data) ->
  decodeUTF8 recode (decodeUTF8 recode data) = decodeUTF8 recode data.
Proof.
  intros Hrecode _.
  induction data as [ | b | q | s | items IH | entries IH] using Json_induction;
    try reflexivity.
  - cbn. now rewrite Hrecode.
  - cbn [decodeUTF8]. f_equal.
    induction IH as [|x rest Hx _ IHrest]; [reflexivity|].
    cbn [List.map]. now rewrite Hx, IHrest.
  - cbn [decodeUTF8]. f_equal.
    induction IH as [|[k v] rest Hv _ IHrest]; [reflexivity|].
    cbn [snd] in Hv. destruct (String.eqb k "__proto__") eqn:Hk; [exact IHrest|].
    rewrite Hk. now rewrite Hv, IHrest.
Qed.

(** ** Instances *)

(** The photo post: one image embedded, a media count of 1. *)
Lemma mediaCount_is_number_embedded_witness :
  mediaCount Scenario.processedPhotoPost =
    Z.of_nat (List.length (embeddedSizes (embeddedMedia Scenario.processedPhotoPost))) /\
  0 <= mediaCount Scenario.processedPhotoPost <= MAX_IMAGES_PER_POST.
Proof.
  assert (H : outcome (processPost (Scenario.world Scenario.photoDisk Scenario.accepted)
                         Scenario.photoPost "archive")
              = Return Scenario.processedPhotoPost) by (vm_compute; reflexivity).
  exact (mediaCount_is_number_embedded
           (Scenario.world Scenario.photoDisk Scenario.accepted)
           Scenario.photoPost "archive" Scenario.processedPhotoPost H).
Defined.

(** The ten bytes of the photo post's image are within the ceiling. *)
Lemma embedded_buffers_within_image_ceiling_witness :
  Buffer_length (Buffer_alloc 10) <= API_LIMIT_IMAGE_UPLOAD_SIZE.
Proof.
  assert (H : outcome (processPost (Scenario.world Scenario.photoDisk Scenario.accepted)
                         Scenario.photoPost "archive")
              = Return Scenario.processedPhotoPost) by (vm_compute; reflexivity).
  exact (embedded_buffers_within_image_ceiling
           (Scenario.world Scenario.photoDisk Scenario.accepted)
           Scenario.photoPost "archive" Scenario.processedPhotoPost
           (Buffer_length (Buffer_alloc 10)) H (or_introl eq_refl)).
Defined.

(** A clip followed by a photo, both on disk: the post is the clip, and the
    photo's file is not read. *)
Lemma video_first_post_is_that_video_witness :
  exists mime buf pp,
    mimeType Scenario.processedClip = Some mime /\
    mediaBuffer Scenario.processedClip = Some buf /\
    Buffer_length buf <= API_LIMIT_IMAGE_UPLOAD_SIZE /\
    processPost (Scenario.world Scenario.photoDisk Scenario.accepted)
      Scenario.lostClipPost "archive" =
    (events (processMedia (Scenario.world Scenario.photoDisk Scenario.accepted)
               Scenario.clip "archive"), Return pp) /\
    embeddedMedia pp =
      Video {| v_alt := mediaText Scenario.processedClip; v_buffer := buf;
               v_mimeType := mime |} /\
    mediaCount pp = 1.
Proof.
  assert (H : outcome (processMedia (Scenario.world Scenario.photoDisk Scenario.accepted)
                         Scenario.clip "archive") = Return Scenario.processedClip)
    by (vm_compute; reflexivity).
  exact (video_first_post_is_that_video
           (Scenario.world Scenario.photoDisk Scenario.accepted)
           Scenario.lostClipPost "archive" Scenario.clip [Scenario.photoA]
           Scenario.processedClip eq_refl H eq_refl).
Defined.

(** The ten-byte clip is embedded as it is. *)
Lemma small_video_is_embedded_witness :
  exists pp,
    outcome (processPost (Scenario.world Scenario.photoDisk Scenario.accepted)
               Scenario.clipPost "archive") = Return pp /\
    embeddedMedia pp =
      Video {| v_alt := truncateCaption
                          (captionText (Scenario.world Scenario.photoDisk Scenario.accepted)
                             Scenario.clip);
               v_buffer := Buffer_alloc 10; v_mimeType := "video/mp4" |} /\
    mediaCount pp = 1.
Proof.
  assert (Hsize : Buffer_length (Buffer_alloc 10) <= API_LIMIT_IMAGE_UPLOAD_SIZE)
    by (vm_compute; discriminate).
  exact (small_video_is_embedded
           (Scenario.world Scenario.photoDisk Scenario.accepted)
           Scenario.clipPost "archive" Scenario.clip [] "video/mp4" (Buffer_alloc 10)
           1700000000000 eq_refl eq_refl eq_refl eq_refl Hsize eq_refl).
Defined.

(** A post with no title and one photo takes the photo's title. *)
Lemma post_text_is_cut_title_or_media_title_witness :
  outcome (processPost (Scenario.world Scenario.photoDisk Scenario.accepted)
             Scenario.onePhoto "archive") = Return Scenario.processedOnePhoto /\
  postText Scenario.processedOnePhoto = m_title Scenario.photoA.
Proof.
  assert (H : outcome (processPost (Scenario.world Scenario.photoDisk Scenario.accepted)
                         Scenario.onePhoto "archive")
              = Return Scenario.processedOnePhoto) by (vm_compute; reflexivity).
  split; [exact H|].
  exact (proj1 (post_text_is_cut_title_or_media_title
                  (Scenario.world Scenario.photoDisk Scenario.accepted)
                  Scenario.onePhoto "archive" Scenario.processedOnePhoto H)).
Defined.

(** In live mode the prepared clip comes back with the reference of the
    upload. *)
Lemma video_embed_carries_the_upload_reference_witness :
  processVideoPost Scenario.videoLab (Some "clip.mp4"%string) (Some (Buffer_alloc 10))
    (Some tt) false =
  ([Log Debug (ProcessingVideo (Buffer_length (Buffer_alloc 10)));
    UploadVideo (Buffer_length (Buffer_alloc 10))],
   Return (Some tt,
           Return {| vd_buffer := Buffer_alloc 10; vd_width := 640; vd_height := 480;
                     vd_ref := Some "ref"%string |})).
Proof.
  assert (Hne : "ref"%string <> ""%string) by discriminate.
  exact (proj1 (proj2 (video_embed_carries_the_upload_reference Scenario.videoLab
                         (Some "clip.mp4"%string) (Buffer_alloc 10) (Some tt) false
                         Scenario.preparedClip eq_refl))
           tt tt "ref"%string eq_refl eq_refl eq_refl Hne).
Defined.

(** The reel is skipped, in live mode too. *)
Lemma typed_video_without_buffer_is_skipped_witness :
  outcome (importPost (Scenario.world Scenario.photoDisk Scenario.accepted) Scenario.live
             Scenario.reel
             (Build_RunState (Scenario.world Scenario.photoDisk Scenario.accepted)
                0 0 (Some tt))) =
    Return (Build_RunState (Scenario.world Scenario.photoDisk Scenario.accepted)
              0 0 (Some tt)) /\
  List.filter isNetwork
    (events (importPost (Scenario.world Scenario.photoDisk Scenario.accepted) Scenario.live
               Scenario.reel
               (Build_RunState (Scenario.world Scenario.photoDisk Scenario.accepted)
                  0 0 (Some tt)))) = [] /\
  In (Log Error FailedToProcessVideo)
    (events (importPost (Scenario.world Scenario.photoDisk Scenario.accepted) Scenario.live
               Scenario.reel
               (Build_RunState (Scenario.world Scenario.photoDisk Scenario.accepted)
                  0 0 (Some tt)))).
Proof.
  assert (H : exists pp,
             outcome (processPost (Scenario.world Scenario.photoDisk Scenario.accepted)
                        Scenario.reel (ARCHIVE_FOLDER Scenario.live)) = Return pp)
    by (eexists; vm_compute; reflexivity).
  destruct H as [pp H].
  exact (typed_video_without_buffer_is_skipped
           (Scenario.world Scenario.photoDisk Scenario.accepted) Scenario.live
           Scenario.reel
           (Build_RunState (Scenario.world Scenario.photoDisk Scenario.accepted)
              0 0 (Some tt))
           _ [] pp eq_refl eq_refl eq_refl H).
Defined.

(** A post dated exactly at both bounds is imported. *)
Lemma date_bounds_are_inclusive_witness :
  let W := Scenario.world Scenario.photoDisk Scenario.accepted in
  iteration W Scenario.exactly2000 Scenario.between (Scenario.fresh W) =
  bind (importPost W Scenario.exactly2000 Scenario.between (Scenario.fresh W))
    (fun st' => ret (Continue, st')).
Proof.
  cbv zeta.
  apply (date_bounds_are_inclusive
           (Scenario.world Scenario.photoDisk Scenario.accepted) Scenario.exactly2000
           Scenario.between (Scenario.fresh _) (ValidDate 2000000) eq_refl).
  - intros t mn Ht Hmn. injection Ht as <-. injection Hmn as <-. lia.
  - intros t mx Ht Hmx. injection Ht as <-. injection Hmx as <-. lia.
Defined.

(** A 4000 by 3000 image is asked to be 1920 wide. *)
Lemma resize_request_is_long_edge_1920_witness :
  resizeRequest 4000 3000 = (Some 1920, None).
Proof.
  assert (Hbig : API_LIMIT_IMAGE_UPLOAD_SIZE < Buffer_length (Buffer_alloc 976001))
    by (vm_compute; reflexivity).
  assert (Hw : 4000 <> 0) by lia.
  assert (Hh : 3000 <> 0) by lia.
  exact (proj1 (resize_request_is_long_edge_1920 Scenario.photoLab
                  (Buffer_alloc 976001) "a.jpg" 4000 3000 Hbig eq_refl Hw Hh)).
Defined.

(** The parsed archive of one post is left as it is by a re-encoding that
    changes none of its strings. *)
Lemma decodeUTF8_changes_only_string_values_witness :
  decodeUTF8 (fun s => s) Scenario.parsedArchive = Scenario.parsedArchive.
Proof.
  apply (decodeUTF8_changes_only_string_values (fun s => s) Scenario.parsedArchive).
  - reflexivity.
  - cbn. intros H. repeat (destruct H as [H | H]; [discriminate H|]). exact H.
Defined.

(** Lower-casing stands for a re-encoding that changes strings. *)
Lemma decodeUTF8_is_idempotent_witness :
  decodeUTF8 toLowerCase (decodeUTF8 toLowerCase Scenario.parsedArchive) =
  decodeUTF8 toLowerCase Scenario.parsedArchive.
Proof.
  apply (decodeUTF8_is_idempotent toLowerCase Scenario.parsedArchive).
  - intros s. induction s as [|c s IH]; cbn [toLowerCase]; [reflexivity|].
    rewrite IH. f_equal. unfold lowerAscii.
    destruct ((65 <=? nat_of_ascii c)%nat && (nat_of_ascii c <=? 90)%nat) eqn:Hup.
    + apply andb_prop in Hup. destruct Hup as [H1 H2].
      apply Nat.leb_le in H1, H2. rewrite nat_ascii_embedding by lia.
      replace ((65 <=? nat_of_ascii c + 32)%nat && (nat_of_ascii c + 32 <=? 90)%nat)
        with false; [reflexivity|].
      symmetry. apply andb_false_iff. right. apply Nat.leb_gt. lia.
    + now rewrite Hup.
  - cbn. intros H. repeat (destruct H as [H | H]; [discriminate H|]). exact H.
Defined.
